(** * prometheus-osmetrics: the collection pipeline

    A shallow embedding of [src/metrics/collect.js] and [src/server.js].

    - JavaScript numbers are IEEE 754 doubles; they are Rocq's primitive
      floats, so [usage / spec] and [rate > 1] below are the very operations
      the program performs.
    - The objects the program reads are typed by its JSDoc annotations
      ([ContainerMetrics], [ContainerMetricsUsage], the body of the metrics
      endpoint, [PodInfo]); they are records here.  A property that may be
      missing ([undefined] or [null]) is an [option].  The metrics endpoint
      is not trusted to keep to its type: an answer that lacks [containers]
      or the [usage] of a container is a body of its own kind, on which the
      program throws a [TypeError].
    - A promise that rejects and a [throw] are the left injection of a sum;
      [logger.warn] appends to a log that is threaded through the
      computation and survives a later [throw].
    - What the program imports and is not part of the two files (the HTTP
      client, [Date], [encodeURIComponent], the quantity parsers, the pod
      lister, the serializer) is a variable of the section that uses it. *)

From Stdlib Require Import ZArith String Ascii List Bool Arith Lia.
From Stdlib Require Import Sorting.Permutation.
From Stdlib Require Import Floats.PrimFloat.
From Stdlib Require DecimalString.
Import ListNotations.

Local Open Scope string_scope.
Local Open Scope list_scope.

Set Implicit Arguments.

(** ** JavaScript values used by the program *)

Definition number : Set := float.

(** [`${n}`] for an integral number. *)
Definition number_to_string (n : Z) : string :=
  DecimalString.NilZero.string_of_int (Z.to_int n).

(** [Array.prototype.push]: the new element goes last. *)
Definition push {A : Type} (arr : list A) (x : A) : list A := arr ++ [x].

(** ** Errors

    Every [throw] of [collect.js] is [new Error(message)]; one constructor
    per throw site keeps the interpolated values, and [message] renders the
    template literal.  The remaining constructors are the rejections of the
    imported collaborators. *)
Inductive exn : Type :=
| StatusError (status : Z) (url : string)        (* collect.js:80 *)
| TypeofError (typeof_body : string)             (* collect.js:91 *)
| ArrayError                                     (* collect.js:97 *)
| NullError                                      (* collect.js:101 *)
| KindError (kind : string)                      (* collect.js:105 *)
| ParseError (message : string)                  (* parse-memory, parse-cpu *)
| FetchError (message : string)                  (* fetch(), response.json() *)
| ListPodsError (message : string)               (* list-pods *)
| TypeError (message : string)                   (* of the engine *)
| PoolError (message : string).                  (* new PromisePool *)

Definition message (e : exn) : string :=
  match e with
  | StatusError status url =>
      "OS API returned status code " ++ number_to_string status
        ++ " for " ++ url
  | TypeofError t => "Expected OS API to return an object but got " ++ t
  | ArrayError => "Expected OS API to return an object but got an array"
  | NullError => "Expected OS API to return an object but got null"
  | KindError k => "Expected OS API to return a PodMetrics but got " ++ k
  | ParseError m | FetchError m | ListPodsError m | TypeError m
  | PoolError m => m
  end.

(** ** The logger

    [logger.warn(format, ...args)]: the entry keeps the format and the
    arguments as they are passed. *)
Inductive LogArg : Type :=
| ArgString (s : string)
| ArgNumber (n : number).

Record Warning : Type := mkWarning
  { w_format : string;
    w_args : list LogArg }.

Definition Log : Type := list Warning.

(** ** Computations that log and may throw *)
Definition M (A : Type) : Type := Log -> Log * (exn + A).

Definition ret {A : Type} (a : A) : M A := fun l => (l, inr a).

Definition throw {A : Type} (e : exn) : M A := fun l => (l, inl e).

Definition bind {A B : Type} (c : M A) (k : A -> M B) : M B :=
  fun l =>
    match c l with
    | (l', inl e) => (l', inl e)
    | (l', inr a) => k a l'
    end.

Definition warn (w : Warning) : M unit := fun l => (l ++ [w], inr tt).

(** A call into a collaborator that returns or rejects with a message. *)
Definition call {A : Type} (wrap : string -> exn) (r : string + A) : M A :=
  match r with
  | inl m => throw (wrap m)
  | inr a => ret a
  end.

Notation "x <- c ;; k" := (bind c (fun x => k))
  (at level 61, c at next level, right associativity).

(** [arr.forEach(f)] where [f] mutates the array [acc]. *)
Fixpoint forEach {A S : Type} (f : A -> S -> M S) (arr : list A) (acc : S)
  : M S :=
  match arr with
  | [] => ret acc
  | x :: rest => acc' <- f x acc ;; forEach f rest acc'
  end.

(** ** Data model *)

(** [resources.limits] and [resources.requests] of a spec container. *)
Record ResourceList : Type := mkResourceList
  { memory : option string;
    cpu : option string }.

Record Resources : Type := mkResources
  { limits : option ResourceList;
    requests : option ResourceList }.

Record SpecContainer : Type := mkSpecContainer
  { sc_name : string;
    resources : option Resources }.

(** [PodInfo] of list-pods, as far as the program reads it:
    [pod.metadata.name], [pod.metadata.namespace], [pod.spec.containers],
    [pod.status.phase]. *)
Record PodInfo : Type := mkPodInfo
  { metadata_name : string;
    metadata_namespace : string;
    spec_containers : list SpecContainer;
    status_phase : string }.

(** [ContainerMetrics] with its [ContainerMetricsUsage]. *)
Record ContainerMetrics : Type := mkContainerMetrics
  { cm_name : string;
    usage_memory : string;
    usage_cpu : string }.

(** The object the metrics endpoint answers with (collect.js:86). *)
Record PodMetrics : Type := mkPodMetrics
  { kind : string;
    containers : list ContainerMetrics;
    timestamp : string }.

(** An object that is not a [PodMetrics] as the JSDoc declares it, as far
    as the program reads it.  The program checks [kind] only and then reads
    [body.containers] and, entry by entry, [container.usage] unchecked
    (collect.js:113-118).  [mf_containers] is [None] when [containers] is
    missing, [null] or no array; otherwise it holds the entries of the
    array, which are as declared, up to the first entry that has no
    [usage]: the program throws there and reads nothing after it.  What a
    [usage] without a string [memory] or [cpu] leads to is decided by the
    parsers, which take strings here. *)
Record MalformedMetrics : Type := mkMalformedMetrics
  { mf_kind : string;
    mf_containers : option (list ContainerMetrics);
    mf_timestamp : string }.

(** What [response.json()] can decode to.  The elements of an array are
    never read.  An object is a [BodyObject] when it has the declared
    shape and a [BodyMalformed] when it has not. *)
Inductive Body : Type :=
| BodyString (s : string)
| BodyNumber (n : number)
| BodyBoolean (b : bool)
| BodyNull
| BodyArray
| BodyObject (o : PodMetrics)
| BodyMalformed (o : MalformedMetrics).

Definition typeof (b : Body) : string :=
  match b with
  | BodyString _ => "string"
  | BodyNumber _ => "number"
  | BodyBoolean _ => "boolean"
  | BodyNull | BodyArray | BodyObject _ | BodyMalformed _ => "object"
  end.

(** The response of [fetch]; [json] is the outcome of [response.json()]. *)
Record Response : Type := mkResponse
  { status : Z;
    url : string;
    json : string + Body }.

(** [PrometheusMetric] of serialize; [labels] keeps the keys in the order
    of the object literal. *)
Record PrometheusMetric : Type := mkMetric
  { name : string;
    labels : list (string * string);
    type : string;
    help : string;
    value : number;
    m_timestamp : number }.

(** JavaScript truthiness of an optional string property: [undefined],
    [null] and the empty string are falsy. *)
Definition truthy (s : option string) : option string :=
  match s with
  | Some "" => None
  | Some q => Some q
  | None => None
  end.

(** [specContainer && specContainer.resources && specContainer.resources.r
    && specContainer.resources.r.q]: the quantity when the chain is
    truthy. *)
Definition declared (r : Resources -> option ResourceList)
  (q : ResourceList -> option string) (specContainer : option SpecContainer)
  : option string :=
  match specContainer with
  | None => None
  | Some c =>
      match resources c with
      | None => None
      | Some rs =>
          match r rs with
          | None => None
          | Some rl => truthy (q rl)
          end
      end
  end.

(** [pod.spec.containers.find((cont) => cont.name === container.name)]
    (collect.js:144). *)
Definition spec_container (pod : PodInfo) (container : ContainerMetrics)
  : option SpecContainer :=
  find (fun cont => sc_name cont =? cm_name container) (spec_containers pod).

(** ** The usage fetcher *)
Section Fetcher.

(** [https.Agent], opaque to the program. *)
Variable Agent : Type.

Record Request : Type := mkRequest
  { req_url : string;
    req_timeout : Z;
    req_authorization : string;
    req_accept : string;
    req_agent : option Agent }.

Record FetchMetricOptions : Type := mkFetchMetricOptions
  { fm_pod : PodInfo;
    fm_accessToken : string;
    fm_osApi : string;
    fm_agent : option Agent }.

(** Built-ins and imports. *)
Variable encodeURIComponent : string -> string.
Variable Date_getTime : string -> number.
Variable parseMemory : string -> string + number.
Variable parseCpu : string -> string + number.
Variable fetch : Request -> string + Response.

Definition dateToTimeStamp (date : string) : number :=
  (Date_getTime date / 1000)%float.

Definition metrics_url (osApi : string) (pod : PodInfo) : string :=
  osApi ++ "/apis/metrics.k8s.io/v1beta1/namespaces/"
    ++ encodeURIComponent (metadata_namespace pod)
    ++ "/pods/" ++ encodeURIComponent (metadata_name pod).

Definition pod_labels (pod : PodInfo) (container : ContainerMetrics)
  : list (string * string) :=
  [ ("pod", metadata_name pod);
    ("container", cm_name container);
    ("namespace", metadata_namespace pod) ].

Definition gauge (pod : PodInfo) (container : ContainerMetrics)
  (metric help : string) (v ts : number) : PrometheusMetric :=
  {| name := metric;
     labels := pod_labels pod container;
     type := "gauge";
     help := help;
     value := v;
     m_timestamp := ts |}.

Definition rate_warning (metric : string) (pod : PodInfo)
  (container : ContainerMetrics) (quantity : string)
  (spec usage rate : number) : Warning :=
  {| w_format := metric
       ++ " is > 1 for pod %s container %s spec %s (%j) usage (%j) = %j";
     w_args := [ ArgString (metadata_name pod);
                 ArgString (cm_name container);
                 ArgString quantity;
                 ArgNumber spec;
                 ArgNumber usage;
                 ArgNumber rate ] |}.

(** One of the four [if (specContainer && ...) { ... }] blocks of
    collect.js:146-277.  They differ in the property read, the parser,
    the usage compared, the metric name and the help text. *)
Definition rate_block (pod : PodInfo) (container : ContainerMetrics)
  (ts : number) (metric help : string)
  (parse : string -> string + number) (quantity : option string)
  (usage : number) (metrics : list PrometheusMetric)
  : M (list PrometheusMetric) :=
  match quantity with
  | None => ret metrics
  | Some q =>
      spec <- call ParseError (parse q) ;;
      let rate := (usage / spec)%float in
      _ <- (if (1 <? rate)%float
            then warn (rate_warning metric pod container q spec usage rate)
            else ret tt) ;;
      ret (push metrics (gauge pod container metric help rate ts))
  end.

(** The callback of [containers.forEach] (collect.js:116-279). *)
Definition forEach_container (pod : PodInfo) (ts : number)
  (container : ContainerMetrics) (metrics : list PrometheusMetric)
  : M (list PrometheusMetric) :=
  parsedMemoryUsage <- call ParseError (parseMemory (usage_memory container)) ;;
  parsedCpuUsage <- call ParseError (parseCpu (usage_cpu container)) ;;
  let metrics :=
    push metrics (gauge pod container "osmetrics_pod_memory_usage_bytes"
                    "Pod Memory Usage" parsedMemoryUsage ts) in
  let metrics :=
    push metrics (gauge pod container "osmetrics_pod_cpu_usage_millicores"
                    "Pod CPU Usage Rate" parsedCpuUsage ts) in
  let specContainer := spec_container pod container in
  metrics <- rate_block pod container ts
               "osmetrics_pod_memory_usage_limits_rate" "Pod Memory Usage"
               parseMemory (declared limits memory specContainer)
               parsedMemoryUsage metrics ;;
  metrics <- rate_block pod container ts
               "osmetrics_pod_memory_usage_requests_rate" "Pod Memory Usage"
               parseMemory (declared requests memory specContainer)
               parsedMemoryUsage metrics ;;
  metrics <- rate_block pod container ts
               "osmetrics_pod_cpu_usage_limits_rate" "Pod CPU Usage rate"
               parseCpu (declared limits cpu specContainer)
               parsedCpuUsage metrics ;;
  rate_block pod container ts
    "osmetrics_pod_cpu_usage_requests_rate" "Pod CPU Usage rate"
    parseCpu (declared requests cpu specContainer)
    parsedCpuUsage metrics.

Definition bad_status (s : Z) : bool :=
  (s <? 200)%Z || (s >? 299)%Z || (s =? 204)%Z.

(** collect.js:90-106 and the loop: the three checks on the decoded body
    in the order of the source ([typeof], [Array.isArray], [== null]),
    then the check of [kind].  On an object that lacks [containers] the
    call [containers.forEach] throws; on an entry that lacks [usage] the
    callback throws when it reads [container.usage.memory], after the
    entries before it have been processed.  Both are [TypeError]s of the
    engine, whose text is the engine's. *)
Definition process_body (pod : PodInfo) (body : Body)
  : M (list PrometheusMetric) :=
  match body with
  | BodyString _ | BodyNumber _ | BodyBoolean _ =>
      throw (TypeofError (typeof body))
  | BodyArray => throw ArrayError
  | BodyNull => throw NullError
  | BodyObject o =>
      if negb (kind o =? "PodMetrics") then throw (KindError (kind o))
      else
        let ts := dateToTimeStamp (timestamp o) in
        forEach (forEach_container pod ts) (containers o) []
  | BodyMalformed o =>
      if negb (mf_kind o =? "PodMetrics") then throw (KindError (mf_kind o))
      else
        let ts := dateToTimeStamp (mf_timestamp o) in
        match mf_containers o with
        | None =>
            throw (TypeError "Cannot read property 'forEach' of undefined")
        | Some entries =>
            _ <- forEach (forEach_container pod ts) entries [] ;;
            throw (TypeError "Cannot read property 'memory' of undefined")
        end
  end.

(** The request of collect.js:63-73. *)
Definition usage_request (o : FetchMetricOptions) : Request :=
  {| req_url := metrics_url (fm_osApi o) (fm_pod o);
     req_timeout := 10000;
     req_authorization := "Bearer " ++ fm_accessToken o;
     req_accept := "application/json";
     req_agent := fm_agent o |}.

Definition fetchPodMemoryAndCpuUsage (o : FetchMetricOptions)
  : M (list PrometheusMetric) :=
  let pod := fm_pod o in
  response <- call FetchError (fetch (usage_request o)) ;;
  if bad_status (status response)
  then throw (StatusError (status response) (url response))
  else
    body <- call FetchError (json response) ;;
    process_body pod body.

End Fetcher.

(** ** The collector and the promise pool *)

(** [Array.prototype.pop]: the last element, and the array without it. *)
Definition pop {A : Type} (arr : list A) : option A * list A :=
  match rev arr with
  | [] => (None, [])
  | x :: r => (Some x, rev r)
  end.

(** The array without its [i]-th element. *)
Definition remove_nth {A : Type} (i : nat) (l : list A) : list A :=
  firstn i l ++ skipn (S i) l.

(** [Promise.all]: the values in order when every promise fulfils, else the
    rejection that happens first; [race] says which of the rejected ones
    that is. *)
Fixpoint rejections {A : Type} (rs : list (exn + A)) : list exn :=
  match rs with
  | [] => []
  | inl e :: rest => e :: rejections rest
  | inr _ :: rest => rejections rest
  end.

Fixpoint fulfilments {A : Type} (rs : list (exn + A)) : list A :=
  match rs with
  | [] => []
  | inl _ :: rest => fulfilments rest
  | inr a :: rest => a :: fulfilments rest
  end.

Definition Promise_all {A : Type} (race : nat) (rs : list (exn + A))
  : exn + list A :=
  match rejections rs with
  | [] => inr (fulfilments rs)
  | e :: es => inl (nth (race mod length (e :: es)) (e :: es) e)
  end.

(** What happens during one collection cycle, oldest first: [Dispatch id
    pod] when [processPod(pod)] is called and issues the [id]-th usage
    request, [Fulfil id] and [Reject id e] when that call settles. *)
Inductive Event : Type :=
| Dispatch (id : nat) (pod : PodInfo)
| Fulfil (id : nat)
| Reject (id : nat) (e : exn).

(** The order in which the event loop resumes what is suspended: [race]
    for the pod listings, [completion k] for the [k]-th usage fetch that
    completes (an index into the fetches in flight, taken modulo their
    number). *)
Record Schedule : Type := mkSchedule
  { race : nat;
    completion : nat -> nat }.

Section Collector.

Variable Agent : Type.
Variable encodeURIComponent : string -> string.
Variable Date_getTime : string -> number.
Variable parseMemory : string -> string + number.
Variable parseCpu : string -> string + number.

(** The metrics endpoint: the answer to the [id]-th usage request of the
    cycle. *)
Variable network : nat -> Request Agent -> string + Response.

(** The options of list-pods. *)
Record ListPodsOptions : Type := mkListPodsOptions
  { lp_osApi : string;
    lp_namespace : string;
    lp_accessToken : string;
    lp_agent : option Agent }.

Variable listPods : ListPodsOptions -> string + list PodInfo.

(** [Options] of [collectMetrics]; the logger is the log of [M].
    [createServer] passes [defaultNamespace], which may be [null]. *)
Record Options : Type := mkOptions
  { namespace : option (list string);
    concurrency : Z;
    osApi : string;
    accessToken : string;
    agent : option Agent }.

(** The state of a cycle once the pods are listed: the variables
    [allPods] and [metrics] of [collectMetrics], the log, and the pool.
    [running] are the [processPod] calls awaiting their fetch, with the
    number of their request; the pool's [_size] is their number.
    [settled] is [None] while the promise of [pool.start()] is pending
    and afterwards holds what [collectMetrics] returns or throws.
    [trace] is a history variable. *)
Record Cycle : Type := mkCycle
  { allPods : list PodInfo;
    metrics : list PrometheusMetric;
    log : Log;
    running : list (nat * PodInfo);
    started : nat;
    pool_done : bool;
    settled : option (exn + list PrometheusMetric);
    trace : list Event }.

Definition active (st : Cycle) : bool :=
  match settled st with
  | None => true
  | Some _ => false
  end.

(** [promiseProducer] (collect.js:331-339): pops a pod and starts
    [processPod] on it, which issues the request at once; [None] is the
    [null] it returns when no pod is left. *)
Definition promiseProducer (st : Cycle) : option Cycle :=
  match pop (allPods st) with
  | (Some pod, rest) =>
      Some {| allPods := rest;
              metrics := metrics st;
              log := log st;
              running := push (running st) (started st, pod);
              started := S (started st);
              pool_done := pool_done st;
              settled := settled st;
              trace := push (trace st) (Dispatch (started st) pod) |}
  | (None, rest) => None
  end.

Definition set_done (st : Cycle) : Cycle :=
  {| allPods := allPods st;
     metrics := metrics st;
     log := log st;
     running := running st;
     started := started st;
     pool_done := true;
     settled := settled st;
     trace := trace st |}.

(** The promise of [pool.start()] settles; on success [collectMetrics]
    goes on to [return metrics]. *)
Definition settle (error : option exn) (st : Cycle) : Cycle :=
  {| allPods := allPods st;
     metrics := metrics st;
     log := log st;
     running := running st;
     started := started st;
     pool_done := pool_done st;
     settled := Some match error with
                     | Some e => inl e
                     | None => inr (metrics st)
                     end;
     trace := trace st |}.

(** Modelled from the spec: es6-promise-pool is a dependency and is not
    under src/.  "Maintains an in-flight count <= configured concurrency;
    each time a fetch completes, the next pending pod (if any) is
    dispatched": the pool asks the producer for a promise while fewer
    than [concurrency] are in flight, and notes when the producer has
    nothing left. *)
Fixpoint pool_fill (fuel : nat) (c : Z) (st : Cycle) : Cycle :=
  match fuel with
  | O => st
  | S fuel' =>
      if (Z.of_nat (length (running st)) <? c)%Z
      then match promiseProducer st with
           | Some st' => pool_fill fuel' c st'
           | None => set_done st
           end
      else st
  end.

(** Modelled from the spec: the pool's scheduling step (es6-promise-pool
    is not under src/).  It fills the free slots and fulfils the pool's
    promise once the producer is exhausted and nothing is in flight. *)
Definition pool_proceed (c : Z) (st : Cycle) : Cycle :=
  let st1 :=
    if pool_done st then st
    else pool_fill (S (length (allPods st))) c st in
  if pool_done st1 && (length (running st1) =? 0)%nat
  then settle None st1
  else st1.

Definition fetch_options (o : Options) (pod : PodInfo)
  : FetchMetricOptions Agent :=
  {| fm_pod := pod;
     fm_accessToken := accessToken o;
     fm_osApi := osApi o;
     fm_agent := agent o |}.

(** The usage fetch of request [id] for [pod], run on the log [l]. *)
Definition usage_fetch (o : Options) (id : nat) (pod : PodInfo) (l : Log)
  : Log * (exn + list PrometheusMetric) :=
  fetchPodMemoryAndCpuUsage encodeURIComponent Date_getTime parseMemory
    parseCpu (network id) (fetch_options o pod) l.

(** [processPod] (collect.js:316-326) once its fetch has an answer: the
    new value of the variable [metrics], which is read after the [await]. *)
Definition processPod (o : Options) (id : nat) (pod : PodInfo)
  (metrics : list PrometheusMetric) : M (list PrometheusMetric) :=
  podCpuAndMemoryMetrics <- usage_fetch o id pod ;;
  ret (metrics ++ podCpuAndMemoryMetrics).

(** Modelled from the spec: how the pool (es6-promise-pool, not under
    src/) reacts when a pooled promise settles.  The [i]-th call of
    [processPod] in flight resumes with its response.  If it fulfils, the
    pool, if its promise is still pending, schedules again.  If it
    rejects, "fail-fast": the pool rejects its promise with that error,
    schedules nothing, and "pods already in flight are allowed to settle
    but their results are discarded". *)
Definition complete (o : Options) (i : nat) (st : Cycle) : Cycle :=
  match nth_error (running st) i with
  | None => st
  | Some (id, pod) =>
      match processPod o id pod (metrics st) (log st) with
      | (log', inr metrics') =>
          let st1 :=
            {| allPods := allPods st;
               metrics := metrics';
               log := log';
               running := remove_nth i (running st);
               started := started st;
               pool_done := pool_done st;
               settled := settled st;
               trace := push (trace st) (Fulfil id) |} in
          if active st1 then pool_proceed (concurrency o) st1 else st1
      | (log', inl e) =>
          let st1 :=
            {| allPods := allPods st;
               metrics := metrics st;
               log := log';
               running := remove_nth i (running st);
               started := started st;
               pool_done := pool_done st;
               settled := settled st;
               trace := push (trace st) (Reject id e) |} in
          if active st1 then settle (Some e) st1 else st1
      end
  end.

(** The event loop: as long as a usage fetch is in flight, the one the
    schedule names completes.  [k] counts the completions so far. *)
Fixpoint drain (o : Options) (sched : Schedule) (fuel k : nat)
  (st : Cycle) : Cycle :=
  match fuel with
  | O => st
  | S fuel' =>
      match running st with
      | [] => st
      | _ :: _ =>
          drain o sched fuel' (S k)
            (complete o (completion sched k mod length (running st)) st)
      end
  end.

(** collect.js:290-305: the pods of every namespace, concatenated, without
    those in a terminal phase. *)
Definition not_terminal (pod : PodInfo) : bool :=
  negb (status_phase pod =? "Failed")
  && negb (status_phase pod =? "Succeeded").

Definition list_all_pods (o : Options) (sched : Schedule)
  : exn + list PodInfo :=
  match namespace o with
  | None => inl (TypeError "Cannot read property 'map' of null")
  | Some namespaces =>
      match Promise_all (race sched)
              (map (fun ns =>
                      match listPods {| lp_osApi := osApi o;
                                        lp_namespace := ns;
                                        lp_accessToken := accessToken o;
                                        lp_agent := agent o |} with
                      | inl m => inl (ListPodsError m)
                      | inr pods => inr pods
                      end) namespaces)
      with
      | inl e => inl e
      | inr podsPerNamespace =>
          inr (filter not_terminal
                 (fold_left (fun accum pods => accum ++ pods)
                    podsPerNamespace []))
      end
  end.

Definition init_cycle (pods : list PodInfo) (l : Log) : Cycle :=
  {| allPods := pods;
     metrics := [];
     log := l;
     running := [];
     started := 0;
     pool_done := false;
     settled := None;
     trace := [] |}.

(** Modelled from the spec: [new PromisePool(promiseProducer,
    options.concurrency)] and [pool.start()] (es6-promise-pool is not
    under src/).  A concurrency below 1 is refused by the constructor;
    otherwise the pool schedules for the first time and the event loop
    runs until nothing is in flight.  One completion per pod is all the
    fuel the loop can use. *)
Definition run_pool (o : Options) (sched : Schedule)
  (pods : list PodInfo) (l : Log) : exn + Cycle :=
  if (concurrency o <? 1)%Z then inl (PoolError "Invalid concurrency")
  else inr (drain o sched (length pods) 0
              (pool_proceed (concurrency o) (init_cycle pods l))).

(** A collection cycle up to the point where nothing is left in flight:
    an error thrown before the pool starts, or the final state. *)
Definition cycle (o : Options) (sched : Schedule) (l : Log)
  : exn + Cycle :=
  match list_all_pods o sched with
  | inl e => inl e
  | inr pods => run_pool o sched pods l
  end.

(** [collectMetrics]: what the promise it returns settles with; [None]
    would be a promise that stays pending. *)
Definition collectMetrics (o : Options) (sched : Schedule) (l : Log)
  : option (exn + list PrometheusMetric) :=
  match cycle o sched l with
  | inl e => Some (inl e)
  | inr st => settled st
  end.

(** The warnings logged by the time the cycle is over. *)
Definition collectMetrics_log (o : Options) (sched : Schedule) (l : Log)
  : Log :=
  match cycle o sched l with
  | inl _ => l
  | inr st => log st
  end.

End Collector.

(** ** The server *)
Section Server.

Variable Agent : Type.
Variable encodeURIComponent : string -> string.
Variable Date_getTime : string -> number.
Variable parseMemory : string -> string + number.
Variable parseCpu : string -> string + number.
Variable network : nat -> Request Agent -> string + Response.
Variable listPods : ListPodsOptions Agent -> string + list PodInfo.
Variable serializeMetrics : list PrometheusMetric -> string.

(** The options of [createServer] that the routes use; [so_concurrency]
    is [None] when the property is left out. *)
Record ServerOptions : Type := mkServerOptions
  { so_concurrency : option Z;
    so_osApi : string;
    so_accessToken : string;
    so_agent : option Agent;
    so_defaultNamespace : option (list string) }.

(** [req.query] once the schema has been applied: [namespace] is a string
    or an array of strings, [excitement] an integer, both optional, and
    there is no other property. *)
Inductive NamespaceParam : Type :=
| One (ns : string)
| Many (nss : list string).

Record Query : Type := mkQuery
  { q_namespace : option NamespaceParam;
    q_excitement : option Z }.

(** The [querystring] schema of the route (server.js:43-61). *)
Definition schema_string_minLength1 (s : string) : bool :=
  (1 <=? String.length s)%nat.

Definition schema_namespace (n : NamespaceParam) : bool :=
  match n with
  | One s => schema_string_minLength1 s
  | Many l => forallb schema_string_minLength1 l
  end.

Definition querystring_schema (q : Query) : bool :=
  match q_namespace q with
  | None => true
  | Some n => schema_namespace n
  end
  && match q_excitement q with
     | None => true
     | Some _ => true   (* { type: 'integer' } *)
     end.

(** [concurrency = 10] in the parameter list of [createServer]. *)
Definition server_concurrency (so : ServerOptions) : Z :=
  match so_concurrency so with
  | Some c => c
  | None => 10%Z
  end.

(** server.js:64-70. *)
Definition request_namespace (so : ServerOptions) (q : Query)
  : option (list string) :=
  match q_namespace q with
  | None => so_defaultNamespace so
  | Some (One "") => so_defaultNamespace so
  | Some (One ns) => Some [ns]
  | Some (Many nss) => Some nss
  end.

(** The argument of [collectMetrics] in the handler; [logger: req.log] is
    the log the handler runs on. *)
Definition collect_options (so : ServerOptions) (q : Query)
  : Options Agent :=
  {| namespace := request_namespace so q;
     concurrency := server_concurrency so;
     osApi := so_osApi so;
     accessToken := so_accessToken so;
     agent := so_agent so |}.

(** The handler of [GET /metrics]: the body it sends, or the error it
    throws; [None] if it never replies. *)
Definition metrics_handler (so : ServerOptions) (q : Query)
  (sched : Schedule) (l : Log) : option (exn + string) :=
  match collectMetrics encodeURIComponent Date_getTime parseMemory
          parseCpu network listPods (collect_options so q) sched l with
  | None => None
  | Some (inl e) => Some (inl e)
  | Some (inr metrics) => Some (inr (serializeMetrics metrics))
  end.

(** The handler of [GET /health] sends [{ status: 'ok' }]. *)
Definition health_handler : list (string * string) := [("status", "ok")].

End Server.

(** ** The quantity parsers *)
Module QuantityParsers.

Definition is_digit (c : ascii) : bool :=
  ((48 <=? nat_of_ascii c) && (nat_of_ascii c <=? 57))%nat.

Definition digit_value (c : ascii) : Z :=
  Z.of_nat (nat_of_ascii c - 48).

(** The number a string of decimal digits denotes, continuing from [acc];
    [None] when a character is not a digit. *)
Fixpoint digits_value (acc : Z) (s : string) : option Z :=
  match s with
  | EmptyString => Some acc
  | String c rest =>
      if is_digit c then digits_value (10 * acc + digit_value c) rest
      else None
  end.

(** The part before the first dot and, if there is a dot, the part after
    it. *)
Fixpoint split_dot (s : string) : string * option string :=
  match s with
  | EmptyString => (EmptyString, None)
  | String c rest =>
      if (c =? ".")%char then (EmptyString, Some rest)
      else let (int, frac) := split_dot rest in (String c int, frac)
  end.

(** The double nearest to an integer (exact below 2^53). *)
Fixpoint pos_to_float (p : positive) : number :=
  match p with
  | xH => 1%float
  | xO q => (2 * pos_to_float q)%float
  | xI q => (2 * pos_to_float q + 1)%float
  end.

Definition Z_to_float (z : Z) : number :=
  match z with
  | Z0 => 0%float
  | Zpos p => pos_to_float p
  | Zneg p => (- pos_to_float p)%float
  end.

(** Modelled from the spec: parse-memory.js and parse-cpu.js are not
    under src/.  "The numeric portion" of a quantity is "a valid number":
    decimal digits, optionally followed by a dot and more decimal
    digits. *)
Definition parse_number (s : string) : option number :=
  match split_dot s with
  | (EmptyString, _) => None
  | (int, None) => option_map Z_to_float (digits_value 0 int)
  | (_, Some EmptyString) => None
  | (int, Some frac) =>
      match digits_value 0 (int ++ frac) with
      | Some n =>
          Some (Z_to_float n
                / Z_to_float (10 ^ Z.of_nat (String.length frac)))%float
      | None => None
      end
  end.

Definition is_numeric (c : ascii) : bool := is_digit c || (c =? ".")%char.

(** Modelled from the spec: parse-memory.js and parse-cpu.js are not
    under src/.  A quantity is a numeric portion followed by "an optional
    suffix": the numeric portion is the longest prefix of digits and
    dots. *)
Fixpoint split_suffix (s : string) : string * string :=
  match s with
  | EmptyString => (EmptyString, EmptyString)
  | String c rest =>
      if is_numeric c
      then let (n, suffix) := split_suffix rest in (String c n, suffix)
      else (EmptyString, s)
  end.

(** Modelled from the spec: parse-memory.js is not under src/.  "Binary
    (Ki, Mi, Gi, Ti, Pi, Ei, multipliers 2^10...2^60) or decimal (k, M, G,
    T, P, E, multipliers 10^3...10^18); no suffix means raw bytes". *)
Definition memory_suffixes : list (string * Z) :=
  [ ("Ki", 2 ^ 10); ("Mi", 2 ^ 20); ("Gi", 2 ^ 30);
    ("Ti", 2 ^ 40); ("Pi", 2 ^ 50); ("Ei", 2 ^ 60);
    ("k", 10 ^ 3); ("M", 10 ^ 6); ("G", 10 ^ 9);
    ("T", 10 ^ 12); ("P", 10 ^ 15); ("E", 10 ^ 18);
    ("", 1) ]%Z.

Fixpoint lookup (k : string) (table : list (string * Z)) : option Z :=
  match table with
  | [] => None
  | (k', v) :: rest => if k =? k' then Some v else lookup k rest
  end.

(** Modelled from the spec: parse-memory.js is not under src/.
    "parseMemory(raw: string) -> bytes (number) ... Fails with a
    ParseError when the numeric portion is not a valid number or the
    suffix is unrecognized."  The left injection is the message of the
    ParseError. *)
Definition parseMemory (raw : string) : string + number :=
  let (n, suffix) := split_suffix raw in
  match parse_number n, lookup suffix memory_suffixes with
  | Some v, Some multiplier => inr (v * Z_to_float multiplier)%float
  | _, _ => inl ("Invalid memory quantity " ++ raw)%string
  end.

(** Modelled from the spec: parse-cpu.js is not under src/.
    "parseCpu(raw: string) -> millicores (number).  A trailing m means
    the numeric prefix is already millicores; absence of m means the
    value is whole cores and must be multiplied by 1000.  Fails with
    ParseError on non-numeric input." *)
Definition parseCpu (raw : string) : string + number :=
  let (n, suffix) := split_suffix raw in
  match parse_number n, suffix with
  | Some v, "m" => inr v
  | Some v, "" => inr (v * 1000)%float
  | _, _ => inl ("Invalid cpu quantity " ++ raw)%string
  end.



End QuantityParsers.

(** ** The four rate records

    The four conditional blocks of the [forEach] callback, as a table: the
    metric name, the help text, the declared quantity read from the spec
    container, the parser applied to it and the usage compared with it. *)
Inductive RateKind : Type :=
| MemoryLimits
| MemoryRequests
| CpuLimits
| CpuRequests.

Definition rate_name (k : RateKind) : string :=
  match k with
  | MemoryLimits => "osmetrics_pod_memory_usage_limits_rate"
  | MemoryRequests => "osmetrics_pod_memory_usage_requests_rate"
  | CpuLimits => "osmetrics_pod_cpu_usage_limits_rate"
  | CpuRequests => "osmetrics_pod_cpu_usage_requests_rate"
  end.

Definition rate_help (k : RateKind) : string :=
  match k with
  | MemoryLimits | MemoryRequests => "Pod Memory Usage"
  | CpuLimits | CpuRequests => "Pod CPU Usage rate"
  end.

Definition rate_resources (k : RateKind) : Resources -> option ResourceList :=
  match k with
  | MemoryLimits | CpuLimits => limits
  | MemoryRequests | CpuRequests => requests
  end.

Definition rate_property (k : RateKind) : ResourceList -> option string :=
  match k with
  | MemoryLimits | MemoryRequests => memory
  | CpuLimits | CpuRequests => cpu
  end.

Definition rate_usage (k : RateKind) (memoryUsage cpuUsage : number)
  : number :=
  match k with
  | MemoryLimits | MemoryRequests => memoryUsage
  | CpuLimits | CpuRequests => cpuUsage
  end.

Definition rate_parser (parseMemory parseCpu : string -> string + number)
  (k : RateKind) : string -> string + number :=
  match k with
  | MemoryLimits | MemoryRequests => parseMemory
  | CpuLimits | CpuRequests => parseCpu
  end.

(** The quantity of kind [k] is declared as [q] on the spec container that
    has the container's name: the container is found, it has resources,
    they have the limits (or requests), and these hold the non-empty
    string [q]. *)
Definition declares (k : RateKind) (pod : PodInfo)
  (container : ContainerMetrics) (q : string) : Prop :=
  exists sc rs rl,
    spec_container pod container = Some sc
    /\ resources sc = Some rs
    /\ rate_resources k rs = Some rl
    /\ rate_property k rl = Some q
    /\ q <> "".

(** ** What the callback adds for one container *)

(** What one of the four blocks adds: the records [rs] and the warnings
    [ws]. *)
Definition block_adds (pod : PodInfo) (c : ContainerMetrics) (ts : number)
  (metric help : string) (parse : string -> string + number)
  (quantity : option string) (usage : number)
  (rs : list PrometheusMetric) (ws : Log) : Prop :=
  match quantity with
  | None => rs = [] /\ ws = []
  | Some q =>
      exists spec,
        parse q = inr spec
        /\ rs = [gauge pod c metric help (usage / spec)%float ts]
        /\ ws = if (1 <? usage / spec)%float
                then [rate_warning metric pod c q spec usage
                        (usage / spec)%float]
                else []
  end.

(** What a successful run of the callback adds for container [c]: the two
    usage records and then what the four blocks add, in the order of the
    source. *)
Definition container_adds (parseMemory parseCpu : string -> string + number)
  (pod : PodInfo) (ts : number) (c : ContainerMetrics)
  (chunk : list PrometheusMetric) (ws : Log) : Prop :=
  exists memoryUsage cpuUsage
         (r : RateKind -> list PrometheusMetric) (w : RateKind -> Log),
    parseMemory (usage_memory c) = inr memoryUsage
    /\ parseCpu (usage_cpu c) = inr cpuUsage
    /\ chunk =
         [ gauge pod c "osmetrics_pod_memory_usage_bytes" "Pod Memory Usage"
             memoryUsage ts;
           gauge pod c "osmetrics_pod_cpu_usage_millicores"
             "Pod CPU Usage Rate" cpuUsage ts ]
         ++ r MemoryLimits ++ r MemoryRequests ++ r CpuLimits
         ++ r CpuRequests
    /\ ws = w MemoryLimits ++ w MemoryRequests ++ w CpuLimits
            ++ w CpuRequests
    /\ forall k,
         block_adds pod c ts (rate_name k) (rate_help k)
           (rate_parser parseMemory parseCpu k)
           (declared (rate_resources k) (rate_property k)
              (spec_container pod c))
           (rate_usage k memoryUsage cpuUsage) (r k) (w k).


(** ** Reading the trace of a cycle *)

(** The requests issued, in order: their number and their pod. *)
Fixpoint dispatches (t : list Event) : list (nat * PodInfo) :=
  match t with
  | [] => []
  | Dispatch id pod :: rest => (id, pod) :: dispatches rest
  | _ :: rest => dispatches rest
  end.

(** The number of usage fetches in flight after the events of [t]: the
    calls dispatched and not yet settled. *)
Fixpoint in_flight (t : list Event) : Z :=
  match t with
  | [] => 0
  | Dispatch _ _ :: rest => in_flight rest + 1
  | Fulfil _ :: rest => in_flight rest - 1
  | Reject _ _ :: rest => in_flight rest - 1
  end%Z.

(** The largest number of usage fetches in flight at any point of [t]. *)
Fixpoint peak_from (cur peak : Z) (t : list Event) : Z :=
  match t with
  | [] => peak
  | e :: rest =>
      let cur' := (cur + in_flight [e])%Z in
      peak_from cur' (Z.max peak cur') rest
  end.

Definition peak_in_flight (t : list Event) : Z := peak_from 0 0 t.

(** No pod is dispatched in [t]. *)
Definition no_dispatch (t : list Event) : Prop :=
  forall id pod, ~ In (Dispatch id pod) t.

(** The number of pods that still have to complete. *)
Definition remaining (st : Cycle) : nat :=
  length (allPods st) + length (running st).

(** ** The invariant of a cycle *)
Section Invariant.

Variable Agent : Type.
Variable encodeURIComponent : string -> string.
Variable Date_getTime : string -> number.
Variable parseMemory : string -> string + number.
Variable parseCpu : string -> string + number.
Variable network : nat -> Request Agent -> string + Response.

(** The options of the cycle and the pods its pool starts with. *)
Variable o : Options Agent.
Variable pods : list PodInfo.

(** The usage fetch of request [id] for [pod] succeeds (on some log). *)
Definition fetch_succeeds (id : nat) (pod : PodInfo)
  (ms : list PrometheusMetric) : Prop :=
  exists l0 l1,
    usage_fetch encodeURIComponent Date_getTime parseMemory parseCpu network
      o id pod l0 = (l1, inr ms).

(** The usage fetch of request [id] for [pod] fails with [e] (on some
    log). *)
Definition fetch_fails (id : nat) (pod : PodInfo) (e : exn) : Prop :=
  exists l0 l1,
    usage_fetch encodeURIComponent Date_getTime parseMemory parseCpu network
      o id pod l0 = (l1, inl e).

(** What holds of the state whenever the event loop is given control and
    also in the middle of a scheduling step. *)
Record Sound (st : Cycle) : Prop := mkSound
  { (* the pods not yet popped, then the dispatched ones, last first *)
    inv_pods :
      pods = allPods st ++ rev (map snd (dispatches (trace st)));
    (* requests are numbered in the order of their dispatch *)
    inv_ids : map fst (dispatches (trace st)) = seq 0 (started st);
    inv_running :
      forall id pod,
        In (id, pod) (running st) -> In (id, pod) (dispatches (trace st));
    inv_dispatched :
      forall id pod,
        In (id, pod) (dispatches (trace st)) ->
        In (id, pod) (running st)
        \/ In (Fulfil id) (trace st)
        \/ exists e, In (Reject id e) (trace st);
    inv_fulfil :
      forall id,
        In (Fulfil id) (trace st) ->
        exists pod ms,
          In (id, pod) (dispatches (trace st)) /\ fetch_succeeds id pod ms;
    inv_metrics :
      forall m,
        In m (metrics st) ->
        exists id pod ms,
          In (id, pod) (dispatches (trace st))
          /\ fetch_succeeds id pod ms /\ In m ms;
    inv_reject :
      forall id e,
        In (Reject id e) (trace st) -> exists e', settled st = Some (inl e');
    inv_success :
      forall ms,
        settled st = Some (inr ms) ->
        allPods st = [] /\ running st = [] /\ ms = metrics st;
    inv_done : pool_done st = true -> allPods st = [];
    inv_bound : (Z.of_nat (length (running st)) <= concurrency o)%Z;
    inv_in_flight :
      in_flight (trace st) = Z.of_nat (length (running st));
    inv_prefix :
      forall pre post,
        trace st = pre ++ post -> (in_flight pre <= concurrency o)%Z;
    inv_quiet :
      forall pre id e post,
        trace st = pre ++ Reject id e :: post -> no_dispatch post;
    inv_rejected :
      forall id e,
        In (Reject id e) (trace st) ->
        exists pod,
          In (id, pod) (dispatches (trace st)) /\ fetch_fails id pod e;
    inv_error :
      forall e,
        settled st = Some (inl e) -> exists id, In (Reject id e) (trace st) }.

(** What holds in addition whenever the event loop is given control: a
    pool whose promise is pending has a fetch in flight. *)
Definition Stable (st : Cycle) : Prop :=
  Sound st /\ (settled st = None -> running st <> []).

(** The states in which the event loop is given control during the cycle
    that starts on the log [l]: after the pool has scheduled for the first
    time, and after each completion of a fetch in flight. *)
Inductive reachable (l : Log) : Cycle -> Prop :=
| reach_start :
    reachable l (pool_proceed (concurrency o) (init_cycle pods l))
| reach_complete st i :
    reachable l st ->
    i < length (running st) ->
    reachable l
      (complete encodeURIComponent Date_getTime parseMemory parseCpu network
         o i st).

(** "Each time a fetch completes, the next pending pod (if any) is
    dispatched", read without the failure policy: whenever a fetch in
    flight completes in a state of the cycle and a pod is still pending,
    that pod is dispatched. *)
Definition dispatches_on_every_completion (l : Log) : Prop :=
  forall st i id pod rest next,
    reachable l st ->
    nth_error (running st) i = Some (id, pod) ->
    allPods st = rest ++ [next] ->
    In (Dispatch (started st) next)
      (trace
         (complete encodeURIComponent Date_getTime parseMemory parseCpu
            network o i st)).

End Invariant.

(** A computation whose outcome does not depend on the log it runs on and
    that only appends to that log. *)
Definition log_blind {A : Type} (c : M A) : Prop :=
  forall l, exists ws, c l = (l ++ ws, snd (c [])).

(** ** A small cluster

    Concrete collaborators on which the definitions can be run: a few
    namespaces, pods with one declared container, and a metrics endpoint
    that answers by pod name. *)
Module Fixture.

Definition Agent : Type := unit.

(** The names below consist of unreserved characters, which
    [encodeURIComponent] leaves as they are. *)
Definition encodeURIComponent (s : string) : string := s.

Definition Date_getTime (date : string) : number :=
  if date =? "2020-01-01T00:00:00.000Z" then 1577836800000%float
  else nan.

Definition app_resources : Resources :=
  {| limits := Some {| memory := Some "256Mi"; cpu := Some "1" |};
     requests := Some {| memory := Some "64Mi"; cpu := None |} |}.

Definition pod (ns nm phase : string) : PodInfo :=
  {| metadata_name := nm;
     metadata_namespace := ns;
     spec_containers := [ {| sc_name := "app";
                             resources := Some app_resources |} ];
     status_phase := phase |}.

Definition listPods (opts : ListPodsOptions Agent)
  : string + list PodInfo :=
  if lp_namespace opts =? "prod"
  then inr [ pod "prod" "web" "Running";
             pod "prod" "job" "Succeeded";
             pod "prod" "api" "Running";
             pod "prod" "crashed" "Failed";
             pod "prod" "db" "Running" ]
  else if lp_namespace opts =? "dev"
  then inr [ pod "dev" "web" "Running";
             pod "dev" "api" "Pending";
             pod "dev" "cache" "Running" ]
  else if lp_namespace opts =? "staging"
  then inr [ pod "staging" "worker" "Running";
             pod "staging" "api" "Running";
             pod "staging" "web" "Running" ]
  else if lp_namespace opts =? "fleet"
  then inr (repeat (pod "fleet" "web" "Running") 10)
  else if lp_namespace opts =? "batch"
  then inr [ pod "batch" "job" "Succeeded" ]
  else inl "namespaces not found".

Definition app_usage (mem : string) (cpu : string) : ContainerMetrics :=
  {| cm_name := "app"; usage_memory := mem; usage_cpu := cpu |}.

Definition sidecar_usage : ContainerMetrics :=
  {| cm_name := "sidecar"; usage_memory := "16Mi"; usage_cpu := "10m" |}.

Definition pod_metrics (cs : list ContainerMetrics) : Body :=
  BodyObject {| kind := "PodMetrics";
                containers := cs;
                timestamp := "2020-01-01T00:00:00.000Z" |}.

Definition ends_with (suffix s : string) : bool :=
  (String.length suffix <=? String.length s)%nat
  && (substring (String.length s - String.length suffix)
        (String.length suffix) s =? suffix).

(** The endpoint: [db] is unavailable, [api] uses twice its memory limit,
    [cache] answers with a status object, [web] and [worker] are within
    their limits. *)
Definition network (id : nat) (req : Request Agent) : string + Response :=
  let answer s b := inr {| status := s; url := req_url req; json := b |} in
  if ends_with "/pods/db" (req_url req)
  then answer 503%Z (inl "invalid json response body")
  else if ends_with "/pods/api" (req_url req)
  then answer 200%Z
         (inr (pod_metrics [app_usage "512Mi" "250m"; sidecar_usage]))
  else if ends_with "/pods/web" (req_url req)
          || ends_with "/pods/worker" (req_url req)
  then answer 200%Z (inr (pod_metrics [app_usage "128Mi" "250m"]))
  else if ends_with "/pods/cache" (req_url req)
  then answer 200%Z
         (inr (BodyObject {| kind := "Status";
                             containers := [];
                             timestamp := "" |}))
  else inl "connect ECONNREFUSED".

Definition options (ns : string) (c : Z) : Options Agent :=
  {| namespace := Some [ns];
     concurrency := c;
     osApi := "https://openshift.example";
     accessToken := "secret";
     agent := None |}.

(** The fetch in flight that was dispatched first completes first. *)
Definition fifo : Schedule := {| race := 0; completion := fun _ => 0 |}.

Definition usage (o : Options Agent) (id : nat) (p : PodInfo) (l : Log)
  : Log * (exn + list PrometheusMetric) :=
  usage_fetch encodeURIComponent Date_getTime
    QuantityParsers.parseMemory QuantityParsers.parseCpu network o id p l.

Definition run (o : Options Agent) (sched : Schedule) (l : Log)
  : exn + Cycle :=
  cycle encodeURIComponent Date_getTime
    QuantityParsers.parseMemory QuantityParsers.parseCpu network listPods
    o sched l.

Definition collect (o : Options Agent) (sched : Schedule) (l : Log)
  : option (exn + list PrometheusMetric) :=
  collectMetrics encodeURIComponent Date_getTime
    QuantityParsers.parseMemory QuantityParsers.parseCpu network listPods
    o sched l.

Definition options_for (ns nm : string) : FetchMetricOptions Agent :=
  fetch_options (options ns 2) (pod ns nm "Running").

Definition fetch_pod (o : FetchMetricOptions Agent)
  : M (list PrometheusMetric) :=
  fetchPodMemoryAndCpuUsage encodeURIComponent Date_getTime
    QuantityParsers.parseMemory QuantityParsers.parseCpu (network 0) o.

(** The three running pods of [prod], as [collectMetrics] keeps them. *)
Definition prod_pods : list PodInfo :=
  [ pod "prod" "web" "Running";
    pod "prod" "api" "Running";
    pod "prod" "db" "Running" ].

(** A server that leaves [concurrency] out. *)
Definition server_options : ServerOptions Agent :=
  {| so_concurrency := None;
     so_osApi := "https://openshift.example";
     so_accessToken := "secret";
     so_agent := None;
     so_defaultNamespace := Some ["staging"] |}.

(** A stand-in for serialize: one line per record, its name. *)
Definition serialize (ms : list PrometheusMetric) : string :=
  String.concat (String "010" "") (map name ms).

End Fixture.


(** ** Completion order *)

(** The requests that were fulfilled, in the order in which they were. *)
Fixpoint fulfilled (t : list Event) : list nat :=
  match t with
  | [] => []
  | Fulfil id :: rest => id :: fulfilled rest
  | _ :: rest => fulfilled rest
  end.

(** No fetch is rejected in [t]. *)
Definition no_reject (t : list Event) : Prop :=
  forall id e, ~ In (Reject id e) t.

Section Completeness.

Variable Agent : Type.
Variable encodeURIComponent : string -> string.
Variable Date_getTime : string -> number.
Variable parseMemory : string -> string + number.
Variable parseCpu : string -> string + number.
Variable network : nat -> Request Agent -> string + Response.
Variable o : Options Agent.
Variable pods : list PodInfo.

(** The records of request [id], which is for the [id]-th pod from the end
    of [pods]; none if that fetch fails. *)
Definition records_of (id : nat) : list PrometheusMetric :=
  match nth_error (rev pods) id with
  | None => []
  | Some pod =>
      match snd (usage_fetch encodeURIComponent Date_getTime parseMemory
                   parseCpu network o id pod []) with
      | inl _ => []
      | inr ms => ms
      end
  end.

(** More of what holds whenever the event loop is given control: the calls
    in flight are distinct and were started, a request is fulfilled at most
    once and not while it is in flight, the variable [metrics] holds the
    records of the fulfilled requests in the order of their completion, and
    a cycle that has failed holds the error of the first rejection. *)
Record Tidy (st : Cycle) : Prop := mkTidy
  { tidy_running : NoDup (map fst (running st));
    tidy_started :
      forall id, In id (map fst (running st)) -> id < started st;
    tidy_fulfilled : NoDup (fulfilled (trace st));
    tidy_fulfilled_started :
      forall id, In id (fulfilled (trace st)) -> id < started st;
    tidy_disjoint :
      forall id,
        In id (map fst (running st)) -> ~ In id (fulfilled (trace st));
    tidy_metrics :
      metrics st = concat (map records_of (fulfilled (trace st)));
    tidy_first :
      forall e,
        settled st = Some (inl e) ->
        exists pre id post,
          trace st = pre ++ Reject id e :: post /\ no_reject pre }.

End Completeness.

(** The options [collectMetrics] lists the pods of namespace [ns] with
    (collect.js:292-297). *)
Definition listing_options (Agent : Type) (o : Options Agent) (ns : string)
  : ListPodsOptions Agent :=
  {| lp_osApi := osApi o;
     lp_namespace := ns;
     lp_accessToken := accessToken o;
     lp_agent := agent o |}.

(** The quantities the callback of [containers.forEach] parses for the
    container [c], each with its parser, in the order of collect.js:117-252:
    the two usages, then the declared quantities of the four blocks. *)
Definition container_quantities
  (parseMemory parseCpu : string -> string + number)
  (pod : PodInfo) (c : ContainerMetrics)
  : list ((string -> string + number) * string) :=
  (parseMemory, usage_memory c)
  :: (parseCpu, usage_cpu c)
  :: flat_map
       (fun k =>
          match declared (rate_resources k) (rate_property k)
                  (spec_container pod c) with
          | Some q => [(rate_parser parseMemory parseCpu k, q)]
          | None => []
          end)
       [MemoryLimits; MemoryRequests; CpuLimits; CpuRequests].



(** The message of the first quantity that its parser refuses. *)
Fixpoint first_parse_error
  (qs : list ((string -> string + number) * string)) : option string :=
  match qs with
  | [] => None
  | (parse, q) :: rest =>
      match parse q with
      | inl m => Some m
      | inr _ => first_parse_error rest
      end
  end.

(** [w] is a warning of collect.js:155, 188, 222 or 255 for a container of
    [pod]: a rate above 1 of a declared quantity. *)
Definition oversize_warning
  (parseMemory parseCpu : string -> string + number)
  (pod : PodInfo) (w : Warning) : Prop :=
  exists k c q spec usage,
    declares k pod c q
    /\ rate_parser parseMemory parseCpu k q = inr spec
    /\ (1 <? usage / spec)%float = true
    /\ w = rate_warning (rate_name k) pod c q spec usage
             (usage / spec)%float.

(** The computation keeps the entries of the log and appends only
    warnings that satisfy [P], whether it returns or throws. *)
Definition logs_only (P : Warning -> Prop) (A : Type) (c : M A) : Prop :=
  forall l, exists ws, fst (c l) = l ++ ws /\ Forall P ws.

(** The computation does the same on every log: it appends what it
    appends to the empty log, and returns or throws what it does there. *)
Definition log_uniform (A : Type) (c : M A) : Prop :=
  forall l, c l = (l ++ fst (c []), snd (c [])).

(** The requests that have completed, fulfilled or rejected, in the order
    in which they did. *)
Fixpoint completed (t : list Event) : list nat :=
  match t with
  | [] => []
  | Dispatch _ _ :: rest => completed rest
  | Fulfil id :: rest => id :: completed rest
  | Reject id _ :: rest => id :: completed rest
  end.

(** What the usage fetch of request [id] logs; the request is for the
    [id]-th pod from the end of [pods]. *)
Definition warnings_of (Agent : Type)
  (encodeURIComponent : string -> string) (Date_getTime : string -> number)
  (parseMemory parseCpu : string -> string + number)
  (network : nat -> Request Agent -> string + Response)
  (o : Options Agent) (pods : list PodInfo) (id : nat) : Log :=
  match nth_error (rev pods) id with
  | None => []
  | Some pod =>
      fst (usage_fetch encodeURIComponent Date_getTime parseMemory parseCpu
             network o id pod [])
  end.

(** [Array.isArray(req.query.namespace) ? req.query.namespace :
    [req.query.namespace]] (server.js:66-68). *)
Definition namespace_array (n : NamespaceParam) : list string :=
  match n with
  | One ns => [ns]
  | Many nss => nss
  end.

(** A metrics endpoint whose answer holds a quantity that is no quantity:
    the CPU usage of the second container. *)
Module Garbled.

Definition fetch (req : Request Fixture.Agent) : string + Response :=
  inr {| status := 200%Z;
         url := req_url req;
         json := inr (Fixture.pod_metrics
                        [ Fixture.app_usage "512Mi" "250m";
                          {| cm_name := "sidecar";
                             usage_memory := "16Mi";
                             usage_cpu := "fast" |} ]) |}.

Definition fetch_pod (o : FetchMetricOptions Fixture.Agent)
  : M (list PrometheusMetric) :=
  fetchPodMemoryAndCpuUsage Fixture.encodeURIComponent Fixture.Date_getTime
    QuantityParsers.parseMemory QuantityParsers.parseCpu fetch o.

(** The containers of the answer of [fetch]. *)
Definition app : ContainerMetrics := Fixture.app_usage "512Mi" "250m".


(** An endpoint that answers with an object of kind PodMetrics that has a
    [timestamp] and no [containers]. *)
Definition bare (req : Request Fixture.Agent) : string + Response :=
  inr {| status := 200%Z;
         url := req_url req;
         json := inr (BodyMalformed
                        {| mf_kind := "PodMetrics";
                           mf_containers := None;
                           mf_timestamp := "2020-01-01T00:00:00.000Z" |}) |}.

(** An endpoint whose second container has no [usage]. *)
Definition no_usage (req : Request Fixture.Agent) : string + Response :=
  inr {| status := 200%Z;
         url := req_url req;
         json := inr (BodyMalformed
                        {| mf_kind := "PodMetrics";
                           mf_containers := Some [app];
                           mf_timestamp := "2020-01-01T00:00:00.000Z" |}) |}.

End Garbled.
(** ** Properties *)

Unset Implicit Arguments.

(** *** The monad *)

Lemma bind_inr (A B : Type) (c : M A) (k : A -> M B) l l' b :
  bind c k l = (l', inr b) ->
  exists a l1, c l = (l1, inr a) /\ k a l1 = (l', inr b).
Proof.
  unfold bind. destruct (c l) as [l1 [e | a]]; intros H.
  - discriminate.
  - now exists a, l1.
Qed.

Lemma bind_inl (A B : Type) (c : M A) (k : A -> M B) l l' e :
  bind c k l = (l', inl e) ->
  c l = (l', inl e)
  \/ exists a l1, c l = (l1, inr a) /\ k a l1 = (l', inl e).
Proof.
  unfold bind. destruct (c l) as [l1 [e1 | a]]; intros H.
  - left. congruence.
  - right. now exists a, l1.
Qed.

Lemma call_inr (A : Type) wrap (r : string + A) l l' a :
  call wrap r l = (l', inr a) -> r = inr a /\ l' = l.
Proof.
  destruct r as [m | a0]; cbn; intros H; inversion H; auto.
Qed.

Lemma call_inl (A : Type) wrap (r : string + A) l l' e :
  call wrap r l = (l', inl e) -> exists m, r = inl m /\ e = wrap m /\ l' = l.
Proof.
  destruct r as [m | a0]; cbn; intros H; inversion H; eauto.
Qed.

Lemma Forall2_In_r (A B : Type) (R : A -> B -> Prop) xs ys y :
  Forall2 R xs ys -> In y ys -> exists x, In x xs /\ R x y.
Proof.
  induction 1 as [| x y' xs ys Hxy _ IH]; intros Hin.
  - destruct Hin.
  - destruct Hin as [<- | Hin].
    + exists x. split; [now left | assumption].
    + destruct (IH Hin) as (x' & Hx' & HR). exists x'. split; [now right | assumption].
Qed.

Lemma Forall2_In_l (A B : Type) (R : A -> B -> Prop) xs ys x :
  Forall2 R xs ys -> In x xs -> exists y, In y ys /\ R x y.
Proof.
  induction 1 as [| x' y xs ys Hxy _ IH]; intros Hin.
  - destruct Hin.
  - destruct Hin as [<- | Hin].
    + exists y. split; [now left | assumption].
    + destruct (IH Hin) as (y' & Hy' & HR). exists y'. split; [now right | assumption].
Qed.

(** *** The callback of [forEach] *)

Lemma declared_declares k pod c q :
  declared (rate_resources k) (rate_property k) (spec_container pod c)
  = Some q
  <-> declares k pod c q.
Proof.
  unfold declared, declares. split.
  - destruct (spec_container pod c) as [sc |]; [| discriminate].
    destruct (resources sc) as [rs |] eqn:Hrs; [| discriminate].
    destruct (rate_resources k rs) as [rl |] eqn:Hrl; [| discriminate].
    destruct (rate_property k rl) as [s |] eqn:Hs; [| discriminate].
    destruct s as [| a s]; cbn; [discriminate |].
    intros H. inversion H; subst. exists sc, rs, rl.
    repeat split; auto. discriminate.
  - intros (sc & rs & rl & -> & -> & -> & -> & Hq).
    destruct q; [contradiction | reflexivity].
Qed.

Lemma rate_block_inr pod c ts metric help parse quantity usage acc l l' ms :
  rate_block pod c ts metric help parse quantity usage acc l = (l', inr ms) ->
  exists rs ws,
    ms = acc ++ rs /\ l' = l ++ ws
    /\ block_adds pod c ts metric help parse quantity usage rs ws.
Proof.
  unfold rate_block, block_adds. destruct quantity as [q |].
  - intros H. apply bind_inr in H. destruct H as (spec & l1 & Hp & H).
    apply call_inr in Hp. destruct Hp as [Hp ->].
    apply bind_inr in H. destruct H as ([] & l2 & Hw & H).
    cbv [ret push] in H. inversion H; subst; clear H.
    exists [gauge pod c metric help (usage / spec)%float ts],
      (if (1 <? usage / spec)%float
       then [rate_warning metric pod c q spec usage (usage / spec)%float]
       else []).
    split; [reflexivity |]. split; [| now exists spec].
    destruct (1 <? usage / spec)%float; cbv [warn ret] in Hw;
      inversion Hw; subst; now rewrite ?app_nil_r.
  - cbv [ret]. intros H. inversion H; subst.
    exists [], []. now rewrite !app_nil_r.
Qed.

Lemma rate_block_inl pod c ts metric help parse quantity usage acc l l' e :
  rate_block pod c ts metric help parse quantity usage acc l = (l', inl e) ->
  exists q m, quantity = Some q /\ parse q = inl m /\ e = ParseError m.
Proof.
  unfold rate_block. destruct quantity as [q |].
  - intros H. apply bind_inl in H. destruct H as [H | (spec & l1 & Hp & H)].
    + apply call_inl in H. destruct H as (m & Hm & -> & ->). eauto 10.
    + apply bind_inl in H. destruct H as [H | (u & l2 & _ & H)].
      * destruct (1 <? usage / spec)%float; cbv [warn ret] in H; discriminate.
      * cbv [ret] in H. discriminate.
  - cbv [ret]. discriminate.
Qed.

Lemma block_adds_cases pod c ts metric help parse quantity usage rs ws :
  block_adds pod c ts metric help parse quantity usage rs ws ->
  (quantity = None /\ rs = [] /\ ws = [])
  \/ (exists q spec,
        quantity = Some q /\ parse q = inr spec
        /\ rs = [gauge pod c metric help (usage / spec)%float ts]
        /\ ws = if (1 <? usage / spec)%float
                then [rate_warning metric pod c q spec usage
                        (usage / spec)%float]
                else []).
Proof.
  unfold block_adds. destruct quantity as [q |].
  - intros (spec & Hp & Hr & Hw). right. now exists q, spec.
  - intros [Hr Hw]. now left.
Qed.



Section FetcherFacts.

Variable Agent : Type.
Variable encodeURIComponent : string -> string.
Variable Date_getTime : string -> number.
Variable parseMemory : string -> string + number.
Variable parseCpu : string -> string + number.
Variable fetch : Request Agent -> string + Response.

Lemma forEach_container_inr pod ts c acc l l' ms :
  forEach_container parseMemory parseCpu pod ts c acc l = (l', inr ms) ->
  exists chunk ws,
    ms = acc ++ chunk /\ l' = l ++ ws
    /\ container_adds parseMemory parseCpu pod ts c chunk ws.
Proof.
  unfold forEach_container. intros H.
  apply bind_inr in H. destruct H as (mu & l1 & Hmu & H).
  apply call_inr in Hmu. destruct Hmu as [Hmu ->].
  apply bind_inr in H. destruct H as (cu & l2 & Hcu & H).
  apply call_inr in Hcu. destruct Hcu as [Hcu ->].
  cbv zeta in H.
  apply bind_inr in H. destruct H as (m1 & l3 & H1 & H).
  apply bind_inr in H. destruct H as (m2 & l4 & H2 & H).
  apply bind_inr in H. destruct H as (m3 & l5 & H3 & H4).
  apply rate_block_inr in H1. destruct H1 as (r1 & w1 & -> & -> & B1).
  apply rate_block_inr in H2. destruct H2 as (r2 & w2 & -> & -> & B2).
  apply rate_block_inr in H3. destruct H3 as (r3 & w3 & -> & -> & B3).
  apply rate_block_inr in H4. destruct H4 as (r4 & w4 & -> & -> & B4).
  eexists _, (w1 ++ w2 ++ w3 ++ w4). split; [| split].
  - unfold push. rewrite <- !app_assoc. reflexivity.
  - now rewrite <- !app_assoc.
  - exists mu, cu,
      (fun k => match k with
                | MemoryLimits => r1 | MemoryRequests => r2
                | CpuLimits => r3 | CpuRequests => r4 end),
      (fun k => match k with
                | MemoryLimits => w1 | MemoryRequests => w2
                | CpuLimits => w3 | CpuRequests => w4 end).
    repeat split; auto. intros []; assumption.
Qed.

Lemma forEach_container_inl pod ts c acc l l' e :
  forEach_container parseMemory parseCpu pod ts c acc l = (l', inl e) ->
  exists q m,
    (parseMemory q = inl m \/ parseCpu q = inl m) /\ e = ParseError m.
Proof.
  unfold forEach_container. intros H.
  apply bind_inl in H. destruct H as [H | (mu & l1 & _ & H)].
  { apply call_inl in H. destruct H as (m & Hm & -> & _). eauto 10. }
  apply bind_inl in H. destruct H as [H | (cu & l2 & _ & H)].
  { apply call_inl in H. destruct H as (m & Hm & -> & _). eauto 10. }
  cbv zeta in H.
  apply bind_inl in H. destruct H as [H | (m1 & l3 & _ & H)].
  { apply rate_block_inl in H. destruct H as (q & m & _ & Hm & ->). eauto 10. }
  apply bind_inl in H. destruct H as [H | (m2 & l4 & _ & H)].
  { apply rate_block_inl in H. destruct H as (q & m & _ & Hm & ->). eauto 10. }
  apply bind_inl in H. destruct H as [H | (m3 & l5 & _ & H)].
  { apply rate_block_inl in H. destruct H as (q & m & _ & Hm & ->). eauto 10. }
  apply rate_block_inl in H. destruct H as (q & m & _ & Hm & ->). eauto 10.
Qed.

Lemma forEach_containers_inr pod ts cs acc l l' ms :
  forEach (forEach_container parseMemory parseCpu pod ts) cs acc l
  = (l', inr ms) ->
  exists adds : list (list PrometheusMetric * Log),
    ms = acc ++ concat (map fst adds)
    /\ l' = l ++ concat (map snd adds)
    /\ Forall2 (fun c a =>
                  container_adds parseMemory parseCpu pod ts c (fst a) (snd a))
         cs adds.
Proof.
  revert acc l. induction cs as [| c cs IH]; intros acc l H; cbn in H.
  - cbv [ret] in H. inversion H; subst. exists [].
    cbn. rewrite !app_nil_r. auto.
  - apply bind_inr in H. destruct H as (acc1 & l1 & Hc & H).
    apply forEach_container_inr in Hc.
    destruct Hc as (chunk & ws & -> & -> & Hadds).
    apply IH in H. destruct H as (adds & -> & -> & Hall).
    exists ((chunk, ws) :: adds). cbn. rewrite <- !app_assoc.
    repeat split; auto.
Qed.

Lemma forEach_containers_inl pod ts cs acc l l' e :
  forEach (forEach_container parseMemory parseCpu pod ts) cs acc l
  = (l', inl e) ->
  exists q m,
    (parseMemory q = inl m \/ parseCpu q = inl m) /\ e = ParseError m.
Proof.
  revert acc l. induction cs as [| c cs IH]; intros acc l H; cbn in H.
  - cbv [ret] in H. discriminate.
  - apply bind_inl in H. destruct H as [H | (acc1 & l1 & _ & H)].
    + eapply forEach_container_inl; eauto.
    + eapply IH; eauto.
Qed.

(** The fetch, case by case. *)
Lemma fetch_rejected o l m :
  fetch (usage_request encodeURIComponent o) = inl m ->
  fetchPodMemoryAndCpuUsage encodeURIComponent Date_getTime parseMemory
    parseCpu fetch o l = (l, inl (FetchError m)).
Proof.
  intros H. unfold fetchPodMemoryAndCpuUsage, bind. now rewrite H.
Qed.

Lemma fetch_bad_status o l response :
  fetch (usage_request encodeURIComponent o) = inr response ->
  bad_status (status response) = true ->
  fetchPodMemoryAndCpuUsage encodeURIComponent Date_getTime parseMemory
    parseCpu fetch o l
  = (l, inl (StatusError (status response) (url response))).
Proof.
  intros H Hs. unfold fetchPodMemoryAndCpuUsage, bind. rewrite H. cbn.
  now rewrite Hs.
Qed.

Lemma fetch_good_status o l response :
  fetch (usage_request encodeURIComponent o) = inr response ->
  bad_status (status response) = false ->
  fetchPodMemoryAndCpuUsage encodeURIComponent Date_getTime parseMemory
    parseCpu fetch o l
  = (body <- call FetchError (json response) ;;
     process_body Date_getTime parseMemory parseCpu (fm_pod o) body) l.
Proof.
  intros H Hs. unfold fetchPodMemoryAndCpuUsage. unfold bind at 1.
  rewrite H. cbn. now rewrite Hs.
Qed.

Lemma process_body_inr pod body l l' ms :
  process_body Date_getTime parseMemory parseCpu pod body l = (l', inr ms) ->
  exists o,
    body = BodyObject o /\ kind o = "PodMetrics"
    /\ forEach (forEach_container parseMemory parseCpu pod
                  (dateToTimeStamp Date_getTime (timestamp o)))
         (containers o) [] l = (l', inr ms).
Proof.
  destruct body as [s | n | b | | | o | o]; cbn; try discriminate.
  - destruct (kind o =? "PodMetrics") eqn:Hk; cbn; [| discriminate].
    intros H. exists o. apply String.eqb_eq in Hk. auto.
  - destruct (mf_kind o =? "PodMetrics"); cbn; [| discriminate].
    destruct (mf_containers o) as [entries |]; [| discriminate].
    unfold bind.
    destruct (forEach _ entries [] l) as [l1 [e | acc]]; discriminate.
Qed.

Lemma fetch_inr o l l' ms :
  fetchPodMemoryAndCpuUsage encodeURIComponent Date_getTime parseMemory
    parseCpu fetch o l = (l', inr ms) ->
  exists response b,
    fetch (usage_request encodeURIComponent o) = inr response
    /\ bad_status (status response) = false
    /\ json response = inr (BodyObject b)
    /\ kind b = "PodMetrics"
    /\ forEach (forEach_container parseMemory parseCpu (fm_pod o)
                  (dateToTimeStamp Date_getTime (timestamp b)))
         (containers b) [] l = (l', inr ms).
Proof.
  intros H.
  destruct (fetch (usage_request encodeURIComponent o)) as [m | response]
    eqn:Hf.
  { rewrite (fetch_rejected _ _ _ Hf) in H. discriminate. }
  destruct (bad_status (status response)) eqn:Hs.
  { rewrite (fetch_bad_status _ _ _ Hf Hs) in H. discriminate. }
  rewrite (fetch_good_status _ _ _ Hf Hs) in H.
  apply bind_inr in H. destruct H as (body & l1 & Hj & H).
  apply call_inr in Hj. destruct Hj as [Hj ->].
  apply process_body_inr in H. destruct H as (b & -> & Hk & H).
  exists response, b. auto.
Qed.

(** Every way in which the fetch fails. *)
Lemma process_body_inl pod body l l' e :
  process_body Date_getTime parseMemory parseCpu pod body l = (l', inl e) ->
  e = TypeofError (typeof body)
  \/ e = ArrayError
  \/ e = NullError
  \/ (exists o, body = BodyObject o /\ e = KindError (kind o))
  \/ (exists q m,
        (parseMemory q = inl m \/ parseCpu q = inl m) /\ e = ParseError m)
  \/ (exists o, body = BodyMalformed o /\ e = KindError (mf_kind o))
  \/ (exists o m, body = BodyMalformed o /\ e = TypeError m).
Proof.
  destruct body as [s | n | b | | | o | o]; cbn; cbv [throw]; intros H;
    try (inversion H; subst; auto 10; fail).
  - destruct (kind o =? "PodMetrics"); cbn in H.
    + apply forEach_containers_inl in H. auto 10.
    + cbv [throw] in H. inversion H; subst. eauto 10.
  - destruct (mf_kind o =? "PodMetrics"); cbn in H.
    + destruct (mf_containers o) as [entries |].
      * apply bind_inl in H. destruct H as [H | (acc & l1 & _ & H)].
        -- apply forEach_containers_inl in H. auto 10.
        -- cbv [throw] in H. inversion H; subst. eauto 15.
      * cbv [throw] in H. inversion H; subst. eauto 15.
    + cbv [throw] in H. inversion H; subst. eauto 15.
Qed.

Lemma good_status_never_StatusError o l l' response s u :
  fetch (usage_request encodeURIComponent o) = inr response ->
  bad_status (status response) = false ->
  fetchPodMemoryAndCpuUsage encodeURIComponent Date_getTime parseMemory
    parseCpu fetch o l <> (l', inl (StatusError s u)).
Proof.
  intros Hf Hs H. rewrite (fetch_good_status _ _ _ Hf Hs) in H.
  apply bind_inl in H. destruct H as [H | (body & l1 & _ & H)].
  - apply call_inl in H. destruct H as (m & _ & H & _). discriminate.
  - apply process_body_inl in H.
    destruct H as [H | [H | [H | [(b & _ & H) | [(q & m & _ & H)
      | [(b & _ & H) | (b & m & _ & H)]]]]]];
      discriminate.
Qed.

Lemma bad_status_spec s :
  bad_status s = true <-> (s < 200 \/ 299 < s \/ s = 204)%Z.
Proof.
  unfold bad_status. rewrite !orb_true_iff, Z.ltb_lt, Z.gtb_ltb, Z.ltb_lt,
    Z.eqb_eq. tauto.
Qed.

(** C5: when the metrics endpoint answers, the fetch fails with the error
    that names the status code and the URL of the response if and only if
    the status is below 200, above 299 or exactly 204; the failure leaves
    the log as it was, and its message is the one of collect.js:81.  For
    any other status the fetch goes on to decode the body and to process
    it. *)
Theorem status_check_iff :
  forall o l response,
    fetch (usage_request encodeURIComponent o) = inr response ->
    let result :=
      fetchPodMemoryAndCpuUsage encodeURIComponent Date_getTime parseMemory
        parseCpu fetch o l in
    let s := status response in
    ((exists l' s' u, result = (l', inl (StatusError s' u)))
     <-> (s < 200 \/ 299 < s \/ s = 204)%Z)
    /\ ((s < 200 \/ 299 < s \/ s = 204)%Z ->
        result = (l, inl (StatusError s (url response)))
        /\ message (StatusError s (url response))
           = ("OS API returned status code " ++ number_to_string s
                ++ " for " ++ url response)%string)
    /\ ((200 <= s <= 299)%Z -> s <> 204%Z ->
        result
        = (body <- call FetchError (json response) ;;
           process_body Date_getTime parseMemory parseCpu (fm_pod o) body) l).
Proof.
  intros o l response Hf result s. subst result s.
  split; [| split].
  - split.
    + intros (l' & s' & u & H). apply bad_status_spec.
      destruct (bad_status (status response)) eqn:Hs; [reflexivity |].
      exfalso. eapply good_status_never_StatusError; eauto.
    + intros H. apply bad_status_spec in H.
      exists l, (status response), (url response).
      now apply fetch_bad_status.
  - intros H. apply bad_status_spec in H. split; [| reflexivity].
    now apply fetch_bad_status.
  - intros Hr Hn. apply fetch_good_status; [assumption |].
    destruct (bad_status (status response)) eqn:Hs; [| reflexivity].
    apply bad_status_spec in Hs. lia.
Qed.


(** C9: the records of one successful usage fetch all carry one timestamp,
    the [timestamp] of the response turned into milliseconds by [Date] and
    divided by 1000; the labels of each record are [pod], [container] and
    [namespace], in this order, holding the pod's name, the name of a
    container of the response and the pod's namespace; the type of each
    record is "gauge". *)
Theorem records_timestamp_labels_type :
  forall o l l' ms response b,
    fetch (usage_request encodeURIComponent o) = inr response ->
    json response = inr (BodyObject b) ->
    fetchPodMemoryAndCpuUsage encodeURIComponent Date_getTime parseMemory
      parseCpu fetch o l = (l', inr ms) ->
    Forall (fun m =>
              m_timestamp m = (Date_getTime (timestamp b) / 1000)%float
              /\ map fst (labels m) = ["pod"; "container"; "namespace"]
              /\ (exists c,
                    In c (containers b)
                    /\ labels m
                       = [ ("pod", metadata_name (fm_pod o));
                           ("container", cm_name c);
                           ("namespace", metadata_namespace (fm_pod o)) ])
              /\ type m = "gauge") ms.
Proof.
  intros o l l' ms response b Hf Hj H.
  apply fetch_inr in H.
  destruct H as (response' & b' & Hf' & _ & Hj' & _ & H).
  assert (response' = response) by congruence. subst response'.
  assert (b' = b) by congruence. subst b'.
  apply forEach_containers_inr in H. destruct H as (adds & -> & _ & Hall).
  cbn [app]. apply Forall_forall. intros m Hm.
  apply in_concat in Hm. destruct Hm as (chunk & Hchunk & Hm).
  apply in_map_iff in Hchunk. destruct Hchunk as (a & <- & Ha).
  destruct (Forall2_In_r _ _ _ _ _ _ Hall Ha) as (c & Hc & Hadd).
  assert (Hshape : m_timestamp m = dateToTimeStamp Date_getTime (timestamp b)
                   /\ labels m = pod_labels (fm_pod o) c
                   /\ type m = "gauge").
  { destruct Hadd as (mu & cu & r & w & _ & _ & Hch & _ & Hblocks).
    rewrite Hch in Hm. clear Hch.
    assert (Hk : forall k, In m (r k) ->
                 m_timestamp m = dateToTimeStamp Date_getTime (timestamp b)
                 /\ labels m = pod_labels (fm_pod o) c /\ type m = "gauge").
    { intros k Hin. specialize (Hblocks k). unfold block_adds in Hblocks.
      destruct (declared _ _ _).
      - destruct Hblocks as (spec & _ & Hr & _). rewrite Hr in Hin.
        destruct Hin as [<- | []]. auto.
      - destruct Hblocks as [Hr _]. rewrite Hr in Hin. destruct Hin. }
    cbn [app] in Hm. destruct Hm as [<- | [<- | Hm]]; auto.
    repeat (apply in_app_or in Hm; destruct Hm as [Hm | Hm]); eauto. }
  destruct Hshape as (Hts & Hl & Hty). rewrite Hts, Hl.
  repeat split; auto. exists c. auto.
Qed.



Lemma in_block_warning pod c ts metric help parse quantity usage rs ws w :
  block_adds pod c ts metric help parse quantity usage rs ws ->
  In w ws ->
  exists q spec,
    quantity = Some q /\ parse q = inr spec
    /\ (1 <? usage / spec)%float = true
    /\ w = rate_warning metric pod c q spec usage (usage / spec)%float.
Proof.
  intros Hb Hw. apply block_adds_cases in Hb.
  destruct Hb as [(_ & _ & ->) | (q & spec & Hq & Hp & _ & ->)].
  - destruct Hw.
  - destruct (1 <? usage / spec)%float eqn:Hlt.
    + destruct Hw as [<- | []]. exists q, spec. auto.
    + destruct Hw.
Qed.

Lemma in_container_warning pod ts c chunk ws w :
  container_adds parseMemory parseCpu pod ts c chunk ws ->
  In w ws ->
  exists k q spec mu cu,
    (1 <? rate_usage k mu cu / spec)%float = true
    /\ w = rate_warning (rate_name k) pod c q spec (rate_usage k mu cu)
             (rate_usage k mu cu / spec)%float.
Proof.
  intros (mu & cu & r & w' & _ & _ & _ & -> & Hb) Hw.
  assert (Hk : exists k, In w (w' k)).
  { rewrite !in_app_iff in Hw. destruct Hw as [H | [H | [H | H]]]; eauto. }
  destruct Hk as (k & Hk).
  destruct (in_block_warning _ _ _ _ _ _ _ _ _ _ _ (Hb k) Hk)
    as (q & spec & _ & _ & Hlt & ->).
  exists k, q, spec, mu, cu. auto.
Qed.

(** C3: in a successful usage fetch, for a container of the response and a
    kind of rate whose quantity [q] the matching spec container declares,
    the parser accepts [q], the rate record of that kind is among the
    records, it carries the name of the kind and the labels of the
    container, and its value is the parsed usage divided by the parsed
    quantity; the warning for that rate is logged if and only if the rate
    is greater than 1, and the record is there either way.  Whatever the
    usage, and so whatever the rate, a block whose quantity the parser
    accepts returns with its record and does not throw.  A fetch that
    fails never fails because of a rate: its error comes from the network,
    the status check, the shape of the body (a body that is no object of
    kind "PodMetrics", or one that lacks [containers] or a [usage]) or a
    parser. *)
Theorem rate_value_and_warning :
  (forall o l l' ms response b c k q,
      fetch (usage_request encodeURIComponent o) = inr response ->
      json response = inr (BodyObject b) ->
      fetchPodMemoryAndCpuUsage encodeURIComponent Date_getTime parseMemory
        parseCpu fetch o l = (l', inr ms) ->
      In c (containers b) ->
      declares k (fm_pod o) c q ->
      exists memoryUsage cpuUsage spec ws,
        parseMemory (usage_memory c) = inr memoryUsage
        /\ parseCpu (usage_cpu c) = inr cpuUsage
        /\ rate_parser parseMemory parseCpu k q = inr spec
        /\ l' = l ++ ws
        /\ let usage := rate_usage k memoryUsage cpuUsage in
           let rate := (usage / spec)%float in
           In (gauge (fm_pod o) c (rate_name k) (rate_help k) rate
                 (dateToTimeStamp Date_getTime (timestamp b))) ms
           /\ (exists m,
                 In m ms
                 /\ name m = rate_name k
                 /\ labels m
                    = [ ("pod", metadata_name (fm_pod o));
                        ("container", cm_name c);
                        ("namespace", metadata_namespace (fm_pod o)) ]
                 /\ value m = rate)
           /\ (In (rate_warning (rate_name k) (fm_pod o) c q spec usage rate)
                 ws
               <-> (1 <? rate)%float = true))
  /\ (forall pod c ts k q spec usage acc l,
        rate_parser parseMemory parseCpu k q = inr spec ->
        exists l' m,
          rate_block pod c ts (rate_name k) (rate_help k)
            (rate_parser parseMemory parseCpu k) (Some q) usage acc l
          = (l', inr (acc ++ [m]))
          /\ name m = rate_name k
          /\ value m = (usage / spec)%float)
  /\ (forall o l l' e,
        fetchPodMemoryAndCpuUsage encodeURIComponent Date_getTime parseMemory
          parseCpu fetch o l = (l', inl e) ->
        (exists m, e = FetchError m)
        \/ (exists s u, e = StatusError s u /\ bad_status s = true)
        \/ (exists t, e = TypeofError t)
        \/ e = ArrayError
        \/ e = NullError
        \/ (exists k, e = KindError k)
        \/ (exists m, e = TypeError m)
        \/ (exists input m,
              (parseMemory input = inl m \/ parseCpu input = inl m)
              /\ e = ParseError m)).
Proof.
  split; [| split].
  - intros o l l' ms response b c k q Hf Hj H Hc Hq.
    apply fetch_inr in H.
    destruct H as (response' & b' & Hf' & _ & Hj' & _ & H).
    assert (response' = response) by congruence. subst response'.
    assert (b' = b) by congruence. subst b'.
    apply forEach_containers_inr in H. destruct H as (adds & -> & -> & Hall).
    destruct (Forall2_In_l _ _ _ _ _ _ Hall Hc) as (a & Ha & Hadd).
    pose proof Hadd as (mu & cu & r & w & Hmu & Hcu & Hchunk & Hws & Hb).
    apply declared_declares in Hq.
    pose proof (Hb k) as Hbk. apply block_adds_cases in Hbk.
    destruct Hbk as [(Hnone & _) | (q' & spec & Hq' & Hp & Hr & Hw)];
      [congruence |].
    assert (q' = q) by congruence. subst q'.
    assert (Hrecord :
              In (gauge (fm_pod o) c (rate_name k) (rate_help k)
                    (rate_usage k mu cu / spec)%float
                    (dateToTimeStamp Date_getTime (timestamp b)))
                ([] ++ concat (map fst adds))).
    { cbn [app]. apply in_concat. exists (fst a). split.
      * now apply in_map.
      * rewrite Hchunk. cbn [app]. right. right.
        rewrite !in_app_iff. destruct k; rewrite Hr; cbn; auto. }
    exists mu, cu, spec, (concat (map snd adds)).
    split; [assumption |]. split; [assumption |]. split; [assumption |].
    split; [reflexivity |]. cbv zeta.
    split; [exact Hrecord |]. split; [| split].
    + eexists. split; [exact Hrecord |]. repeat split.
    + intros Hin. apply in_concat in Hin. destruct Hin as (ws & Hws' & Hin).
      apply in_map_iff in Hws'. destruct Hws' as (a' & <- & Ha').
      destruct (Forall2_In_r _ _ _ _ _ _ Hall Ha') as (c' & _ & Hadd').
      destruct (in_container_warning _ _ _ _ _ _ Hadd' Hin)
        as (k' & q' & spec' & mu' & cu' & Hlt & Heq).
      unfold rate_warning in Heq. injection Heq as _ _ _ _ _ Hrate.
      now rewrite Hrate.
    + intros Hlt. apply in_concat. exists (snd a). split.
      * now apply in_map.
      * rewrite Hws, !in_app_iff. rewrite Hlt in Hw.
        destruct k; rewrite Hw; cbn; auto.
  - intros pod c ts k q spec usage acc l Hp.
    unfold rate_block, bind, call. rewrite Hp. cbn [ret].
    destruct (1 <? usage / spec)%float; cbv [warn ret push];
      eexists _, _; (split; [reflexivity |]); split; reflexivity.
  - intros o l l' e H.
    destruct (fetch (usage_request encodeURIComponent o)) as [m | response]
      eqn:Hf.
    { rewrite (fetch_rejected _ _ _ Hf) in H. inversion H; eauto. }
    destruct (bad_status (status response)) eqn:Hs.
    { rewrite (fetch_bad_status _ _ _ Hf Hs) in H. inversion H; subst.
      right. left. eauto. }
    rewrite (fetch_good_status _ _ _ Hf Hs) in H.
    apply bind_inl in H. destruct H as [H | (body & l1 & _ & H)].
    { apply call_inl in H. destruct H as (m & _ & -> & _). eauto. }
    destruct body as [s | n | b0 | | | b0 | b0]; cbn in H; cbv [throw] in H;
      try (inversion H; subst; eauto 10; fail).
    + destruct (kind b0 =? "PodMetrics") eqn:Hk; cbn in H.
      * apply forEach_containers_inl in H. auto 10.
      * cbv [throw] in H. inversion H; subst. do 5 right. left. eauto.
    + destruct (mf_kind b0 =? "PodMetrics") eqn:Hk; cbn in H.
      * destruct (mf_containers b0) as [entries |].
        -- apply bind_inl in H. destruct H as [H | (acc & l2 & _ & H)].
           ++ apply forEach_containers_inl in H. auto 10.
           ++ cbv [throw] in H. inversion H; subst. do 6 right. left. eauto.
        -- cbv [throw] in H. inversion H; subst. do 6 right. left. eauto.
      * cbv [throw] in H. inversion H; subst. do 5 right. left. eauto.
Qed.

End FetcherFacts.

(** *** Arrays and traces *)

Lemma pop_snoc (A : Type) (l : list A) (x : A) : pop (l ++ [x]) = (Some x, l).
Proof.
  unfold pop. rewrite rev_app_distr. cbn. now rewrite rev_involutive.
Qed.

Lemma pop_some (A : Type) (l rest : list A) (x : A) :
  pop l = (Some x, rest) -> l = rest ++ [x].
Proof.
  unfold pop. destruct (rev l) as [| y r] eqn:Hr; intros H; inversion H; subst.
  rewrite <- (rev_involutive l), Hr. reflexivity.
Qed.

Lemma pop_none (A : Type) (l rest : list A) :
  pop l = (None, rest) -> l = [].
Proof.
  unfold pop. destruct (rev l) as [| y r] eqn:Hr; intros H; inversion H.
  rewrite <- (rev_involutive l), Hr. reflexivity.
Qed.

Lemma remove_nth_length (A : Type) (l : list A) i x :
  nth_error l i = Some x -> S (length (remove_nth i l)) = length l.
Proof.
  unfold remove_nth. revert i. induction l as [| y l IH]; intros [| i] H;
    cbn in *; try discriminate.
  - reflexivity.
  - f_equal. now apply IH.
Qed.

Lemma remove_nth_In (A : Type) (l : list A) i x :
  In x (remove_nth i l) -> In x l.
Proof.
  unfold remove_nth. intros H. apply in_app_or in H.
  destruct H as [H | H].
  - rewrite <- (firstn_skipn i l). apply in_or_app. now left.
  - rewrite <- (firstn_skipn (S i) l). apply in_or_app. now right.
Qed.

Lemma In_remove_nth (A : Type) (l : list A) i x y :
  nth_error l i = Some y -> In x l -> x = y \/ In x (remove_nth i l).
Proof.
  unfold remove_nth. revert i. induction l as [| z l IH]; intros [| i] Hn Hin;
    cbn in *; try discriminate.
  - inversion Hn; subst. destruct Hin as [-> | Hin]; auto.
  - destruct Hin as [-> | Hin]; auto.
    destruct (IH i Hn Hin); auto.
Qed.

Lemma dispatches_app t u : dispatches (t ++ u) = dispatches t ++ dispatches u.
Proof.
  induction t as [| [id pod | id | id e] t IH]; cbn; congruence.
Qed.

Lemma in_flight_app t u : (in_flight (t ++ u) = in_flight t + in_flight u)%Z.
Proof.
  induction t as [| [id pod | id | id e] t IH]; cbn; lia.
Qed.

Lemma dispatches_In t id pod :
  In (id, pod) (dispatches t) <-> In (Dispatch id pod) t.
Proof.
  induction t as [| [id' pod' | id' | id' e] t IH]; cbn.
  - tauto.
  - rewrite IH. split; intros [H | H]; auto; left; congruence.
  - rewrite IH. split; [auto | intros [H | H]; [discriminate | auto]].
  - rewrite IH. split; [auto | intros [H | H]; [discriminate | auto]].
Qed.

(** A way of splitting a trace that has grown by one event splits the old
    trace, unless it cuts at the very end. *)
Lemma snoc_split (A : Type) (t pre post : list A) (e : A) :
  t ++ [e] = pre ++ post ->
  (post = [] /\ pre = t ++ [e])
  \/ (exists post', post = post' ++ [e] /\ t = pre ++ post').
Proof.
  intros H. destruct post as [| x post] using rev_ind.
  - left. rewrite app_nil_r in H. auto.
  - right. rewrite app_assoc in H. apply app_inj_tail in H.
    destruct H as [-> ->]. eauto.
Qed.

(** *** The invariant is kept *)
Section CycleFacts.

Variable Agent : Type.
Variable encodeURIComponent : string -> string.
Variable Date_getTime : string -> number.
Variable parseMemory : string -> string + number.
Variable parseCpu : string -> string + number.
Variable network : nat -> Request Agent -> string + Response.
Variable o : Options Agent.
Variable pods : list PodInfo.
Hypothesis concurrency_valid : (1 <= concurrency o)%Z.

Local Abbreviation Sound :=
  (Sound encodeURIComponent Date_getTime parseMemory parseCpu network o pods).
Local Abbreviation Stable :=
  (Stable encodeURIComponent Date_getTime parseMemory parseCpu network o pods).
Local Abbreviation usage_fetch :=
  (usage_fetch encodeURIComponent Date_getTime parseMemory parseCpu network o).
Local Abbreviation complete :=
  (complete encodeURIComponent Date_getTime parseMemory parseCpu network o).
Local Abbreviation drain :=
  (drain encodeURIComponent Date_getTime parseMemory parseCpu network o).

Lemma Sound_init l : Sound (init_cycle pods l).
Proof.
  constructor; cbn; try (intros; discriminate); try (intros; contradiction);
    try lia; try reflexivity.
  - now rewrite app_nil_r.
  - intros pre post H. symmetry in H. apply app_eq_nil in H.
    destruct H as [-> _]. cbn. lia.
  - intros pre id e post H. destruct pre; discriminate.
Qed.

Lemma Sound_dispatch st st' :
  Sound st ->
  settled st = None ->
  (Z.of_nat (length (running st)) < concurrency o)%Z ->
  promiseProducer st = Some st' ->
  Sound st'.
Proof.
  intros [Hpods Hids Hrun Hdisp Hful Hmet Hrej Hsucc Hdone Hbound Hfl Hpre Hq
          Hrejd Herr]
    Hactive Hfree Hprod.
  unfold promiseProducer in Hprod.
  destruct (pop (allPods st)) as [[pod |] rest] eqn:Hpop; [| discriminate].
  apply pop_some in Hpop. inversion Hprod; subst st'; clear Hprod.
  constructor; cbn -[seq]; unfold push.
  - rewrite dispatches_app, map_app, rev_app_distr. cbn.
    rewrite Hpods, Hpop, <- app_assoc. reflexivity.
  - rewrite dispatches_app, map_app, Hids, seq_S. reflexivity.
  - intros id p Hin. rewrite dispatches_app. apply in_or_app.
    apply in_app_or in Hin. destruct Hin as [Hin | Hin]; auto.
  - intros id p Hin. rewrite dispatches_app in Hin. apply in_app_or in Hin.
    destruct Hin as [Hin | Hin].
    + destruct (Hdisp _ _ Hin) as [H | [H | (e & H)]].
      * left. apply in_or_app. auto.
      * right. left. apply in_or_app. auto.
      * right. right. exists e. apply in_or_app. auto.
    + left. apply in_or_app. auto.
  - intros id Hin. apply in_app_or in Hin. destruct Hin as [Hin | Hin].
    + destruct (Hful _ Hin) as (p & ms & Hp & Hs). exists p, ms.
      split; [| assumption]. rewrite dispatches_app. apply in_or_app. auto.
    + destruct Hin as [Hin | []]. discriminate.
  - intros m Hm. destruct (Hmet _ Hm) as (id & p & ms & Hp & Hs & Hin).
    exists id, p, ms. repeat split; auto.
    rewrite dispatches_app. apply in_or_app. auto.
  - intros id e Hin. apply in_app_or in Hin. destruct Hin as [Hin | Hin].
    + eauto.
    + destruct Hin as [Hin | []]. discriminate.
  - intros ms Hs. congruence.
  - intros Hd. apply Hdone in Hd. rewrite Hd in Hpop.
    destruct rest; discriminate.
  - rewrite length_app. cbn. lia.
  - rewrite in_flight_app, length_app. cbn. lia.
  - intros pre post H. apply snoc_split in H.
    destruct H as [[-> ->] | (post' & -> & H)].
    + rewrite in_flight_app. cbn. lia.
    + eauto.
  - intros pre id e post H. apply snoc_split in H.
    destruct H as [[H _] | (post' & H1 & H2)]; [discriminate |].
    destruct post' as [| x post']; cbn in H1; inversion H1; subst.
    exfalso. assert (Hin : In (Reject id e) (trace st)).
    { rewrite H2. apply in_or_app. right. now left. }
    apply Hrej in Hin. destruct Hin as (e' & He'). congruence.
  - intros id e Hin. apply in_app_or in Hin. destruct Hin as [Hin | Hin].
    + destruct (Hrejd _ _ Hin) as (p & Hp & Hf). exists p.
      split; [| assumption]. rewrite dispatches_app. apply in_or_app. auto.
    + destruct Hin as [Hin | []]. discriminate.
  - intros e Hs. congruence.
Qed.

Lemma Sound_set_done st :
  Sound st -> allPods st = [] -> Sound (set_done st).
Proof.
  intros [Hpods Hids Hrun Hdisp Hful Hmet Hrej Hsucc Hdone Hbound Hfl Hpre Hq
          Hrejd Herr]
    Hnil.
  constructor; cbn; auto.
Qed.

Lemma Sound_settle_fulfilled st :
  Sound st ->
  settled st = None ->
  pool_done st = true ->
  running st = [] ->
  Sound (settle None st).
Proof.
  intros [Hpods Hids Hrun Hdisp Hful Hmet Hrej Hsucc Hdone Hbound Hfl Hpre Hq
          Hrejd Herr]
    Hactive Hd Hr.
  constructor; cbn; auto.
  - intros id e Hin. apply Hrej in Hin. destruct Hin as (e' & He').
    congruence.
  - intros ms Hms. inversion Hms; subst. auto.
  - intros e H. discriminate.
Qed.

(** A fetch in flight completes with records: the state before the pool
    reacts. *)
Lemma Sound_fulfil st i id pod log' ms :
  Sound st ->
  nth_error (running st) i = Some (id, pod) ->
  usage_fetch id pod (log st) = (log', inr ms) ->
  Sound {| allPods := allPods st;
           metrics := metrics st ++ ms;
           log := log';
           running := remove_nth i (running st);
           started := started st;
           pool_done := pool_done st;
           settled := settled st;
           trace := push (trace st) (Fulfil id) |}.
Proof.
  intros [Hpods Hids Hrun Hdisp Hful Hmet Hrej Hsucc Hdone Hbound Hfl Hpre Hq
          Hrejd Herr]
    Hnth Hfetch.
  pose proof (remove_nth_length _ _ _ _ Hnth) as Hlen.
  assert (Hnot : forall ms', settled st <> Some (inr ms')).
  { intros ms' H. apply Hsucc in H. destruct H as (_ & H & _).
    rewrite H in Hnth. destruct i; discriminate. }
  assert (Hd : dispatches (trace st ++ [Fulfil id]) = dispatches (trace st)).
  { rewrite dispatches_app. cbn. now rewrite app_nil_r. }
  constructor; cbn -[seq]; unfold push; rewrite ?Hd; auto.
  - intros id' p Hin. apply remove_nth_In in Hin. auto.
  - intros id' p Hin. destruct (Hdisp _ _ Hin) as [H | [H | (e & H)]].
    + destruct (In_remove_nth _ _ _ _ _ Hnth H) as [Heq | Hin'].
      * inversion Heq; subst. right. left. apply in_or_app. right. now left.
      * now left.
    + right. left. apply in_or_app. auto.
    + right. right. exists e. apply in_or_app. auto.
  - intros id' Hin. apply in_app_or in Hin. destruct Hin as [Hin | Hin].
    + auto.
    + destruct Hin as [Heq | []]. inversion Heq; subst id'.
      exists pod, ms. split.
      * apply Hrun. eapply nth_error_In; eauto.
      * now exists (log st), log'.
  - intros m Hm. apply in_app_or in Hm. destruct Hm as [Hm | Hm].
    + auto.
    + exists id, pod, ms. repeat split; auto.
      * apply Hrun. eapply nth_error_In; eauto.
      * now exists (log st), log'.
  - intros id' e Hin. apply in_app_or in Hin. destruct Hin as [Hin | Hin].
    + eauto.
    + destruct Hin as [Hin | []]. discriminate.
  - intros ms' H. exfalso. eapply Hnot; eauto.
  - lia.
  - rewrite in_flight_app. cbn. lia.
  - intros pre post H. apply snoc_split in H.
    destruct H as [[-> ->] | (post' & -> & H)].
    + rewrite in_flight_app. cbn. lia.
    + eauto.
  - intros pre id' e post H. apply snoc_split in H.
    destruct H as [[H _] | (post' & H1 & H2)]; [discriminate |].
    destruct post' as [| x post']; cbn in H1; inversion H1; subst.
    intros id'' p Hin. apply in_app_or in Hin. destruct Hin as [Hin | Hin].
    + eapply Hq; eauto.
    + destruct Hin as [Hin | []]. discriminate.
  - intros id' e Hin. apply in_app_or in Hin. destruct Hin as [Hin | Hin].
    + eauto.
    + destruct Hin as [Hin | []]. discriminate.
  - intros e H. destruct (Herr _ H) as (id0 & Hin). exists id0.
    apply in_or_app. auto.
Qed.

(** A fetch in flight completes with an error, and the pool has reacted. *)
Lemma Sound_reject st i id pod log' e :
  Sound st ->
  nth_error (running st) i = Some (id, pod) ->
  usage_fetch id pod (log st) = (log', inl e) ->
  let st1 := {| allPods := allPods st;
                metrics := metrics st;
                log := log';
                running := remove_nth i (running st);
                started := started st;
                pool_done := pool_done st;
                settled := settled st;
                trace := push (trace st) (Reject id e) |} in
  Sound (if active st1 then settle (Some e) st1 else st1)
  /\ settled (if active st1 then settle (Some e) st1 else st1) <> None.
Proof.
  intros [Hpods Hids Hrun Hdisp Hful Hmet Hrej Hsucc Hdone Hbound Hfl Hpre Hq
          Hrejd Herr]
    Hnth Hfetch st1.
  pose proof (remove_nth_length _ _ _ _ Hnth) as Hlen.
  assert (Hnot : forall ms', settled st <> Some (inr ms')).
  { intros ms' H. apply Hsucc in H. destruct H as (_ & H & _).
    rewrite H in Hnth. destruct i; discriminate. }
  assert (Hd : dispatches (trace st ++ [Reject id e]) = dispatches (trace st)).
  { rewrite dispatches_app. cbn. now rewrite app_nil_r. }
  assert (Hsettled : exists e',
             settled (if active st1 then settle (Some e) st1 else st1)
             = Some (inl e')
             /\ (e' = e \/ settled st = Some (inl e'))).
  { unfold active. subst st1. cbn.
    destruct (settled st) as [[e' | ms'] |] eqn:Hs; cbn; eauto.
    exfalso. eapply Hnot; eauto. }
  destruct Hsettled as (e' & He' & Hwhich).
  split; [| congruence].
  assert (Hsame : forall (A : Type) (f : Cycle -> A),
             (forall s, f (settle (Some e) s) = f s) ->
             f (if active st1 then settle (Some e) st1 else st1) = f st1).
  { intros A f Hf. destruct (active st1); auto. }
  constructor;
    try rewrite (Hsame _ allPods (fun _ => eq_refl));
    try rewrite (Hsame _ metrics (fun _ => eq_refl));
    try rewrite (Hsame _ running (fun _ => eq_refl));
    try rewrite (Hsame _ started (fun _ => eq_refl));
    try rewrite (Hsame _ pool_done (fun _ => eq_refl));
    try rewrite (Hsame _ trace (fun _ => eq_refl));
    rewrite ?He'; subst st1; cbn -[seq]; unfold push; rewrite ?Hd; auto.
  - intros id' p Hin. apply remove_nth_In in Hin. auto.
  - intros id' p Hin. destruct (Hdisp _ _ Hin) as [H | [H | (e0 & H)]].
    + destruct (In_remove_nth _ _ _ _ _ Hnth H) as [Heq | Hin'].
      * inversion Heq; subst. right. right. exists e. apply in_or_app.
        right. now left.
      * now left.
    + right. left. apply in_or_app. auto.
    + right. right. exists e0. apply in_or_app. auto.
  - intros id' Hin. apply in_app_or in Hin. destruct Hin as [Hin | Hin].
    + auto.
    + destruct Hin as [Heq | []]. discriminate.
  - intros id' e0 _. eauto.
  - intros ms' H. discriminate.
  - lia.
  - rewrite in_flight_app. cbn. lia.
  - intros pre post H. apply snoc_split in H.
    destruct H as [[-> ->] | (post' & -> & H)].
    + rewrite in_flight_app. cbn. lia.
    + eauto.
  - intros pre id' e0 post H. apply snoc_split in H.
    destruct H as [[H _] | (post' & H1 & H2)]; [discriminate |].
    destruct post' as [| x post']; cbn in H1; inversion H1; subst.
    + intros id'' p [].
    + intros id'' p Hin. apply in_app_or in Hin. destruct Hin as [Hin | Hin].
      * eapply Hq; eauto.
      * destruct Hin as [Hin | []]. discriminate.
  - intros id' e0 Hin. apply in_app_or in Hin. destruct Hin as [Hin | Hin].
    + eauto.
    + destruct Hin as [Heq | []]. inversion Heq; subst id' e0.
      exists pod. split.
      * apply Hrun. eapply nth_error_In; eauto.
      * now exists (log st), log'.
  - intros e0 H. inversion H; subst e0. destruct Hwhich as [-> | Hold].
    + exists id. apply in_or_app. right. now left.
    + destruct (Herr _ Hold) as (id0 & Hin). exists id0.
      apply in_or_app. auto.
Qed.

(** [complete] with [processPod] unfolded. *)
Lemma complete_unfold i st :
  complete i st
  = match nth_error (running st) i with
    | None => st
    | Some (id, pod) =>
        match usage_fetch id pod (log st) with
        | (log', inr ms) =>
            let st1 :=
              {| allPods := allPods st;
                 metrics := metrics st ++ ms;
                 log := log';
                 running := remove_nth i (running st);
                 started := started st;
                 pool_done := pool_done st;
                 settled := settled st;
                 trace := push (trace st) (Fulfil id) |} in
            if active st1 then pool_proceed (concurrency o) st1 else st1
        | (log', inl e) =>
            let st1 :=
              {| allPods := allPods st;
                 metrics := metrics st;
                 log := log';
                 running := remove_nth i (running st);
                 started := started st;
                 pool_done := pool_done st;
                 settled := settled st;
                 trace := push (trace st) (Reject id e) |} in
            if active st1 then settle (Some e) st1 else st1
        end
    end.
Proof.
  unfold complete, processPod, bind, ret.
  destruct (nth_error (running st) i) as [[id pod] |]; [| reflexivity].
  destruct (usage_fetch id pod (log st)) as [log' [e | ms]]; reflexivity.
Qed.

Lemma promiseProducer_some st st' :
  promiseProducer st = Some st' ->
  settled st' = settled st
  /\ pool_done st' = pool_done st
  /\ length (allPods st) = S (length (allPods st'))
  /\ length (running st') = S (length (running st)).
Proof.
  unfold promiseProducer.
  destruct (pop (allPods st)) as [[pod |] rest] eqn:Hpop; [| discriminate].
  apply pop_some in Hpop. intros H. inversion H; subst st'; cbn.
  rewrite Hpop. unfold push. rewrite !length_app. cbn. repeat split; lia.
Qed.

Lemma promiseProducer_none st :
  promiseProducer st = None -> allPods st = [].
Proof.
  unfold promiseProducer.
  destruct (pop (allPods st)) as [[pod |] rest] eqn:Hpop; [discriminate |].
  intros _. eapply pop_none; eauto.
Qed.

Lemma pool_fill_Sound fuel st :
  Sound st ->
  settled st = None ->
  Sound (pool_fill fuel (concurrency o) st)
  /\ settled (pool_fill fuel (concurrency o) st) = None
  /\ remaining (pool_fill fuel (concurrency o) st) = remaining st.
Proof.
  revert st. induction fuel as [| fuel IH]; intros st Hs Ha;
    cbn [pool_fill].
  - auto.
  - destruct (Z.of_nat (length (running st)) <? concurrency o)%Z eqn:Hlt.
    + apply Z.ltb_lt in Hlt.
      destruct (promiseProducer st) as [st' |] eqn:Hp.
      * destruct (promiseProducer_some _ _ Hp) as (Hs' & _ & Hl & Hr).
        destruct (IH st') as (H1 & H2 & H3).
        { eapply Sound_dispatch; eauto. }
        { congruence. }
        split; [assumption |]. split; [assumption |].
        rewrite H3. unfold remaining. lia.
      * split; [| split; [assumption | reflexivity]].
        apply Sound_set_done; auto. now apply promiseProducer_none.
    + auto.
Qed.

(** With a unit of fuel more than there are pods, the loop ends because the
    pool is full or because the producer is exhausted. *)
Lemma pool_fill_ends fuel st :
  length (allPods st) < fuel ->
  let st' := pool_fill fuel (concurrency o) st in
  (concurrency o <= Z.of_nat (length (running st')))%Z
  \/ pool_done st' = true.
Proof.
  revert st. induction fuel as [| fuel IH]; intros st Hfuel;
    cbn [pool_fill].
  - lia.
  - destruct (Z.of_nat (length (running st)) <? concurrency o)%Z eqn:Hlt.
    + destruct (promiseProducer st) as [st' |] eqn:Hp.
      * destruct (promiseProducer_some _ _ Hp) as (_ & _ & Hl & _).
        apply IH. lia.
      * right. reflexivity.
    + left. apply Z.ltb_ge in Hlt. assumption.
Qed.

Lemma pool_proceed_Stable st :
  Sound st ->
  settled st = None ->
  Stable (pool_proceed (concurrency o) st)
  /\ remaining (pool_proceed (concurrency o) st) = remaining st.
Proof.
  intros Hs Ha. unfold pool_proceed.
  set (st1 := if pool_done st then st
              else pool_fill (S (length (allPods st))) (concurrency o) st).
  assert (H1 : Sound st1 /\ settled st1 = None
               /\ remaining st1 = remaining st
               /\ ((concurrency o <= Z.of_nat (length (running st1)))%Z
                   \/ pool_done st1 = true)).
  { subst st1. destruct (pool_done st) eqn:Hd.
    - auto.
    - destruct (pool_fill_Sound (S (length (allPods st))) st Hs Ha)
        as (Ha1 & Ha2 & Ha3).
      split; [assumption |]. split; [assumption |].
      split; [assumption |]. apply pool_fill_ends. lia. }
  destruct H1 as (Hs1 & Ha1 & Hrem & Hend).
  destruct (pool_done st1 && (length (running st1) =? 0)%nat) eqn:Hfin.
  - apply andb_true_iff in Hfin. destruct Hfin as [Hd Hr].
    apply Nat.eqb_eq in Hr. apply length_zero_iff_nil in Hr.
    split; [split |].
    + now apply Sound_settle_fulfilled.
    + cbn. discriminate.
    + exact Hrem.
  - split; [split |]; auto.
    intros _ Hnil. rewrite Hnil in *. cbn in *.
    destruct Hend as [Hend | Hend]; [lia |].
    rewrite Hend in Hfin. discriminate.
Qed.

Lemma complete_Stable st i :
  Stable st -> Stable (complete i st).
Proof.
  intros [Hs Hr]. rewrite complete_unfold. cbv zeta.
  destruct (nth_error (running st) i) as [[id pod] |] eqn:Hnth;
    [| split; assumption].
  destruct (usage_fetch id pod (log st)) as [log' [e | ms]] eqn:Hf.
  - destruct (Sound_reject _ _ _ _ _ _ Hs Hnth Hf) as [H1 H2].
    split; [exact H1 |]. intros H. contradiction.
  - pose proof (Sound_fulfil _ _ _ _ _ _ Hs Hnth Hf) as H1.
    match goal with
    | |- context [if active ?s then _ else _] => set (st1 := s) in *
    end.
    unfold active. destruct (settled st1) eqn:Ha.
    + split; [exact H1 |]. congruence.
    + apply pool_proceed_Stable; assumption.
Qed.

Lemma complete_remaining st i x :
  Stable st ->
  nth_error (running st) i = Some x ->
  S (remaining (complete i st)) = remaining st.
Proof.
  intros [Hs Hr] Hnth. rewrite complete_unfold, Hnth. cbv zeta.
  destruct x as [id pod].
  pose proof (remove_nth_length _ _ _ _ Hnth) as Hlen.
  destruct (usage_fetch id pod (log st)) as [log' [e | ms]] eqn:Hf.
  - match goal with
    | |- context [if active ?s then _ else _] => destruct (active s)
    end; unfold remaining; cbn; lia.
  - pose proof (Sound_fulfil _ _ _ _ _ _ Hs Hnth Hf) as H1.
    match goal with
    | |- context [if active ?s then _ else _] => set (st1 := s) in *
    end.
    assert (Hrem : S (remaining st1) = remaining st).
    { unfold remaining. subst st1. cbn. lia. }
    unfold active. destruct (settled st1) eqn:Ha.
    + exact Hrem.
    + destruct (pool_proceed_Stable st1 H1 Ha) as [_ H2]. now rewrite H2.
Qed.

(** The event loop runs until nothing is in flight, and the invariant holds
    in the state it ends in. *)
Lemma drain_Stable sched fuel k st :
  Stable st ->
  remaining st <= fuel ->
  Stable (drain sched fuel k st) /\ running (drain sched fuel k st) = [].
Proof.
  revert k st. induction fuel as [| fuel IH]; intros k st Hst Hfuel; cbn.
  - split; [assumption |]. unfold remaining in Hfuel.
    apply length_zero_iff_nil. lia.
  - destruct (running st) as [| r rs] eqn:Hrun; [auto |].
    set (i := completion sched k mod length (r :: rs)).
    assert (Hi : i < length (running st)).
    { rewrite Hrun. apply Nat.mod_upper_bound. cbn. lia. }
    destruct (nth_error (running st) i) as [x |] eqn:Hnth.
    2:{ apply nth_error_None in Hnth. lia. }
    apply IH.
    + now apply complete_Stable.
    + pose proof (complete_remaining st i x Hst Hnth). lia.
Qed.

Lemma run_pool_Stable sched l st :
  run_pool encodeURIComponent Date_getTime parseMemory parseCpu network o
    sched pods l = inr st ->
  Stable st /\ running st = [].
Proof.
  unfold run_pool. destruct (concurrency o <? 1)%Z; [discriminate |].
  intros H. inversion H; subst st; clear H.
  destruct (pool_proceed_Stable (init_cycle pods l)) as [H1 H2].
  { apply Sound_init. }
  { reflexivity. }
  apply drain_Stable; [assumption |].
  rewrite H2. unfold remaining. cbn. lia.
Qed.

End CycleFacts.

(** *** The logger does not influence the outcome *)

Lemma log_blind_ret (A : Type) (a : A) : log_blind (ret a).
Proof. intros l. exists []. cbv [ret]. now rewrite app_nil_r. Qed.

Lemma log_blind_throw (A : Type) (e : exn) : log_blind (@throw A e).
Proof. intros l. exists []. cbv [throw]. now rewrite app_nil_r. Qed.

Lemma log_blind_warn (w : Warning) : log_blind (warn w).
Proof. intros l. exists [w]. reflexivity. Qed.

Lemma log_blind_call (A : Type) wrap (r : string + A) :
  log_blind (call wrap r).
Proof.
  destruct r; [apply log_blind_throw | apply log_blind_ret].
Qed.

Lemma log_blind_bind (A B : Type) (c : M A) (k : A -> M B) :
  log_blind c -> (forall a, log_blind (k a)) -> log_blind (bind c k).
Proof.
  intros Hc Hk l. unfold bind.
  destruct (Hc l) as (ws & Hl). destruct (Hc []) as (ws0 & H0).
  rewrite Hl. destruct (c []) as [l0 r0] eqn:Hc0. cbn [snd] in *.
  inversion H0; subst l0. destruct r0 as [e | a].
  - exists ws. reflexivity.
  - destruct (Hk a (l ++ ws)) as (ws' & Hl').
    destruct (Hk a ws0) as (ws0' & H0').
    cbn [app] in *. rewrite Hl', H0'. cbn [snd]. exists (ws ++ ws').
    now rewrite app_assoc.
Qed.

Lemma log_blind_forEach (A S : Type) (f : A -> S -> M S) arr :
  (forall x acc, log_blind (f x acc)) ->
  forall acc, log_blind (forEach f arr acc).
Proof.
  intros Hf. induction arr as [| x arr IH]; intros acc; cbn.
  - apply log_blind_ret.
  - apply log_blind_bind; auto.
Qed.

Lemma log_blind_rate_block pod c ts metric help parse quantity usage acc :
  log_blind (rate_block pod c ts metric help parse quantity usage acc).
Proof.
  unfold rate_block. destruct quantity as [q |]; [| apply log_blind_ret].
  apply log_blind_bind; [apply log_blind_call |]. intros spec.
  apply log_blind_bind.
  - destruct (1 <? usage / spec)%float;
      [apply log_blind_warn | apply log_blind_ret].
  - intros _. apply log_blind_ret.
Qed.

Lemma log_blind_forEach_container parseMemory parseCpu pod ts c acc :
  log_blind (forEach_container parseMemory parseCpu pod ts c acc).
Proof.
  unfold forEach_container.
  repeat (apply log_blind_bind;
          [first [apply log_blind_call | apply log_blind_rate_block] |];
          intros ?).
  apply log_blind_rate_block.
Qed.

Lemma log_blind_fetch (Agent : Type) encodeURIComponent Date_getTime
  parseMemory parseCpu (fetch : Request Agent -> string + Response) o :
  log_blind
    (fetchPodMemoryAndCpuUsage encodeURIComponent Date_getTime parseMemory
       parseCpu fetch o).
Proof.
  unfold fetchPodMemoryAndCpuUsage.
  apply log_blind_bind; [apply log_blind_call |]. intros response.
  destruct (bad_status (status response)); [apply log_blind_throw |].
  apply log_blind_bind; [apply log_blind_call |]. intros body.
  destruct body as [s | n | b | | | pm | pm]; cbn;
    try apply log_blind_throw.
  - destruct (negb (kind pm =? "PodMetrics")); [apply log_blind_throw |].
    apply log_blind_forEach. intros. apply log_blind_forEach_container.
  - destruct (negb (mf_kind pm =? "PodMetrics")); [apply log_blind_throw |].
    destruct (mf_containers pm) as [entries |]; [| apply log_blind_throw].
    apply log_blind_bind; [| intros; apply log_blind_throw].
    apply log_blind_forEach. intros. apply log_blind_forEach_container.
Qed.

Lemma log_blind_outcome (A : Type) (c : M A) l1 l2 :
  log_blind c -> snd (c l1) = snd (c l2).
Proof.
  intros H. destruct (H l1) as (w1 & ->). destruct (H l2) as (w2 & ->).
  reflexivity.
Qed.

(** *** A whole cycle *)
Section CollectorFacts.

Variable Agent : Type.
Variable encodeURIComponent : string -> string.
Variable Date_getTime : string -> number.
Variable parseMemory : string -> string + number.
Variable parseCpu : string -> string + number.
Variable network : nat -> Request Agent -> string + Response.
Variable listPods : ListPodsOptions Agent -> string + list PodInfo.

Local Abbreviation Sound :=
  (Sound encodeURIComponent Date_getTime parseMemory parseCpu network).
Local Abbreviation Stable :=
  (Stable encodeURIComponent Date_getTime parseMemory parseCpu network).
Local Abbreviation reachable :=
  (reachable encodeURIComponent Date_getTime parseMemory parseCpu network).
Local Abbreviation usage_fetch :=
  (usage_fetch encodeURIComponent Date_getTime parseMemory parseCpu network).
Local Abbreviation fetch_succeeds :=
  (fetch_succeeds encodeURIComponent Date_getTime parseMemory parseCpu
     network).
Local Abbreviation fetch_fails :=
  (fetch_fails encodeURIComponent Date_getTime parseMemory parseCpu network).
Local Abbreviation complete :=
  (complete encodeURIComponent Date_getTime parseMemory parseCpu network).
Local Abbreviation drain :=
  (drain encodeURIComponent Date_getTime parseMemory parseCpu network).
Local Abbreviation run_pool :=
  (run_pool encodeURIComponent Date_getTime parseMemory parseCpu network).
Local Abbreviation cycle :=
  (cycle encodeURIComponent Date_getTime parseMemory parseCpu network
     listPods).
Local Abbreviation collectMetrics :=
  (collectMetrics encodeURIComponent Date_getTime parseMemory parseCpu
     network listPods).

Lemma reachable_Stable o pods l st :
  (1 <= concurrency o)%Z -> reachable o pods l st -> Stable o pods st.
Proof.
  intros Hc. induction 1 as [| st i _ IH Hi].
  - apply pool_proceed_Stable; [assumption | apply Sound_init | reflexivity].
    assumption.
  - apply complete_Stable; assumption.
Qed.

Lemma drain_reachable o pods l sched fuel k st :
  reachable o pods l st -> reachable o pods l (drain o sched fuel k st).
Proof.
  revert k st. induction fuel as [| fuel IH]; intros k st Hst; cbn.
  - assumption.
  - destruct (running st) as [| r rs] eqn:Hrun; [assumption |].
    apply IH. constructor; [assumption |].
    rewrite Hrun. apply Nat.mod_upper_bound. cbn. lia.
Qed.

Lemma run_pool_inr o sched pods l st :
  run_pool o sched pods l = inr st ->
  (1 <= concurrency o)%Z
  /\ reachable o pods l st /\ Stable o pods st /\ running st = [].
Proof.
  intros H.
  assert (Hc : (1 <= concurrency o)%Z).
  { unfold run_pool in H.
    destruct (concurrency o <? 1)%Z eqn:Hlt; [discriminate |].
    apply Z.ltb_ge in Hlt. assumption. }
  split; [assumption |].
  destruct (run_pool_Stable _ _ _ _ _ _ _ _ Hc _ _ _ H) as [H1 H2].
  split; [| split; assumption].
  unfold run_pool in H.
  destruct (concurrency o <? 1)%Z; [discriminate |].
  inversion H; subst st. apply drain_reachable. constructor.
Qed.

Lemma cycle_inr o sched l st :
  cycle o sched l = inr st ->
  exists pods,
    list_all_pods listPods o sched = inr pods
    /\ (1 <= concurrency o)%Z
    /\ reachable o pods l st /\ Stable o pods st /\ running st = [].
Proof.
  unfold cycle.
  destruct (list_all_pods listPods o sched) as [e | pods]; [discriminate |].
  intros H. exists pods. split; [reflexivity |].
  eapply run_pool_inr; eauto.
Qed.

Lemma listed_pods_not_terminal o sched pods pod :
  list_all_pods listPods o sched = inr pods ->
  In pod pods ->
  status_phase pod <> "Failed" /\ status_phase pod <> "Succeeded".
Proof.
  unfold list_all_pods. destruct (namespace o) as [nss |]; [| discriminate].
  destruct (Promise_all _ _) as [e | podsPerNamespace]; [discriminate |].
  intros H Hin. inversion H; subst pods; clear H.
  apply filter_In in Hin. destruct Hin as [_ Hnt].
  unfold not_terminal in Hnt. apply andb_true_iff in Hnt.
  destruct Hnt as [H1 H2].
  apply negb_true_iff in H1, H2. apply String.eqb_neq in H1, H2. auto.
Qed.

Lemma dispatched_in_pods o pods st id pod :
  Sound o pods st -> In (Dispatch id pod) (trace st) -> In pod pods.
Proof.
  intros Hs Hin. rewrite (inv_pods Hs). apply in_or_app. right.
  apply in_rev. rewrite rev_involutive.
  apply dispatches_In in Hin. change pod with (snd (id, pod)).
  now apply in_map.
Qed.

(** Requests are numbered by the position of their pod in the order the
    producer pops them. *)
Lemma dispatched_nth o pods st k pod :
  Sound o pods st ->
  allPods st = [] ->
  nth_error (rev pods) k = Some pod ->
  In (k, pod) (dispatches (trace st)).
Proof.
  intros Hs Hnil Hnth. pose proof (inv_pods Hs) as Hp.
  pose proof (inv_ids Hs) as Hi. rewrite Hnil in Hp. cbn in Hp.
  rewrite Hp, rev_involutive in Hnth.
  rewrite nth_error_map in Hnth.
  destruct (nth_error (dispatches (trace st)) k) as [[id p] |] eqn:Hk;
    [| discriminate].
  cbn in Hnth. inversion Hnth; subst p.
  assert (Hid : nth_error (map fst (dispatches (trace st))) k = Some id).
  { rewrite nth_error_map, Hk. reflexivity. }
  rewrite Hi in Hid.
  assert (Hlt : k < started st).
  { rewrite <- (length_seq (started st) 0). apply nth_error_Some.
    congruence. }
  rewrite nth_error_seq in Hid.
  apply Nat.ltb_lt in Hlt. rewrite Hlt in Hid. cbn in Hid.
  inversion Hid; subst id. eapply nth_error_In; eauto.
Qed.

Lemma dispatched_unique o pods st id pod pod' :
  Sound o pods st ->
  In (id, pod) (dispatches (trace st)) ->
  In (id, pod') (dispatches (trace st)) ->
  pod = pod'.
Proof.
  intros Hs. pose proof (inv_ids Hs) as Hi.
  assert (Hnd : NoDup (map fst (dispatches (trace st)))).
  { rewrite Hi. apply seq_NoDup. }
  revert Hnd. generalize (dispatches (trace st)). clear.
  induction l as [| [i p] l IH]; cbn; intros Hnd H1 H2; [contradiction |].
  inversion Hnd as [| x xs Hnotin Hnd']; subst.
  destruct H1 as [H1 | H1], H2 as [H2 | H2].
  - congruence.
  - inversion H1; subst. exfalso. apply Hnotin.
    change id with (fst (id, pod')). now apply in_map.
  - inversion H2; subst. exfalso. apply Hnotin.
    change id with (fst (id, pod)). now apply in_map.
  - auto.
Qed.

Lemma usage_fetch_outcome o id pod l1 l2 :
  snd (usage_fetch o id pod l1) = snd (usage_fetch o id pod l2).
Proof.
  unfold usage_fetch. apply log_blind_outcome, log_blind_fetch.
Qed.

(** [collectMetrics] always settles. *)
Lemma collectMetrics_settles o sched l :
  exists r, collectMetrics o sched l = Some r.
Proof.
  unfold collectMetrics. destruct (cycle o sched l) as [e | st] eqn:Hc.
  - eauto.
  - apply cycle_inr in Hc.
    destruct Hc as (pods & _ & _ & _ & [_ Hactive] & Hrun).
    destruct (settled st) as [r |]; [eauto |].
    exfalso. now apply Hactive.
Qed.

(** C1: if the usage fetch of any pod of the cycle fails (the [k]-th pod in
    the order the producer pops them, whose request is the [k]-th of the
    cycle), then [collectMetrics] fails, whatever the order in which the
    fetches complete and however many succeeded before: it settles with an
    error and returns no metrics.  The error is the one of a failed usage
    fetch, or the refusal of the pool to start.  In the trace of the cycle
    no pod is dispatched after a fetch has been rejected. *)
Theorem fail_fast :
  forall o sched l pods k pod e,
    list_all_pods listPods o sched = inr pods ->
    nth_error (rev pods) k = Some pod ->
    snd (usage_fetch o k pod []) = inl e ->
    (exists e',
        collectMetrics o sched l = Some (inl e')
        /\ (e' = PoolError "Invalid concurrency"
            \/ exists id pod', In pod' pods /\ fetch_fails o id pod' e'))
    /\ (forall st,
          cycle o sched l = inr st ->
          forall pre id e0 post,
            trace st = pre ++ Reject id e0 :: post -> no_dispatch post).
Proof.
  intros o sched l pods k pod e Hlist Hnth Hfail. split.
  - unfold collectMetrics. destruct (cycle o sched l) as [e' | st] eqn:Hc.
    + exists e'. split; [reflexivity |]. left.
      unfold cycle in Hc. rewrite Hlist in Hc. unfold run_pool in Hc.
      destruct (concurrency o <? 1)%Z; [| discriminate]. congruence.
    + apply cycle_inr in Hc.
      destruct Hc as (pods' & Hlist' & _ & _ & [Hs Hactive] & Hrun).
      assert (pods' = pods) by congruence. subst pods'.
      destruct (settled st) as [[e' | ms] |] eqn:Hset.
      * exists e'. split; [reflexivity |]. right.
        destruct (inv_error Hs Hset) as (id & Hin).
        destruct (inv_rejected Hs _ _ Hin) as (pod' & Hd & Hf).
        exists id, pod'. split; [| assumption].
        apply (dispatched_in_pods o pods st id pod' Hs).
        now apply dispatches_In.
      * exfalso.
        destruct (inv_success Hs Hset) as (Hnil & _ & _).
        pose proof (dispatched_nth _ _ _ _ _ Hs Hnil Hnth) as Hd.
        destruct (inv_dispatched Hs _ _ Hd) as [H | [H | (e0 & H)]].
        -- rewrite Hrun in H. destruct H.
        -- destruct (inv_fulfil Hs _ H) as (pod' & ms' & Hd' & l0 & l1 & Hok).
           assert (pod = pod') by (eapply dispatched_unique; eauto).
           subst pod'.
           assert (Hsnd : snd (usage_fetch o k pod l0) = inr ms')
             by now rewrite Hok.
           rewrite (usage_fetch_outcome o k pod l0 []) in Hsnd.
           congruence.
        -- destruct (inv_reject Hs _ _ H) as (e' & He'). congruence.
      * exfalso. now apply Hactive.
  - intros st Hc. apply cycle_inr in Hc.
    destruct Hc as (pods' & _ & _ & _ & [Hs _] & _).
    exact (inv_quiet Hs).
Qed.

(** C4: in the trace of a cycle no usage fetch is ever dispatched for a pod
    whose phase is "Failed" or "Succeeded", whatever else the pod holds;
    every record of the cycle, and so every record [collectMetrics]
    returns, is a record of the successful usage fetch of a dispatched pod,
    whose phase is neither. *)
Theorem terminal_pods_skipped :
  forall o sched l st,
    cycle o sched l = inr st ->
    (forall id pod,
        status_phase pod = "Failed" \/ status_phase pod = "Succeeded" ->
        ~ In (Dispatch id pod) (trace st))
    /\ (forall m,
          In m (metrics st) ->
          exists id pod ms,
            In (Dispatch id pod) (trace st)
            /\ status_phase pod <> "Failed"
            /\ status_phase pod <> "Succeeded"
            /\ fetch_succeeds o id pod ms
            /\ In m ms)
    /\ (forall ms, collectMetrics o sched l = Some (inr ms) -> ms = metrics st).
Proof.
  intros o sched l st Hc. pose proof Hc as Hc'. apply cycle_inr in Hc'.
  destruct Hc' as (pods & Hlist & _ & _ & [Hs _] & _).
  split; [| split].
  - intros id pod Hterm Hin.
    pose proof (dispatched_in_pods _ _ _ _ _ Hs Hin) as Hp.
    destruct (listed_pods_not_terminal _ _ _ _ Hlist Hp) as [H1 H2].
    tauto.
  - intros m Hm.
    destruct (inv_metrics Hs _ Hm) as (id & pod & ms & Hd & Hok & Hin).
    apply dispatches_In in Hd.
    pose proof (dispatched_in_pods _ _ _ _ _ Hs Hd) as Hp.
    destruct (listed_pods_not_terminal _ _ _ _ Hlist Hp) as [H1 H2].
    exists id, pod, ms. auto.
  - intros ms Hres. unfold collectMetrics in Hres. rewrite Hc in Hres.
    now destruct (inv_success Hs Hres) as (_ & _ & ->).
Qed.

Lemma pool_fill_trace fuel c st :
  exists more, trace (pool_fill fuel c st) = trace st ++ more.
Proof.
  revert st. induction fuel as [| fuel IH]; intros st; cbn [pool_fill].
  - exists []. now rewrite app_nil_r.
  - destruct (Z.of_nat (length (running st)) <? c)%Z.
    + destruct (promiseProducer st) as [st' |] eqn:Hp.
      * destruct (IH st') as (more & ->).
        unfold promiseProducer in Hp.
        destruct (pop (allPods st)) as [[pod |] rest]; [| discriminate].
        inversion Hp; subst st'. cbn. unfold push.
        rewrite <- app_assoc. eauto.
      * exists []. cbn. now rewrite app_nil_r.
    + exists []. now rewrite app_nil_r.
Qed.

Lemma completion_dispatches_next o pods l st i id pod log' ms rest next :
  (1 <= concurrency o)%Z ->
  reachable o pods l st ->
  (forall id' e, ~ In (Reject id' e) (trace st)) ->
  nth_error (running st) i = Some (id, pod) ->
  usage_fetch o id pod (log st) = (log', inr ms) ->
  allPods st = rest ++ [next] ->
  exists more,
    trace (complete o i st)
    = trace st ++ Fulfil id :: Dispatch (started st) next :: more.
Proof.
  intros Hc Hreach Hnorej Hnth Hfetch Hpending.
  destruct (reachable_Stable _ _ _ _ Hc Hreach) as [Hs _].
  assert (Hset : settled st = None).
  { destruct (settled st) as [[e | ms'] |] eqn:Hset; [| | reflexivity].
    - destruct (inv_error Hs Hset) as (id' & Hin). now apply Hnorej in Hin.
    - destruct (inv_success Hs Hset) as (Hnil & _ & _).
      rewrite Hnil in Hpending. destruct rest; discriminate. }
  assert (Hdone : pool_done st = false).
  { destruct (pool_done st) eqn:Hd; [| reflexivity].
    apply (inv_done Hs) in Hd. rewrite Hd in Hpending.
    destruct rest; discriminate. }
  pose proof (remove_nth_length _ _ _ _ Hnth) as Hlen.
  pose proof (inv_bound Hs) as Hbound.
  assert (Hlt : (Z.of_nat (length (remove_nth i (running st)))
                 <? concurrency o)%Z = true).
  { apply Z.ltb_lt. lia. }
  rewrite complete_unfold, Hnth, Hfetch. cbv zeta. unfold active.
  cbn [settled].
  rewrite Hset. unfold pool_proceed. cbn [pool_done allPods]. rewrite Hdone.
  cbn [pool_fill running]. rewrite Hlt.
  unfold promiseProducer. cbn [allPods]. rewrite Hpending, pop_snoc.
  match goal with
  | |- context [pool_fill ?f ?c ?s] =>
      destruct (pool_fill_trace f c s) as (more & Hmore);
      set (st2 := pool_fill f c s) in *
  end.
  exists more.
  destruct (pool_done st2 && (length (running st2) =? 0)%nat);
    cbn [trace settle]; rewrite Hmore; cbn [trace started]; unfold push;
    rewrite <- !app_assoc; reflexivity.
Qed.

(** C7, amended: an omitted [concurrency] option of the server makes the
    handler collect with a concurrency of 10.  At every point of a cycle,
    that is after every prefix of its trace, the number of usage fetches in
    flight is at most the configured concurrency; the final state of a
    cycle is one of the states the event loop reaches.  In such a state
    where no fetch has been rejected so far, when a fetch in flight
    completes with records and a pod is still pending, that pod is
    dispatched right after the completion. *)
Theorem concurrency_bound :
  (forall so q,
      so_concurrency so = None ->
      concurrency (collect_options (Agent := Agent) so q) = 10%Z)
  /\ (forall o sched l st,
        cycle o sched l = inr st ->
        (exists pods,
            list_all_pods listPods o sched = inr pods
            /\ reachable o pods l st)
        /\ forall pre post,
            trace st = pre ++ post -> (in_flight pre <= concurrency o)%Z)
  /\ (forall o pods l st i id pod log' ms rest next,
        (1 <= concurrency o)%Z ->
        reachable o pods l st ->
        (forall id' e, ~ In (Reject id' e) (trace st)) ->
        nth_error (running st) i = Some (id, pod) ->
        usage_fetch o id pod (log st) = (log', inr ms) ->
        allPods st = rest ++ [next] ->
        exists more,
          trace (complete o i st)
          = trace st ++ Fulfil id :: Dispatch (started st) next :: more).
Proof.
  split; [| split].
  - intros so q H. unfold collect_options, server_concurrency. cbn.
    now rewrite H.
  - intros o sched l st Hc. apply cycle_inr in Hc.
    destruct Hc as (pods & Hlist & _ & Hreach & [Hs _] & _).
    split; [eauto |]. exact (inv_prefix Hs).
  - exact completion_dispatches_next.
Qed.

End CollectorFacts.

(** *** The server *)
Section ServerFacts.

Variable Agent : Type.
Variable encodeURIComponent : string -> string.
Variable Date_getTime : string -> number.
Variable parseMemory : string -> string + number.
Variable parseCpu : string -> string + number.
Variable network : nat -> Request Agent -> string + Response.
Variable listPods : ListPodsOptions Agent -> string + list PodInfo.
Variable serializeMetrics : list PrometheusMetric -> string.

(** C10: the schema of the route accepts a query with an integer
    [excitement], and two queries with the same [namespace] are treated
    alike whatever their [excitement]: the schema gives the same verdict,
    [collectMetrics] is called with the same options, and on the same
    upstream answers, schedule and log the handler replies the same. *)
Theorem excitement_ignored :
  (forall n z,
      querystring_schema {| q_namespace := n; q_excitement := Some z |}
      = querystring_schema {| q_namespace := n; q_excitement := None |})
  /\ (forall z,
        querystring_schema {| q_namespace := None; q_excitement := Some z |}
        = true)
  /\ (forall (so : ServerOptions Agent) q1 q2 sched l,
        q_namespace q1 = q_namespace q2 ->
        querystring_schema q1 = querystring_schema q2
        /\ collect_options so q1 = collect_options so q2
        /\ metrics_handler encodeURIComponent Date_getTime parseMemory
             parseCpu network listPods serializeMetrics so q1 sched l
           = metrics_handler encodeURIComponent Date_getTime parseMemory
               parseCpu network listPods serializeMetrics so q2 sched l).
Proof.
  split; [| split].
  - intros n z. reflexivity.
  - intros z. reflexivity.
  - intros so [n1 x1] [n2 x2] sched l H. cbn in H. subst n2.
    assert (Ho : collect_options so {| q_namespace := n1; q_excitement := x1 |}
                 = collect_options so
                     {| q_namespace := n1; q_excitement := x2 |})
      by reflexivity.
    split; [| split].
    + unfold querystring_schema. cbn. destruct x1, x2; reflexivity.
    + exact Ho.
    + unfold metrics_handler. now rewrite Ho.
Qed.

End ServerFacts.

(** *** The quantity parsers *)

Import QuantityParsers.














(** *** The properties at work on the small cluster *)

(** The fetch for [db] is answered with status 503. *)
Lemma status_check_iff_witness :
  exists response,
    Fixture.network 0
      (usage_request Fixture.encodeURIComponent
         (Fixture.options_for "prod" "db")) = inr response
    /\ status response = 503%Z
    /\ Fixture.fetch_pod (Fixture.options_for "prod" "db") []
       = ([], inl (StatusError 503 (url response))).
Proof.
  eexists. split; [reflexivity |]. split; [reflexivity |].
  pose proof (status_check_iff Fixture.Agent Fixture.encodeURIComponent
                Fixture.Date_getTime QuantityParsers.parseMemory
                QuantityParsers.parseCpu (Fixture.network 0)
                (Fixture.options_for "prod" "db") [] _ eq_refl) as H.
  cbv zeta in H. destruct H as (_ & H & _).
  apply H. right. left. vm_compute. reflexivity.
Defined.


(** The fetch for [web] succeeds and its records share the timestamp
    1577836800. *)
Lemma records_timestamp_labels_type_witness :
  exists response b l' ms,
    Fixture.network 0
      (usage_request Fixture.encodeURIComponent
         (Fixture.options_for "prod" "web")) = inr response
    /\ json response = inr (BodyObject b)
    /\ Fixture.fetch_pod (Fixture.options_for "prod" "web")
         [] = (l', inr ms)
    /\ length ms = 5
    /\ Forall (fun m =>
                 m_timestamp m = 1577836800%float
                 /\ map fst (labels m) = ["pod"; "container"; "namespace"]
                 /\ type m = "gauge") ms.
Proof.
  do 4 eexists. split; [reflexivity |]. split; [reflexivity |].
  split; [vm_compute; reflexivity |]. split; [reflexivity |].
  pose proof (records_timestamp_labels_type Fixture.Agent
                Fixture.encodeURIComponent Fixture.Date_getTime
                QuantityParsers.parseMemory QuantityParsers.parseCpu
                (Fixture.network 0) (Fixture.options_for "prod" "web")
                [] _ _ _ _ eq_refl eq_refl eq_refl) as H.
  eapply Forall_impl; [| exact H].
  intros m (Ht & Hl & _ & Hty). repeat split; assumption.
Defined.


(** The example of the specification: [api] uses 2^29 bytes against a
    limit of 2^28, so the rate record holds 2, and the warning is
    logged. *)
Lemma rate_value_and_warning_witness :
  exists response b l' ms,
    let o := Fixture.options_for "prod" "api" in
    let c := Fixture.app_usage "512Mi" "250m" in
    Fixture.network 0 (usage_request Fixture.encodeURIComponent o)
    = inr response
    /\ json response = inr (BodyObject b)
    /\ Fixture.fetch_pod o [] = (l', inr ms)
    /\ In c (containers b)
    /\ declares MemoryLimits (fm_pod o) c "256Mi"
    /\ In (gauge (fm_pod o) c "osmetrics_pod_memory_usage_limits_rate"
             "Pod Memory Usage" 2%float 1577836800%float) ms
    /\ (exists m,
          In m ms
          /\ name m = "osmetrics_pod_memory_usage_limits_rate"
          /\ labels m
             = [("pod", "api"); ("container", "app"); ("namespace", "prod")]
          /\ value m = 2%float)
    /\ In (rate_warning "osmetrics_pod_memory_usage_limits_rate" (fm_pod o) c
             "256Mi" 268435456%float 536870912%float 2%float) l'.
Proof.
  do 4 eexists. cbv zeta.
  assert (Hd : declares MemoryLimits
                 (fm_pod (Fixture.options_for "prod" "api"))
                 (Fixture.app_usage "512Mi" "250m") "256Mi").
  { do 3 eexists. repeat split; try reflexivity. discriminate. }
  split; [reflexivity |]. split; [reflexivity |].
  split; [vm_compute; reflexivity |]. split; [now left |].
  split; [exact Hd |].
  destruct (proj1 (rate_value_and_warning Fixture.Agent
                     Fixture.encodeURIComponent Fixture.Date_getTime
                     QuantityParsers.parseMemory QuantityParsers.parseCpu
                     (Fixture.network 0))
              (Fixture.options_for "prod" "api") [] _ _ _ _
              (Fixture.app_usage "512Mi" "250m") MemoryLimits "256Mi"
              eq_refl eq_refl eq_refl (or_introl eq_refl) Hd)
    as (mu & cu & spec & ws & Hmu & Hcu & Hspec & Hl & Hin & Hproj & Hw).
  vm_compute in Hmu. vm_compute in Hspec.
  injection Hmu as <-. injection Hspec as <-.
  split; [exact Hin |]. split; [exact Hproj |].
  pose proof (proj2 Hw eq_refl) as Hlogged.
  cbn [app] in Hl. rewrite <- Hl in Hlogged. exact Hlogged.
Defined.

(** In [prod] the fetch for [db], the first pod popped, fails: the
    collection fails. *)
Lemma fail_fast_witness :
  list_all_pods Fixture.listPods (Fixture.options "prod" 2) Fixture.fifo
  = inr Fixture.prod_pods
  /\ nth_error (rev Fixture.prod_pods) 0
     = Some (Fixture.pod "prod" "db" "Running")
  /\ snd (Fixture.usage (Fixture.options "prod" 2) 0
            (Fixture.pod "prod" "db" "Running") [])
     = inl (StatusError 503
              "https://openshift.example/apis/metrics.k8s.io/v1beta1/namespaces/prod/pods/db")
  /\ exists e',
       Fixture.collect (Fixture.options "prod" 2) Fixture.fifo []
       = Some (inl e').
Proof.
  split; [reflexivity |]. split; [reflexivity |]. split; [reflexivity |].
  destruct (fail_fast Fixture.Agent Fixture.encodeURIComponent
              Fixture.Date_getTime QuantityParsers.parseMemory
              QuantityParsers.parseCpu Fixture.network Fixture.listPods
              (Fixture.options "prod" 2) Fixture.fifo [] Fixture.prod_pods 0
              (Fixture.pod "prod" "db" "Running") _
              eq_refl eq_refl eq_refl) as [(e' & H & _) _].
  exists e'. exact H.
Defined.

(** In [prod] the pods [job] and [crashed] are never dispatched. *)
Lemma terminal_pods_skipped_witness :
  exists st,
    Fixture.run (Fixture.options "prod" 2) Fixture.fifo [] = inr st
    /\ (forall id,
          ~ In (Dispatch id (Fixture.pod "prod" "job" "Succeeded")) (trace st))
    /\ (forall id,
          ~ In (Dispatch id (Fixture.pod "prod" "crashed" "Failed"))
              (trace st)).
Proof.
  destruct (Fixture.run (Fixture.options "prod" 2) Fixture.fifo [])
    as [e | st] eqn:Hc.
  - vm_compute in Hc. discriminate.
  - exists st. split; [reflexivity |].
    pose proof (terminal_pods_skipped Fixture.Agent
                  Fixture.encodeURIComponent Fixture.Date_getTime
                  QuantityParsers.parseMemory QuantityParsers.parseCpu
                  Fixture.network Fixture.listPods
                  (Fixture.options "prod" 2) Fixture.fifo [] st Hc)
      as (H & _).
    split; intros id; apply H; [right | left]; reflexivity.
Defined.

(** In [staging] every fetch succeeds: at most two are in flight, and when
    the first one completes the third pod is dispatched. *)
Lemma concurrency_bound_witness :
  (exists st,
      Fixture.run (Fixture.options "staging" 2) Fixture.fifo [] = inr st
      /\ forall pre post,
          trace st = pre ++ post -> (in_flight pre <= 2)%Z)
  /\ (let o := Fixture.options "staging" 2 in
      let worker := Fixture.pod "staging" "worker" "Running" in
      let api := Fixture.pod "staging" "api" "Running" in
      let web := Fixture.pod "staging" "web" "Running" in
      let st := pool_proceed 2 (init_cycle [worker; api; web] []) in
      (1 <= concurrency o)%Z
      /\ (forall id' e, ~ In (Reject id' e) (trace st))
      /\ nth_error (running st) 0 = Some (0, web)
      /\ allPods st = [] ++ [worker]
      /\ exists more,
           trace
             (complete Fixture.encodeURIComponent Fixture.Date_getTime
                QuantityParsers.parseMemory QuantityParsers.parseCpu
                Fixture.network o 0 st)
           = trace st ++ Fulfil 0 :: Dispatch (started st) worker :: more).
Proof.
  pose proof (concurrency_bound Fixture.Agent Fixture.encodeURIComponent
                Fixture.Date_getTime QuantityParsers.parseMemory
                QuantityParsers.parseCpu Fixture.network Fixture.listPods)
    as (_ & Hbound & Hnext).
  split.
  - destruct (Fixture.run (Fixture.options "staging" 2) Fixture.fifo [])
      as [e | st] eqn:Hc.
    + vm_compute in Hc. discriminate.
    + exists st. split; [reflexivity |].
      exact (proj2 (Hbound _ _ _ _ Hc)).
  - cbv zeta.
    assert (Hnorej : forall id' e,
               ~ In (Reject id' e)
                   (trace
                      (pool_proceed 2
                         (init_cycle
                            [ Fixture.pod "staging" "worker" "Running";
                              Fixture.pod "staging" "api" "Running";
                              Fixture.pod "staging" "web" "Running" ] [])))).
    { intros id' e H. vm_compute in H.
      destruct H as [H | [H | []]]; discriminate. }
    split; [vm_compute; discriminate |]. split; [exact Hnorej |].
    split; [reflexivity |]. split; [reflexivity |].
    eapply (Hnext (Fixture.options "staging" 2) _ []).
    + vm_compute. discriminate.
    + apply reach_start.
    + exact Hnorej.
    + reflexivity.
    + vm_compute. reflexivity.
    + reflexivity.
Defined.

(** C7, as it is stated, fails in [prod] with a concurrency of 2: the first
    fetch to complete, for [db], is rejected; when the fetch for [api] then
    completes with records, [web] is still pending and is not
    dispatched. *)
Lemma completion_without_dispatch :
  ~ dispatches_on_every_completion Fixture.encodeURIComponent
      Fixture.Date_getTime QuantityParsers.parseMemory
      QuantityParsers.parseCpu Fixture.network (Fixture.options "prod" 2)
      Fixture.prod_pods [].
Proof.
  intros H.
  specialize (H (complete Fixture.encodeURIComponent Fixture.Date_getTime
                   QuantityParsers.parseMemory QuantityParsers.parseCpu
                   Fixture.network (Fixture.options "prod" 2) 0
                   (pool_proceed 2 (init_cycle Fixture.prod_pods [])))
                0 1 (Fixture.pod "prod" "api" "Running") []
                (Fixture.pod "prod" "web" "Running")).
  assert (Hin : In (Dispatch 2 (Fixture.pod "prod" "web" "Running"))
                  [ Dispatch 0 (Fixture.pod "prod" "db" "Running");
                    Dispatch 1 (Fixture.pod "prod" "api" "Running");
                    Reject 0
                      (StatusError 503
                         "https://openshift.example/apis/metrics.k8s.io/v1beta1/namespaces/prod/pods/db");
                    Fulfil 1 ]).
  { apply H.
    - apply reach_complete; [apply reach_start |]. vm_compute. lia.
    - reflexivity.
    - reflexivity. }
  cbn in Hin. destruct Hin as [Hin | [Hin | [Hin | [Hin | []]]]];
    discriminate.
Qed.


(** A request for [prod] with [excitement=7] is answered as the request
    without it. *)
Lemma excitement_ignored_witness :
  let q1 := {| q_namespace := Some (One "prod"); q_excitement := Some 7%Z |} in
  let q2 := {| q_namespace := Some (One "prod"); q_excitement := None |} in
  q_namespace q1 = q_namespace q2
  /\ metrics_handler Fixture.encodeURIComponent Fixture.Date_getTime
       QuantityParsers.parseMemory QuantityParsers.parseCpu Fixture.network
       Fixture.listPods Fixture.serialize Fixture.server_options q1
       Fixture.fifo []
     = metrics_handler Fixture.encodeURIComponent Fixture.Date_getTime
         QuantityParsers.parseMemory QuantityParsers.parseCpu Fixture.network
         Fixture.listPods Fixture.serialize Fixture.server_options q2
         Fixture.fifo [].
Proof.
  cbv zeta. split; [reflexivity |].
  destruct (excitement_ignored Fixture.Agent Fixture.encodeURIComponent
              Fixture.Date_getTime QuantityParsers.parseMemory
              QuantityParsers.parseCpu Fixture.network Fixture.listPods
              Fixture.serialize) as (_ & _ & H).
  exact (proj2 (proj2 (H Fixture.server_options
                         {| q_namespace := Some (One "prod");
                            q_excitement := Some 7%Z |}
                         {| q_namespace := Some (One "prod");
                            q_excitement := None |}
                         Fixture.fifo [] eq_refl))).
Defined.

(** *** Further runs on the small cluster *)

Lemma peak_from_ge cur peak t :
  (peak <= peak_from cur peak t)%Z.
Proof.
  revert cur peak. induction t as [| e t IH]; intros cur peak; cbn -[in_flight].
  - lia.
  - etransitivity; [| apply IH]. lia.
Qed.

(** The peak bounds the number in flight after every prefix. *)
Lemma peak_from_prefix cur peak t pre post :
  t = pre ++ post ->
  (cur <= peak)%Z ->
  (cur + in_flight pre <= peak_from cur peak t)%Z.
Proof.
  revert cur peak t. induction pre as [| e pre IH]; intros cur peak t -> Hle.
  - cbn. pose proof (peak_from_ge cur peak post). lia.
  - cbn [app peak_from].
    change (in_flight (e :: pre)) with (in_flight ([e] ++ pre)).
    rewrite in_flight_app, Z.add_assoc.
    apply IH; [reflexivity | lia].
Qed.

Lemma peak_in_flight_prefix t pre post :
  t = pre ++ post -> (in_flight pre <= peak_in_flight t)%Z.
Proof.
  intros H. apply (peak_from_prefix 0 0 t pre post H). lia.
Qed.

(** The example of the specification: ten pending pods and a concurrency
    of 3; at no point are more than three fetches in flight, and all ten
    are dispatched. *)
Example ten_pods_three_in_flight :
  exists st,
    Fixture.run (Fixture.options "fleet" 3) Fixture.fifo [] = inr st
    /\ peak_in_flight (trace st) = 3%Z
    /\ length (dispatches (trace st)) = 10
    /\ exists ms, settled st = Some (inr ms) /\ length ms = 50.
Proof.
  eexists. split; [vm_compute; reflexivity |].
  split; [reflexivity |]. split; [reflexivity |].
  eexists. split; reflexivity.
Qed.

(** The other example of the specification: [web] uses 2^27 bytes against
    a limit of 2^28, so the rate record holds one half and no warning is
    logged for it. *)
Example one_half_no_warning :
  exists l ms,
    let o := Fixture.options_for "prod" "web" in
    let c := Fixture.app_usage "128Mi" "250m" in
    Fixture.fetch_pod o [] = (l, inr ms)
    /\ In (gauge (fm_pod o) c "osmetrics_pod_memory_usage_limits_rate"
             "Pod Memory Usage" 0.5%float 1577836800%float) ms
    /\ ~ In (rate_warning "osmetrics_pod_memory_usage_limits_rate" (fm_pod o)
               c "256Mi" 268435456%float 134217728%float 0.5%float) l.
Proof.
  do 2 eexists. cbv zeta. split; [vm_compute; reflexivity |]. split.
  - right. right. left. reflexivity.
  - intros [H | []]. discriminate.
Qed.

(** A quantity that is the empty string is falsy: the program treats it as
    not declared. *)
Example empty_quantity_not_declared :
  declared limits memory
    (Some {| sc_name := "app";
             resources :=
               Some {| limits := Some {| memory := Some ""; cpu := None |};
                       requests := None |} |})
  = None.
Proof. reflexivity. Qed.

(** The whole cycle in [prod]: [db] and [api] are dispatched, [db] is
    rejected, [api] completes, [web] stays behind, and the result is the
    error of [db]. *)
Example prod_cycle_trace :
  exists st,
    Fixture.run (Fixture.options "prod" 2) Fixture.fifo [] = inr st
    /\ trace st
       = [ Dispatch 0 (Fixture.pod "prod" "db" "Running");
           Dispatch 1 (Fixture.pod "prod" "api" "Running");
           Reject 0
             (StatusError 503
                "https://openshift.example/apis/metrics.k8s.io/v1beta1/namespaces/prod/pods/db");
           Fulfil 1 ]
    /\ allPods st = [Fixture.pod "prod" "web" "Running"]
    /\ Fixture.collect (Fixture.options "prod" 2) Fixture.fifo []
       = Some (inl (StatusError 503
                      "https://openshift.example/apis/metrics.k8s.io/v1beta1/namespaces/prod/pods/db")).
Proof.
  eexists. split; [vm_compute; reflexivity |]. repeat split.
Qed.

(** A concurrency below 1 is refused before any fetch. *)
Example invalid_concurrency :
  Fixture.collect (Fixture.options "staging" 0) Fixture.fifo []
  = Some (inl (PoolError "Invalid concurrency")).
Proof. reflexivity. Qed.

(** ** The whole cycle, the log and the route *)

(** *** Completion order *)

Lemma fulfilled_app t u : fulfilled (t ++ u) = fulfilled t ++ fulfilled u.
Proof.
  induction t as [| [id pod | id | id e] t IH]; cbn; congruence.
Qed.

Lemma fulfilled_In t id : In id (fulfilled t) <-> In (Fulfil id) t.
Proof.
  induction t as [| [id' pod' | id' | id' e] t IH]; cbn.
  - tauto.
  - rewrite IH. split; [auto | intros [H | H]; [discriminate | auto]].
  - rewrite IH. split; intros [H | H]; auto; left; congruence.
  - rewrite IH. split; [auto | intros [H | H]; [discriminate | auto]].
Qed.

Lemma remove_nth_map (A B : Type) (f : A -> B) (l : list A) i :
  map f (remove_nth i l) = remove_nth i (map f l).
Proof.
  unfold remove_nth. now rewrite map_app, firstn_map, skipn_map.
Qed.

Lemma remove_nth_NoDup (A : Type) (l : list A) i :
  NoDup l -> NoDup (remove_nth i l).
Proof.
  unfold remove_nth. intros H.
  rewrite <- (firstn_skipn i l) in H.
  destruct (skipn i l) as [| x rest] eqn:Hs.
  - assert (skipn (S i) l = []) as ->.
    { apply skipn_all2. assert (length l <= i).
      { destruct (Nat.le_gt_cases (length l) i) as [Hle | Hgt]; [exact Hle |].
        exfalso. assert (Hlen : length (skipn i l) = length l - i)
          by apply length_skipn.
        rewrite Hs in Hlen. cbn in Hlen. lia. }
      lia. }
    exact H.
  - assert (skipn (S i) l = rest) as ->.
    { change (S i) with (1 + i). rewrite <- skipn_skipn, Hs. reflexivity. }
    eapply NoDup_remove_1; eauto.
Qed.

Lemma remove_nth_not_In (A : Type) (l : list A) i x :
  NoDup l -> nth_error l i = Some x -> ~ In x (remove_nth i l).
Proof.
  unfold remove_nth. intros Hnd Hnth.
  pose proof (nth_error_split l i Hnth) as (l1 & l2 & Hl & Hlen).
  subst l. rewrite firstn_app, <- Hlen, firstn_all, Nat.sub_diag in *.
  cbn [firstn]. rewrite app_nil_r.
  assert (skipn (S (length l1)) (l1 ++ x :: l2) = l2) as ->.
  { rewrite skipn_app, skipn_all2 by lia.
    replace (S (length l1) - length l1) with 1 by lia. reflexivity. }
  now apply NoDup_remove_2.
Qed.

Section TidyFacts.

Variable Agent : Type.
Variable encodeURIComponent : string -> string.
Variable Date_getTime : string -> number.
Variable parseMemory : string -> string + number.
Variable parseCpu : string -> string + number.
Variable network : nat -> Request Agent -> string + Response.
Variable o : Options Agent.
Variable pods : list PodInfo.
Hypothesis concurrency_valid : (1 <= concurrency o)%Z.

Local Abbreviation Sound :=
  (Sound encodeURIComponent Date_getTime parseMemory parseCpu network o pods).
Local Abbreviation Stable :=
  (Stable encodeURIComponent Date_getTime parseMemory parseCpu network o pods).
Local Abbreviation Tidy :=
  (Tidy encodeURIComponent Date_getTime parseMemory parseCpu network o pods).
Local Abbreviation records_of :=
  (records_of encodeURIComponent Date_getTime parseMemory parseCpu network o
     pods).
Local Abbreviation reachable :=
  (reachable encodeURIComponent Date_getTime parseMemory parseCpu network o
     pods).
Local Abbreviation usage_fetch :=
  (usage_fetch encodeURIComponent Date_getTime parseMemory parseCpu network o).
Local Abbreviation complete :=
  (complete encodeURIComponent Date_getTime parseMemory parseCpu network o).

(** A dispatched request is for the pod at its position, counted from the
    end of the pods of the cycle. *)
Lemma dispatched_is_nth st id pod :
  Sound st ->
  In (id, pod) (dispatches (trace st)) ->
  nth_error (rev pods) id = Some pod /\ id < started st.
Proof.
  intros Hs Hin. pose proof (inv_pods Hs) as Hp.
  pose proof (inv_ids Hs) as Hi.
  apply In_nth_error in Hin. destruct Hin as (j & Hj).
  assert (Hfst : nth_error (map fst (dispatches (trace st))) j = Some id).
  { rewrite nth_error_map, Hj. reflexivity. }
  assert (Hsnd : nth_error (map snd (dispatches (trace st))) j = Some pod).
  { rewrite nth_error_map, Hj. reflexivity. }
  rewrite Hi in Hfst.
  assert (Hlt : j < started st).
  { rewrite <- (length_seq (started st) 0). apply nth_error_Some. congruence. }
  rewrite nth_error_seq in Hfst. pose proof Hlt as Hltb.
  apply Nat.ltb_lt in Hltb. rewrite Hltb in Hfst. cbn in Hfst.
  inversion Hfst; subst id. split; [| assumption].
  rewrite Hp, rev_app_distr, rev_involutive.
  rewrite nth_error_app1; [assumption |].
  apply nth_error_Some. congruence.
Qed.

Lemma Tidy_init l : Tidy (init_cycle pods l).
Proof.
  constructor; cbn; try constructor; try (intros; contradiction);
    try reflexivity.
  intros e H. discriminate.
Qed.

Lemma Tidy_dispatch st st' :
  Tidy st -> settled st = None -> promiseProducer st = Some st' -> Tidy st'.
Proof.
  intros [Hrun Hst Hful Hfs Hdis Hmet Hfirst] Hactive Hprod.
  unfold promiseProducer in Hprod.
  destruct (pop (allPods st)) as [[pod |] rest]; [| discriminate].
  inversion Hprod; subst st'; clear Hprod.
  assert (Hf : fulfilled (trace st ++ [Dispatch (started st) pod])
               = fulfilled (trace st)).
  { rewrite fulfilled_app. cbn. now rewrite app_nil_r. }
  constructor; cbn; unfold push; rewrite ?Hf; auto.
  - rewrite map_app. cbn. apply NoDup_app; [assumption | | ].
    + repeat constructor. intros [].
    + intros id Hin [<- | []]. apply Hst in Hin. lia.
  - intros id Hin. rewrite map_app in Hin. apply in_app_or in Hin.
    destruct Hin as [Hin | Hin];
      [apply Hst in Hin | cbn in Hin; destruct Hin as [<- | []]]; lia.
  - intros id Hin. apply Hfs in Hin. lia.
  - intros id Hin. rewrite map_app in Hin. apply in_app_or in Hin.
    destruct Hin as [Hin | Hin]; [now apply Hdis |].
    cbn in Hin. destruct Hin as [<- | []].
    intros Hfu. apply Hfs in Hfu. lia.
  - intros e H. congruence.
Qed.

Lemma Tidy_set_done st : Tidy st -> Tidy (set_done st).
Proof.
  intros [Hrun Hst Hful Hfs Hdis Hmet Hfirst]. constructor; cbn; auto.
Qed.

Lemma Tidy_settle_fulfilled st : Tidy st -> Tidy (settle None st).
Proof.
  intros [Hrun Hst Hful Hfs Hdis Hmet Hfirst]. constructor; cbn; auto.
  intros e H. discriminate.
Qed.

Lemma Tidy_fulfil st i id pod log' ms :
  Sound st ->
  Tidy st ->
  nth_error (running st) i = Some (id, pod) ->
  usage_fetch id pod (log st) = (log', inr ms) ->
  Tidy {| allPods := allPods st;
          metrics := metrics st ++ ms;
          log := log';
          running := remove_nth i (running st);
          started := started st;
          pool_done := pool_done st;
          settled := settled st;
          trace := push (trace st) (Fulfil id) |}.
Proof.
  intros Hs [Hrun Hst Hful Hfs Hdis Hmet Hfirst] Hnth Hfetch.
  assert (Hid : nth_error (map fst (running st)) i = Some id).
  { rewrite nth_error_map, Hnth. reflexivity. }
  assert (Hin : In id (map fst (running st)))
    by (eapply nth_error_In; eauto).
  assert (Hrec : records_of id = ms).
  { unfold records_of.
    destruct (dispatched_is_nth st id pod Hs) as [Hpod _].
    { apply (inv_running Hs). eapply nth_error_In; eauto. }
    rewrite Hpod.
    rewrite (usage_fetch_outcome Agent encodeURIComponent Date_getTime
               parseMemory parseCpu network o id pod [] (log st)).
    now rewrite Hfetch. }
  assert (Hf : fulfilled (trace st ++ [Fulfil id])
               = fulfilled (trace st) ++ [id]).
  { rewrite fulfilled_app. reflexivity. }
  constructor; cbn; unfold push; rewrite ?Hf, ?remove_nth_map.
  - now apply remove_nth_NoDup.
  - intros id' H. apply remove_nth_In in H. auto.
  - apply NoDup_app; [assumption | repeat constructor; intros [] |].
    intros id' H [Heq | []]. subst id'. now apply (Hdis id).
  - intros id' H. apply in_app_or in H. destruct H as [H | [<- | []]]; auto.
  - intros id' H Hfu. apply in_app_or in Hfu.
    destruct Hfu as [Hfu | [<- | []]].
    + apply remove_nth_In in H. now apply (Hdis id').
    + exact (remove_nth_not_In _ _ _ _ Hrun Hid H).
  - rewrite map_app, concat_app, Hmet. cbn. now rewrite Hrec, app_nil_r.
  - intros e H. destruct (Hfirst e H) as (pre & id' & post & Ht & Hpre).
    exists pre, id', (post ++ [Fulfil id]). split; [| assumption].
    rewrite Ht, <- app_assoc. reflexivity.
Qed.

Lemma Tidy_reject st i id pod log' e :
  Sound st ->
  Tidy st ->
  nth_error (running st) i = Some (id, pod) ->
  let st1 := {| allPods := allPods st;
                metrics := metrics st;
                log := log';
                running := remove_nth i (running st);
                started := started st;
                pool_done := pool_done st;
                settled := settled st;
                trace := push (trace st) (Reject id e) |} in
  Tidy (if active st1 then settle (Some e) st1 else st1).
Proof.
  intros Hs [Hrun Hst Hful Hfs Hdis Hmet Hfirst] Hnth st1.
  assert (Hf : fulfilled (trace st ++ [Reject id e]) = fulfilled (trace st)).
  { rewrite fulfilled_app. cbn. now rewrite app_nil_r. }
  assert (Hsame : forall (A : Type) (f : Cycle -> A),
             (forall s, f (settle (Some e) s) = f s) ->
             f (if active st1 then settle (Some e) st1 else st1) = f st1).
  { intros A f Hfs'. destruct (active st1); auto. }
  constructor;
    try rewrite (Hsame _ metrics (fun _ => eq_refl));
    try rewrite (Hsame _ running (fun _ => eq_refl));
    try rewrite (Hsame _ started (fun _ => eq_refl));
    try rewrite (Hsame _ trace (fun _ => eq_refl));
    subst st1; cbn; unfold push; rewrite ?Hf, ?remove_nth_map; auto.
  - now apply remove_nth_NoDup.
  - intros id' H. apply remove_nth_In in H. auto.
  - intros id' H. apply remove_nth_In in H. auto.
  - unfold active. cbn.
    destruct (settled st) as [r |] eqn:Hset; cbn.
    + intros e0 H. destruct (Hfirst e0 H) as (pre & id' & post & Ht & Hpre).
      exists pre, id', (post ++ [Reject id e]). split; [| assumption].
      rewrite Ht, <- app_assoc. reflexivity.
    + intros e0 H. inversion H; subst e0.
      exists (trace st), id, []. split; [reflexivity |].
      intros id' e' Hin. destruct (inv_reject Hs _ _ Hin) as (e'' & He'').
      congruence.
Qed.

Lemma pool_fill_Tidy fuel st :
  Tidy st ->
  settled st = None ->
  Tidy (pool_fill fuel (concurrency o) st).
Proof.
  revert st. induction fuel as [| fuel IH]; intros st Ht Ha; cbn [pool_fill].
  - assumption.
  - destruct (Z.of_nat (length (running st)) <? concurrency o)%Z;
      [| assumption].
    destruct (promiseProducer st) as [st' |] eqn:Hp.
    + apply IH.
      * eapply Tidy_dispatch; eauto.
      * destruct (promiseProducer_some _ _ Hp) as (Hs' & _). congruence.
    + now apply Tidy_set_done.
Qed.

Lemma pool_proceed_Tidy st :
  Tidy st ->
  settled st = None ->
  Tidy (pool_proceed (concurrency o) st).
Proof.
  intros Ht Ha. unfold pool_proceed.
  set (st1 := if pool_done st then st
              else pool_fill (S (length (allPods st))) (concurrency o) st).
  assert (H1 : Tidy st1).
  { subst st1. destruct (pool_done st); [assumption |].
    now apply pool_fill_Tidy. }
  destruct (pool_done st1 && (length (running st1) =? 0)%nat);
    [now apply Tidy_settle_fulfilled | assumption].
Qed.

Lemma complete_Tidy st i :
  Stable st -> Tidy st -> Tidy (complete i st).
Proof.
  intros [Hs Hr] Ht. rewrite complete_unfold. cbv zeta.
  destruct (nth_error (running st) i) as [[id pod] |] eqn:Hnth;
    [| assumption].
  destruct (usage_fetch id pod (log st)) as [log' [e | ms]] eqn:Hf.
  - exact (Tidy_reject st i id pod log' e Hs Ht Hnth).
  - pose proof (Tidy_fulfil _ _ _ _ _ _ Hs Ht Hnth Hf) as H1.
    match goal with
    | |- context [if active ?s then _ else _] => set (st1 := s) in *
    end.
    unfold active. destruct (settled st1) eqn:Ha; [assumption |].
    now apply pool_proceed_Tidy.
Qed.

Lemma reachable_Tidy l st : reachable l st -> Tidy st.
Proof.
  intros Hreach. induction Hreach as [| st i Hreach IH Hi].
  - apply pool_proceed_Tidy; [apply Tidy_init | reflexivity].
  - apply complete_Tidy; [| assumption].
    eapply reachable_Stable; eauto.
Qed.

End TidyFacts.

(** *** Listing the pods *)

Lemma rejections_In (A : Type) (rs : list (exn + A)) e :
  In e (rejections rs) <-> In (inl e) rs.
Proof.
  induction rs as [| [e' | a] rs IH]; cbn.
  - tauto.
  - rewrite IH. split; intros [H | H]; auto; left; congruence.
  - rewrite IH. split; [auto | intros [H | H]; [discriminate | auto]].
Qed.

Lemma rejections_nil (A : Type) (rs : list (exn + A)) :
  rejections rs = [] -> rs = map inr (fulfilments rs).
Proof.
  induction rs as [| [e | a] rs IH]; cbn; intros H.
  - reflexivity.
  - discriminate.
  - now rewrite <- IH.
Qed.

Lemma rejections_map_inr (A : Type) (vs : list A) :
  rejections (map (@inr exn A) vs) = [].
Proof. induction vs; cbn; auto. Qed.

Lemma fulfilments_map_inr (A : Type) (vs : list A) :
  fulfilments (map (@inr exn A) vs) = vs.
Proof. induction vs; cbn; congruence. Qed.

Lemma Promise_all_inr (A : Type) race (rs : list (exn + A)) vs :
  Promise_all race rs = inr vs <-> rs = map inr vs.
Proof.
  unfold Promise_all. split.
  - destruct (rejections rs) as [| e es] eqn:Hr; [| discriminate].
    intros H. inversion H; subst vs. now apply rejections_nil.
  - intros ->. now rewrite rejections_map_inr, fulfilments_map_inr.
Qed.

Lemma Promise_all_inl (A : Type) race (rs : list (exn + A)) e :
  Promise_all race rs = inl e -> In (inl e) rs.
Proof.
  unfold Promise_all.
  destruct (rejections rs) as [| e0 es] eqn:Hr; [discriminate |].
  intros H.
  assert (He : e = nth (race mod length (e0 :: es)) (e0 :: es) e0)
    by congruence.
  apply rejections_In. rewrite Hr, He.
  apply nth_In. apply Nat.mod_upper_bound. cbn. lia.
Qed.

Lemma Promise_all_rejects (A : Type) race (rs : list (exn + A)) e :
  In (inl e) rs -> exists e', Promise_all race rs = inl e'.
Proof.
  unfold Promise_all. intros H. apply rejections_In in H.
  destruct (rejections rs) as [| e0 es]; [destruct H | eauto].
Qed.

Lemma fold_left_concat (A : Type) (pss : list (list A)) acc :
  fold_left (fun accum pods => accum ++ pods) pss acc = acc ++ concat pss.
Proof.
  revert acc. induction pss as [| ps pss IH]; intros acc; cbn.
  - now rewrite app_nil_r.
  - now rewrite IH, app_assoc.
Qed.

Section ListingFacts.

Variable Agent : Type.
Variable listPods : ListPodsOptions Agent -> string + list PodInfo.

Lemma list_all_pods_inr o sched pods :
  list_all_pods listPods o sched = inr pods <->
  exists nss pss,
    namespace o = Some nss
    /\ Forall2 (fun ns ps => listPods (listing_options o ns) = inr ps) nss pss
    /\ pods = filter not_terminal (concat pss).
Proof.
  unfold list_all_pods. split.
  - destruct (namespace o) as [nss |]; [| discriminate].
    destruct (Promise_all _ _) as [e | pss] eqn:Hall; [discriminate |].
    intros H. inversion H; subst pods. exists nss, pss.
    split; [reflexivity |]. split.
    + apply Promise_all_inr in Hall. clear H.
      revert pss Hall. induction nss as [| ns nss IH]; intros [| ps pss] Hall;
        cbn in Hall; try discriminate; constructor.
      * unfold listing_options.
        destruct (listPods _) as [m | ps']; [discriminate |].
        inversion Hall. reflexivity.
      * apply IH. now inversion Hall.
    + now rewrite fold_left_concat.
  - intros (nss & pss & -> & Hall & ->).
    assert (Hmap : map (fun ns =>
                          match listPods {| lp_osApi := osApi o;
                                            lp_namespace := ns;
                                            lp_accessToken := accessToken o;
                                            lp_agent := agent o |} with
                          | inl m => inl (ListPodsError m)
                          | inr pods => inr pods
                          end) nss = map inr pss).
    { induction Hall as [| ns ps nss pss Hns _ IH]; cbn; [reflexivity |].
      unfold listing_options in Hns. now rewrite Hns, IH. }
    rewrite Hmap.
    assert (Hp : Promise_all (race sched) (map (@inr exn _) pss) = inr pss)
      by now apply Promise_all_inr.
    rewrite Hp. now rewrite fold_left_concat.
Qed.

End ListingFacts.

(** *** What a cycle returns *)

Lemma first_reject_unique pre id e post pre' id' e' post' :
  pre ++ Reject id e :: post = pre' ++ Reject id' e' :: post' ->
  no_reject pre ->
  no_reject pre' ->
  id = id' /\ e = e'.
Proof.
  revert pre'. induction pre as [| x pre IH]; intros [| x' pre'] H Hn Hn';
    cbn in H.
  - inversion H. auto.
  - inversion H; subst x'. exfalso. apply (Hn' id e). now left.
  - inversion H; subst x. exfalso. apply (Hn id' e'). now left.
  - inversion H; subst x'. apply (IH pre'); [assumption | |].
    + intros i0 e0 Hin. apply (Hn i0 e0). now right.
    + intros i0 e0 Hin. apply (Hn' i0 e0). now right.
Qed.

Section CollectorMore.

Variable Agent : Type.
Variable encodeURIComponent : string -> string.
Variable Date_getTime : string -> number.
Variable parseMemory : string -> string + number.
Variable parseCpu : string -> string + number.
Variable network : nat -> Request Agent -> string + Response.
Variable listPods : ListPodsOptions Agent -> string + list PodInfo.

Local Abbreviation Sound :=
  (Sound encodeURIComponent Date_getTime parseMemory parseCpu network).
Local Abbreviation Tidy :=
  (Tidy encodeURIComponent Date_getTime parseMemory parseCpu network).
Local Abbreviation records_of :=
  (records_of encodeURIComponent Date_getTime parseMemory parseCpu network).
Local Abbreviation reachable :=
  (reachable encodeURIComponent Date_getTime parseMemory parseCpu network).
Local Abbreviation usage_fetch :=
  (usage_fetch encodeURIComponent Date_getTime parseMemory parseCpu network).
Local Abbreviation fetch_fails :=
  (fetch_fails encodeURIComponent Date_getTime parseMemory parseCpu network).
Local Abbreviation cycle :=
  (cycle encodeURIComponent Date_getTime parseMemory parseCpu network
     listPods).
Local Abbreviation collectMetrics :=
  (collectMetrics encodeURIComponent Date_getTime parseMemory parseCpu
     network listPods).

(** What the final state of a cycle holds. *)
Lemma cycle_final o sched l st :
  cycle o sched l = inr st ->
  exists pods,
    list_all_pods listPods o sched = inr pods
    /\ Sound o pods st /\ Tidy o pods st /\ running st = []
    /\ collectMetrics o sched l = settled st
    /\ settled st <> None.
Proof.
  intros Hc. pose proof Hc as Hc'. apply cycle_inr in Hc'.
  destruct Hc' as (pods & Hlist & Hconc & Hreach & [Hs Hact] & Hrun).
  exists pods. split; [assumption |]. split; [assumption |].
  split; [eapply reachable_Tidy; eauto |]. split; [assumption |].
  split.
  - unfold collectMetrics. now rewrite Hc.
  - intros Hnone. now apply Hact.
Qed.

Lemma collect_inr_cycle o sched l ms :
  collectMetrics o sched l = Some (inr ms) ->
  exists st, cycle o sched l = inr st /\ settled st = Some (inr ms).
Proof.
  unfold collectMetrics. destruct (cycle o sched l) as [e | st] eqn:Hc.
  - discriminate.
  - intros H. eauto.
Qed.

(** A cycle that ends in success has fulfilled every request, one per pod. *)
Lemma success_all_fulfilled o pods st ms :
  Sound o pods st ->
  Tidy o pods st ->
  running st = [] ->
  settled st = Some (inr ms) ->
  started st = length pods
  /\ (forall k pod,
        nth_error (rev pods) k = Some pod ->
        In k (fulfilled (trace st))
        /\ snd (usage_fetch o k pod []) = inr (records_of o pods k))
  /\ (forall k, In k (fulfilled (trace st)) -> k < length pods).
Proof.
  intros Hs Ht Hrun Hset.
  destruct (inv_success Hs Hset) as (Hnil & _ & _).
  assert (Hstarted : started st = length pods).
  { pose proof (inv_pods Hs) as Hp. pose proof (inv_ids Hs) as Hi.
    rewrite Hnil in Hp. cbn in Hp.
    rewrite Hp, length_rev, length_map, <- (length_map fst), Hi, length_seq.
    reflexivity. }
  split; [assumption |]. split.
  - intros k pod Hnth.
    pose proof (dispatched_nth _ _ _ _ _ _ _ _ _ _ _ Hs Hnil Hnth) as Hd.
    destruct (inv_dispatched Hs _ _ Hd) as [H | [H | (e0 & H)]].
    + rewrite Hrun in H. destruct H.
    + split; [now apply fulfilled_In |].
      destruct (inv_fulfil Hs _ H) as (pod' & ms' & Hd' & l0 & l1 & Hok).
      assert (pod = pod')
        by (eapply dispatched_unique; [exact Hs | exact Hd | exact Hd']).
      subst pod'. unfold records_of. rewrite Hnth.
      rewrite (usage_fetch_outcome Agent encodeURIComponent Date_getTime
                 parseMemory parseCpu network o k pod [] l0), Hok.
      reflexivity.
    + destruct (inv_reject Hs _ _ H) as (e' & He'). congruence.
  - intros k Hk. apply fulfilled_In in Hk.
    destruct (inv_fulfil Hs _ Hk) as (pod & ms' & Hd & _).
    destruct (dispatched_is_nth _ _ _ _ _ _ _ _ _ _ _ Hs Hd) as [_ Hlt].
    lia.
Qed.

(** X1: when [collectMetrics] returns, the usage fetch of every pod of the
    cycle has succeeded, and the result is the concatenation of the records
    of the pods, each pod once and as a block, in the order in which the
    fetches completed: the order of the [Fulfil] events in the trace of
    the cycle. *)
Theorem success_concatenates_every_pod :
  forall o sched l st ms,
    cycle o sched l = inr st ->
    collectMetrics o sched l = Some (inr ms) ->
    exists pods,
      list_all_pods listPods o sched = inr pods
      /\ Permutation (fulfilled (trace st)) (seq 0 (length pods))
      /\ ms = concat (map (records_of o pods) (fulfilled (trace st)))
      /\ forall k pod,
           nth_error (rev pods) k = Some pod ->
           snd (usage_fetch o k pod []) = inr (records_of o pods k).
Proof.
  intros o sched l st ms Hc Hres.
  assert (Hset : settled st = Some (inr ms)).
  { unfold collectMetrics in Hres. now rewrite Hc in Hres. }
  destruct (cycle_final _ _ _ _ Hc) as (pods & Hlist & Hs & Ht & Hrun & _).
  destruct (success_all_fulfilled _ _ _ _ Hs Ht Hrun Hset)
    as (Hstarted & Hall & Hlt).
  exists pods.
  split; [assumption |]. split; [| split].
  - apply NoDup_Permutation.
    + exact (tidy_fulfilled Ht).
    + apply seq_NoDup.
    + intros k. rewrite in_seq. split.
      * intros Hk. apply Hlt in Hk. lia.
      * intros [_ Hk]. cbn in Hk.
        destruct (nth_error (rev pods) k) as [pod |] eqn:Hnth.
        -- now destruct (Hall k pod Hnth).
        -- apply nth_error_None in Hnth. rewrite length_rev in Hnth. lia.
  - destruct (inv_success Hs Hset) as (_ & _ & ->). exact (tidy_metrics Ht).
  - intros k pod Hnth. now destruct (Hall k pod Hnth).
Qed.

(** X2: after a successful cycle the records of every pod that is listed in
    a requested namespace and is not in a terminal phase are in the
    result. *)
Theorem every_listed_pod_reported :
  forall o sched l ms nss ns ps pod,
    collectMetrics o sched l = Some (inr ms) ->
    namespace o = Some nss ->
    In ns nss ->
    listPods (listing_options o ns) = inr ps ->
    In pod ps ->
    status_phase pod <> "Failed" ->
    status_phase pod <> "Succeeded" ->
    exists k records,
      snd (usage_fetch o k pod []) = inr records
      /\ forall m, In m records -> In m ms.
Proof.
  intros o sched l ms nss ns ps pod Hres Hns Hin Hps Hpod Hf Hsu.
  destruct (collect_inr_cycle _ _ _ _ Hres) as (st & Hc & Hset).
  destruct (cycle_final _ _ _ _ Hc) as (pods & Hlist & Hs & Ht & Hrun & _).
  destruct (success_all_fulfilled _ _ _ _ Hs Ht Hrun Hset)
    as (Hstarted & Hall & Hlt).
  assert (Hlisted : In pod pods).
  { apply list_all_pods_inr in Hlist.
    destruct Hlist as (nss' & pss & Hns' & Hall2 & ->).
    assert (nss' = nss) by congruence. subst nss'.
    destruct (Forall2_In_l _ _ _ _ _ _ Hall2 Hin) as (ps' & Hps' & Hl).
    assert (ps' = ps) by congruence. subst ps'.
    apply filter_In. split.
    - apply in_concat. eauto.
    - unfold not_terminal. apply andb_true_iff.
      split; apply negb_true_iff, String.eqb_neq; assumption. }
  apply in_rev in Hlisted. apply In_nth_error in Hlisted.
  destruct Hlisted as (k & Hk). destruct (Hall k pod Hk) as [Hful Hok].
  exists k, (records_of o pods k). split; [assumption |].
  intros m Hm. destruct (inv_success Hs Hset) as (_ & _ & ->).
  rewrite (tidy_metrics Ht). apply in_concat.
  exists (records_of o pods k). split; [| assumption].
  now apply in_map.
Qed.

(** X3: the pods of a cycle are fetched from the last one listed to the
    first: in the trace, the pods dispatched, followed by the pods still
    pending last first, are the listed pods in reverse, and the requests
    are numbered [0, 1, ...] in the order of their dispatch.  So no pod is
    fetched twice, and after a success every pod has been fetched. *)
Theorem dispatch_in_reverse_listing_order :
  forall o sched l st,
    cycle o sched l = inr st ->
    exists pods,
      list_all_pods listPods o sched = inr pods
      /\ map snd (dispatches (trace st)) ++ rev (allPods st) = rev pods
      /\ map fst (dispatches (trace st))
         = seq 0 (length (dispatches (trace st)))
      /\ (forall ms, settled st = Some (inr ms) -> allPods st = []).
Proof.
  intros o sched l st Hc.
  destruct (cycle_final _ _ _ _ Hc) as (pods & Hlist & Hs & _).
  exists pods. split; [assumption |]. split; [| split].
  - pose proof (inv_pods Hs) as Hp. rewrite Hp at 1.
    now rewrite rev_app_distr, rev_involutive.
  - rewrite <- (length_map fst), (inv_ids Hs), length_seq.
    reflexivity.
  - intros ms Hset. now destruct (inv_success Hs Hset).
Qed.

(** X4: a cycle fails with exactly the error of the fetch that is rejected
    first, in the order of completion; later rejections and completions do
    not change the outcome.  That error is the failure of the usage fetch
    of a listed pod. *)
Theorem first_rejection_wins :
  forall o sched l st,
    cycle o sched l = inr st ->
    (forall e,
        collectMetrics o sched l = Some (inl e)
        <-> exists pre id post,
              trace st = pre ++ Reject id e :: post /\ no_reject pre)
    /\ (forall e,
          collectMetrics o sched l = Some (inl e) ->
          exists pods id pod,
            list_all_pods listPods o sched = inr pods
            /\ nth_error (rev pods) id = Some pod
            /\ fetch_fails o id pod e).
Proof.
  intros o sched l st Hc.
  destruct (cycle_final _ _ _ _ Hc)
    as (pods & Hlist & Hs & Ht & Hrun & Hres & _).
  rewrite Hres. split.
  - intros e. split.
    + intros He. exact (tidy_first Ht He).
    + intros (pre & id & post & Htr & Hpre).
      assert (Hin : In (Reject id e) (trace st)).
      { rewrite Htr. apply in_or_app. right. now left. }
      destruct (inv_reject Hs _ _ Hin) as (e' & He').
      destruct (tidy_first Ht He') as (pre' & id' & post' & Htr' & Hpre').
      rewrite Htr in Htr'.
      destruct (first_reject_unique _ _ _ _ _ _ _ _ Htr' Hpre Hpre')
        as [_ <-].
      assumption.
  - intros e He. destruct (inv_error Hs He) as (id & Hin).
    destruct (inv_rejected Hs _ _ Hin) as (pod & Hd & Hfail).
    exists pods, id, pod. split; [assumption |]. split; [| assumption].
    now destruct (dispatched_is_nth _ _ _ _ _ _ _ _ _ _ _ Hs Hd).
Qed.

Lemma listings_exist (o : Options Agent) (P : list PodInfo -> Prop) nss :
  (forall ns, In ns nss ->
     exists ps, listPods (listing_options o ns) = inr ps /\ P ps) ->
  exists pss,
    Forall2 (fun ns ps => listPods (listing_options o ns) = inr ps) nss pss
    /\ Forall P pss.
Proof.
  induction nss as [| ns nss IH]; intros H.
  - exists []. split; constructor.
  - destruct (H ns (or_introl eq_refl)) as (ps & Hps & HP).
    destruct IH as (pss & Hall & HPs).
    { intros ns' Hin. apply H. now right. }
    exists (ps :: pss). split; constructor; assumption.
Qed.

Lemma filter_nil (A : Type) (f : A -> bool) (xs : list A) :
  (forall x, In x xs -> f x = false) -> filter f xs = [].
Proof.
  induction xs as [| x xs IH]; intros H; cbn.
  - reflexivity.
  - rewrite (H x (or_introl eq_refl)). apply IH.
    intros y Hy. apply H. now right.
Qed.

(** X5: when every pod listed in the requested namespaces is in a terminal
    phase, and so also when the namespaces hold no pod or none is
    requested, the cycle succeeds with no record: it issues no usage
    request and logs nothing. *)
Theorem nothing_to_fetch :
  forall o sched l nss,
    (1 <= concurrency o)%Z ->
    namespace o = Some nss ->
    (forall ns, In ns nss ->
       exists ps,
         listPods (listing_options o ns) = inr ps
         /\ forall pod, In pod ps ->
              status_phase pod = "Failed" \/ status_phase pod = "Succeeded") ->
    collectMetrics o sched l = Some (inr [])
    /\ collectMetrics_log encodeURIComponent Date_getTime parseMemory
         parseCpu network listPods o sched l = l
    /\ exists st, cycle o sched l = inr st /\ trace st = [].
Proof.
  intros o sched l nss Hconc Hns Hall.
  destruct (listings_exist o _ nss Hall) as (pss & Hall2 & Hterm).
  assert (Hlist : list_all_pods listPods o sched = inr []).
  { apply list_all_pods_inr. exists nss, pss.
    split; [assumption |]. split; [assumption |].
    symmetry. apply filter_nil. intros pod Hin.
    apply in_concat in Hin. destruct Hin as (ps & Hps & Hin).
    rewrite Forall_forall in Hterm.
    unfold not_terminal.
    destruct (Hterm ps Hps pod Hin) as [-> | ->]; reflexivity. }
  assert (Hc : cycle o sched l
               = inr (settle None (set_done (init_cycle [] l)))).
  { unfold cycle. rewrite Hlist. unfold run_pool.
    assert (Hlt : (concurrency o <? 1)%Z = false) by (apply Z.ltb_ge; lia).
    rewrite Hlt. cbn [length drain]. unfold pool_proceed.
    cbn [init_cycle pool_done allPods length pool_fill running].
    assert (Hlt' : (Z.of_nat 0 <? concurrency o)%Z = true)
      by (apply Z.ltb_lt; lia).
    rewrite Hlt'. reflexivity. }
  unfold collectMetrics, collectMetrics_log. rewrite Hc. cbn.
  split; [reflexivity |]. split; [reflexivity |]. eauto.
Qed.

(** X6: when listing the pods of a requested namespace fails, the cycle
    fails before any usage request is made, with the error of a namespace
    whose listing failed; which one, if there are several, is decided by
    the race between the listings. *)
Theorem listing_failure_aborts_cycle :
  forall o sched l nss ns m,
    namespace o = Some nss ->
    In ns nss ->
    listPods (listing_options o ns) = inl m ->
    exists ns' m',
      In ns' nss
      /\ listPods (listing_options o ns') = inl m'
      /\ cycle o sched l = inl (ListPodsError m')
      /\ collectMetrics o sched l = Some (inl (ListPodsError m'))
      /\ collectMetrics_log encodeURIComponent Date_getTime parseMemory
           parseCpu network listPods o sched l = l.
Proof.
  intros o sched l nss ns m Hns Hin Hfail.
  set (f := fun ns0 : string =>
              match listPods (listing_options o ns0) with
              | inl m0 => inl (ListPodsError m0)
              | inr pods => inr pods
              end).
  assert (Hrej : In (inl (ListPodsError m)) (map f nss)).
  { apply in_map_iff. exists ns. split; [| assumption].
    unfold f. now rewrite Hfail. }
  destruct (Promise_all_rejects _ (race sched) _ _ Hrej) as (e' & He').
  pose proof (Promise_all_inl _ _ _ _ He') as Hin'.
  apply in_map_iff in Hin'. destruct Hin' as (ns' & Hf & Hin').
  unfold f in Hf.
  destruct (listPods (listing_options o ns')) as [m' |] eqn:Hm';
    [| discriminate].
  assert (e' = ListPodsError m') by congruence. subst e'.
  assert (Hc : cycle o sched l = inl (ListPodsError m')).
  { unfold cycle, list_all_pods. rewrite Hns.
    change (map _ nss) with (map f nss). now rewrite He'. }
  exists ns', m'. unfold collectMetrics, collectMetrics_log. rewrite Hc.
  auto.
Qed.

End CollectorMore.

(** *** Parse failures and the log of a usage fetch *)

Lemma rate_block_eq pod c ts metric help parse quantity usage acc l :
  rate_block pod c ts metric help parse quantity usage acc l
  = match quantity with
    | None => (l, inr acc)
    | Some q =>
        match parse q with
        | inl m => (l, inl (ParseError m))
        | inr spec =>
            (if (1 <? usage / spec)%float
             then l ++ [rate_warning metric pod c q spec usage
                          (usage / spec)%float]
             else l,
             inr (acc ++ [gauge pod c metric help (usage / spec)%float ts]))
        end
    end.
Proof.
  unfold rate_block. destruct quantity as [q |]; [| reflexivity].
  unfold bind, call. destruct (parse q) as [m | spec]; cbn; [reflexivity |].
  destruct (1 <? usage / spec)%float; reflexivity.
Qed.

Lemma first_parse_error_app qs rs :
  first_parse_error (qs ++ rs)
  = match first_parse_error qs with
    | Some m => Some m
    | None => first_parse_error rs
    end.
Proof.
  induction qs as [| [parse q] qs IH]; cbn; [reflexivity |].
  destruct (parse q); [reflexivity | assumption].
Qed.

Lemma forEach_container_parse parseMemory parseCpu pod ts c acc l :
  match first_parse_error (container_quantities parseMemory parseCpu pod c)
  with
  | Some m =>
      exists l',
        forEach_container parseMemory parseCpu pod ts c acc l
        = (l', inl (ParseError m))
  | None =>
      exists l' acc',
        forEach_container parseMemory parseCpu pod ts c acc l
        = (l', inr acc')
  end.
Proof.
  unfold forEach_container, container_quantities, rate_block, bind, call,
    throw, ret, warn.
  cbn [first_parse_error flat_map app rate_resources rate_property
         rate_parser].
  repeat (match goal with
          | |- context [parseMemory ?q] => destruct (parseMemory q)
          | |- context [parseCpu ?q] => destruct (parseCpu q)
          | |- context [declared ?r ?p ?sc] => destruct (declared r p sc)
          | |- context [(1 <? ?x)%float] => destruct (1 <? x)%float
          end; cbn [first_parse_error app]);
    eauto.
Qed.

Lemma forEach_containers_parse parseMemory parseCpu pod ts cs acc l :
  match first_parse_error
          (flat_map (container_quantities parseMemory parseCpu pod) cs)
  with
  | Some m =>
      exists l',
        forEach (forEach_container parseMemory parseCpu pod ts) cs acc l
        = (l', inl (ParseError m))
  | None =>
      exists l' acc',
        forEach (forEach_container parseMemory parseCpu pod ts) cs acc l
        = (l', inr acc')
  end.
Proof.
  revert acc l. induction cs as [| c cs IH]; intros acc l.
  - cbn. unfold ret. eauto.
  - cbn [flat_map forEach]. rewrite first_parse_error_app.
    pose proof (forEach_container_parse parseMemory parseCpu pod ts c acc l)
      as Hc.
    destruct (first_parse_error
                (container_quantities parseMemory parseCpu pod c)) as [m |].
    + destruct Hc as (l' & Hc). exists l'. unfold bind. now rewrite Hc.
    + destruct Hc as (l' & acc' & Hc). unfold bind. rewrite Hc.
      apply IH.
Qed.

Lemma logs_only_ret P (A : Type) (a : A) : logs_only P (ret a).
Proof. intros l. exists []. cbn. now rewrite app_nil_r. Qed.

Lemma logs_only_throw P (A : Type) (e : exn) : logs_only P (@throw A e).
Proof. intros l. exists []. cbn. now rewrite app_nil_r. Qed.

Lemma logs_only_call P (A : Type) wrap (r : string + A) :
  logs_only P (call wrap r).
Proof.
  destruct r; cbn; [apply logs_only_throw | apply logs_only_ret].
Qed.

Lemma logs_only_warn (P : Warning -> Prop) w : P w -> logs_only P (warn w).
Proof. intros H l. exists [w]. cbn. auto. Qed.

Lemma logs_only_bind P (A B : Type) (c : M A) (k : A -> M B) :
  logs_only P c -> (forall a, logs_only P (k a)) -> logs_only P (bind c k).
Proof.
  intros Hc Hk l. unfold bind. destruct (Hc l) as (ws & Hl & Hws).
  destruct (c l) as [l1 [e | a]]; cbn in Hl; subst l1.
  - exists ws. auto.
  - destruct (Hk a (l ++ ws)) as (ws' & Hl' & Hws').
    exists (ws ++ ws'). rewrite Hl', app_assoc. split; [reflexivity |].
    apply Forall_app. auto.
Qed.

Lemma logs_only_forEach P (A S : Type) (f : A -> S -> M S) arr :
  (forall x acc, logs_only P (f x acc)) ->
  forall acc, logs_only P (forEach f arr acc).
Proof.
  intros Hf. induction arr as [| x arr IH]; intros acc; cbn.
  - apply logs_only_ret.
  - apply logs_only_bind; auto.
Qed.

Lemma logs_only_rate_block parseMemory parseCpu pod c ts k usage acc :
  logs_only (oversize_warning parseMemory parseCpu pod)
    (rate_block pod c ts (rate_name k) (rate_help k)
       (rate_parser parseMemory parseCpu k)
       (declared (rate_resources k) (rate_property k) (spec_container pod c))
       usage acc).
Proof.
  intros l. rewrite rate_block_eq.
  destruct (declared (rate_resources k) (rate_property k)
              (spec_container pod c)) as [q |] eqn:Hq.
  - apply declared_declares in Hq.
    destruct (rate_parser parseMemory parseCpu k q) as [m | spec] eqn:Hp.
    + exists []. cbn. now rewrite app_nil_r.
    + destruct (1 <? usage / spec)%float eqn:Hlt.
      * eexists [_]. split; [reflexivity |]. constructor; [| constructor].
        exists k, c, q, spec, usage. auto.
      * exists []. cbn. now rewrite app_nil_r.
  - exists []. cbn. now rewrite app_nil_r.
Qed.

Lemma logs_only_forEach_container parseMemory parseCpu pod ts c acc :
  logs_only (oversize_warning parseMemory parseCpu pod)
    (forEach_container parseMemory parseCpu pod ts c acc).
Proof.
  unfold forEach_container.
  apply logs_only_bind; [apply logs_only_call | intros mu].
  apply logs_only_bind; [apply logs_only_call | intros cu]. cbv zeta.
  apply logs_only_bind;
    [exact (logs_only_rate_block parseMemory parseCpu pod c ts MemoryLimits
              mu _)
    | intros m1].
  apply logs_only_bind;
    [exact (logs_only_rate_block parseMemory parseCpu pod c ts MemoryRequests
              mu _)
    | intros m2].
  apply logs_only_bind;
    [exact (logs_only_rate_block parseMemory parseCpu pod c ts CpuLimits
              cu _)
    | intros m3].
  exact (logs_only_rate_block parseMemory parseCpu pod c ts CpuRequests cu _).
Qed.

Lemma logs_only_fetch (Agent : Type) encodeURIComponent Date_getTime
  parseMemory parseCpu (fetch : Request Agent -> string + Response) o :
  logs_only (oversize_warning parseMemory parseCpu (fm_pod o))
    (fetchPodMemoryAndCpuUsage encodeURIComponent Date_getTime parseMemory
       parseCpu fetch o).
Proof.
  unfold fetchPodMemoryAndCpuUsage. cbv zeta.
  apply logs_only_bind; [apply logs_only_call | intros response].
  destruct (bad_status (status response)); [apply logs_only_throw |].
  apply logs_only_bind; [apply logs_only_call | intros body].
  unfold process_body.
  destruct body as [s | n | b | | | pm | pm]; try apply logs_only_throw.
  - destruct (negb (kind pm =? "PodMetrics")); [apply logs_only_throw |].
    cbv zeta. apply logs_only_forEach. intros c acc.
    apply logs_only_forEach_container.
  - destruct (negb (mf_kind pm =? "PodMetrics")); [apply logs_only_throw |].
    cbv zeta.
    destruct (mf_containers pm) as [entries |]; [| apply logs_only_throw].
    apply logs_only_bind; [| intros; apply logs_only_throw].
    apply logs_only_forEach. intros c acc.
    apply logs_only_forEach_container.
Qed.




Section FetcherMore.

Variable Agent : Type.
Variable encodeURIComponent : string -> string.
Variable Date_getTime : string -> number.
Variable parseMemory : string -> string + number.
Variable parseCpu : string -> string + number.
Variable fetch : Request Agent -> string + Response.

Local Abbreviation fetchPodMemoryAndCpuUsage :=
  (fetchPodMemoryAndCpuUsage encodeURIComponent Date_getTime parseMemory
     parseCpu fetch).

(** X7: the records of a pod are all or nothing.  When the answer passes
    the check of the status and its body is an object of kind "PodMetrics"
    of the declared shape (a [containers] array whose entries have their
    [usage]), the fetch succeeds if and only if the parsers accept every
    quantity the loop reads: the two usages of each container of the
    response and each quantity its spec container declares.  Otherwise it
    throws the error of the first such quantity, in the order of the
    response and of the source, and returns no record, also not of the
    containers processed before.  When the object lacks [containers], or
    an entry lacks [usage], the fetch never succeeds: it throws a
    [TypeError], unless a quantity of an entry before the defective one is
    refused first, whose error it then throws. *)
Theorem parse_failure_drops_all_records :
  forall o l response,
    fetch (usage_request encodeURIComponent o) = inr response ->
    bad_status (status response) = false ->
    (forall b,
        json response = inr (BodyObject b) ->
        kind b = "PodMetrics" ->
        match first_parse_error
                (flat_map
                   (container_quantities parseMemory parseCpu (fm_pod o))
                   (containers b))
        with
        | Some m => snd (fetchPodMemoryAndCpuUsage o l) = inl (ParseError m)
        | None => exists ms, snd (fetchPodMemoryAndCpuUsage o l) = inr ms
        end)
    /\ (forall b,
          json response = inr (BodyMalformed b) ->
          mf_kind b = "PodMetrics" ->
          match mf_containers b with
          | None =>
              exists m, fetchPodMemoryAndCpuUsage o l = (l, inl (TypeError m))
          | Some entries =>
              match first_parse_error
                      (flat_map
                         (container_quantities parseMemory parseCpu
                            (fm_pod o))
                         entries)
              with
              | Some m =>
                  snd (fetchPodMemoryAndCpuUsage o l) = inl (ParseError m)
              | None =>
                  exists m,
                    snd (fetchPodMemoryAndCpuUsage o l) = inl (TypeError m)
              end
          end).
Proof.
  intros o l response Hf Hs.
  assert (E : forall body,
             json response = inr body ->
             fetchPodMemoryAndCpuUsage o l
             = process_body Date_getTime parseMemory parseCpu (fm_pod o)
                 body l).
  { intros body Hj.
    rewrite (fetch_good_status Agent encodeURIComponent Date_getTime
               parseMemory parseCpu fetch o l response Hf Hs).
    rewrite Hj. reflexivity. }
  split.
  - intros b Hj Hk. rewrite (E _ Hj). unfold process_body.
    assert (Hk' : negb (kind b =? "PodMetrics") = false)
      by (apply negb_false_iff, String.eqb_eq; assumption).
    rewrite Hk'. cbv zeta.
    pose proof (forEach_containers_parse parseMemory parseCpu (fm_pod o)
                  (dateToTimeStamp Date_getTime (timestamp b))
                  (containers b) [] l) as H.
    destruct (first_parse_error _) as [m |].
    + destruct H as (l' & ->). reflexivity.
    + destruct H as (l' & acc' & ->). now exists acc'.
  - intros b Hj Hk. rewrite (E _ Hj). unfold process_body.
    assert (Hk' : negb (mf_kind b =? "PodMetrics") = false)
      by (apply negb_false_iff, String.eqb_eq; assumption).
    rewrite Hk'. cbv zeta.
    destruct (mf_containers b) as [entries |].
    + pose proof (forEach_containers_parse parseMemory parseCpu (fm_pod o)
                    (dateToTimeStamp Date_getTime (mf_timestamp b))
                    entries [] l) as H.
      unfold bind.
      destruct (first_parse_error _) as [m |].
      * destruct H as (l' & ->). reflexivity.
      * destruct H as (l' & acc' & ->). cbn. eauto.
    + cbv [throw]. eauto.
Qed.


Lemma container_adds_length pod ts c chunk ws :
  container_adds parseMemory parseCpu pod ts c chunk ws ->
  2 <= length chunk <= 6
  /\ (spec_container pod c = None -> length chunk = 2).
Proof.
  intros (mu & cu & r & w & _ & _ & -> & _ & Hb).
  assert (Hk : forall k, length (r k) <= 1
                         /\ (spec_container pod c = None -> r k = [])).
  { intros k. specialize (Hb k). unfold block_adds in Hb.
    destruct (declared _ _ _) as [q |] eqn:Hq.
    - destruct Hb as (spec & _ & -> & _). split; [cbn; lia |].
      intros Hnone. rewrite Hnone in Hq. discriminate.
    - destruct Hb as [-> _]. auto. }
  cbn [app length]. rewrite !length_app.
  pose proof (Hk MemoryLimits) as [H1 E1].
  pose proof (Hk MemoryRequests) as [H2 E2].
  pose proof (Hk CpuLimits) as [H3 E3].
  pose proof (Hk CpuRequests) as [H4 E4].
  split; [lia |]. intros Hnone.
  rewrite (E1 Hnone), (E2 Hnone), (E3 Hnone), (E4 Hnone). reflexivity.
Qed.

(** X9: a successful usage fetch returns at least two and at most six
    records for each container of the response, and exactly two for each
    when no spec container of the pod has the name of a container of the
    response. *)
Theorem record_count_bounds :
  forall o l l' ms response b,
    fetch (usage_request encodeURIComponent o) = inr response ->
    json response = inr (BodyObject b) ->
    fetchPodMemoryAndCpuUsage o l = (l', inr ms) ->
    2 * length (containers b) <= length ms <= 6 * length (containers b)
    /\ ((forall c, In c (containers b) ->
           spec_container (fm_pod o) c = None) ->
        length ms = 2 * length (containers b)).
Proof.
  intros o l l' ms response b Hf Hj H.
  apply fetch_inr in H.
  destruct H as (response' & b' & Hf' & _ & Hj' & _ & H).
  assert (response' = response) by congruence. subst response'.
  assert (b' = b) by congruence. subst b'.
  apply forEach_containers_inr in H.
  destruct H as (adds & -> & _ & Hall). cbn [app].
  clear Hf Hf' Hj Hj'. induction Hall as [| c a cs adds Hc Hall IH].
  - cbn. split; [lia | reflexivity].
  - cbn [map concat length]. rewrite length_app.
    destruct (container_adds_length _ _ _ _ _ Hc) as [Hb Hnone].
    destruct IH as [IHb IHn]. split; [lia |].
    intros Hno. rewrite Hnone by (apply Hno; now left).
    rewrite IHn by (intros c' Hc'; apply Hno; now right). lia.
Qed.

End FetcherMore.

(** *** The same on every log *)

Lemma log_uniform_ret (A : Type) (a : A) : log_uniform (ret a).
Proof. intros l. cbn. now rewrite app_nil_r. Qed.

Lemma log_uniform_throw (A : Type) (e : exn) : log_uniform (@throw A e).
Proof. intros l. cbn. now rewrite app_nil_r. Qed.

Lemma log_uniform_warn (w : Warning) : log_uniform (warn w).
Proof. intros l. reflexivity. Qed.

Lemma log_uniform_call (A : Type) wrap (r : string + A) :
  log_uniform (call wrap r).
Proof.
  destruct r; cbn; [apply log_uniform_throw | apply log_uniform_ret].
Qed.

Lemma log_uniform_bind (A B : Type) (c : M A) (k : A -> M B) :
  log_uniform c -> (forall a, log_uniform (k a)) -> log_uniform (bind c k).
Proof.
  intros Hc Hk l. unfold bind. rewrite (Hc l).
  destruct (c []) as [w1 [e | a]]; cbn [fst snd].
  - reflexivity.
  - rewrite (Hk a (l ++ w1)), (Hk a w1). cbn [fst snd].
    now rewrite app_assoc.
Qed.

Lemma log_uniform_forEach (A S : Type) (f : A -> S -> M S) arr :
  (forall x acc, log_uniform (f x acc)) ->
  forall acc, log_uniform (forEach f arr acc).
Proof.
  intros Hf. induction arr as [| x arr IH]; intros acc; cbn.
  - apply log_uniform_ret.
  - apply log_uniform_bind; auto.
Qed.

Lemma log_uniform_rate_block pod c ts metric help parse quantity usage acc :
  log_uniform (rate_block pod c ts metric help parse quantity usage acc).
Proof.
  unfold rate_block. destruct quantity as [q |]; [| apply log_uniform_ret].
  apply log_uniform_bind; [apply log_uniform_call | intros spec].
  apply log_uniform_bind; [| intros; apply log_uniform_ret].
  destruct (1 <? usage / spec)%float;
    [apply log_uniform_warn | apply log_uniform_ret].
Qed.

Lemma log_uniform_forEach_container parseMemory parseCpu pod ts c acc :
  log_uniform (forEach_container parseMemory parseCpu pod ts c acc).
Proof.
  unfold forEach_container.
  apply log_uniform_bind; [apply log_uniform_call | intros mu].
  apply log_uniform_bind; [apply log_uniform_call | intros cu]. cbv zeta.
  repeat (apply log_uniform_bind; [apply log_uniform_rate_block | intros ?]).
  apply log_uniform_rate_block.
Qed.

Lemma log_uniform_fetch (Agent : Type) encodeURIComponent Date_getTime
  parseMemory parseCpu (fetch : Request Agent -> string + Response) o :
  log_uniform
    (fetchPodMemoryAndCpuUsage encodeURIComponent Date_getTime parseMemory
       parseCpu fetch o).
Proof.
  unfold fetchPodMemoryAndCpuUsage. cbv zeta.
  apply log_uniform_bind; [apply log_uniform_call | intros response].
  destruct (bad_status (status response)); [apply log_uniform_throw |].
  apply log_uniform_bind; [apply log_uniform_call | intros body].
  unfold process_body.
  destruct body as [s | n | b | | | pm | pm]; try apply log_uniform_throw.
  - destruct (negb (kind pm =? "PodMetrics")); [apply log_uniform_throw |].
    cbv zeta. apply log_uniform_forEach. intros c acc.
    apply log_uniform_forEach_container.
  - destruct (negb (mf_kind pm =? "PodMetrics"));
      [apply log_uniform_throw |].
    cbv zeta.
    destruct (mf_containers pm) as [entries |]; [| apply log_uniform_throw].
    apply log_uniform_bind; [| intros; apply log_uniform_throw].
    apply log_uniform_forEach. intros c acc.
    apply log_uniform_forEach_container.
Qed.

Lemma completed_app t u : completed (t ++ u) = completed t ++ completed u.
Proof.
  induction t as [| [id pod | id | id e] t IH]; cbn; congruence.
Qed.

(** *** The log of a cycle *)

Section CycleLog.

Variable Agent : Type.
Variable encodeURIComponent : string -> string.
Variable Date_getTime : string -> number.
Variable parseMemory : string -> string + number.
Variable parseCpu : string -> string + number.
Variable network : nat -> Request Agent -> string + Response.
Variable listPods : ListPodsOptions Agent -> string + list PodInfo.

Local Abbreviation Sound :=
  (Sound encodeURIComponent Date_getTime parseMemory parseCpu network).
Local Abbreviation reachable :=
  (reachable encodeURIComponent Date_getTime parseMemory parseCpu network).
Local Abbreviation usage_fetch :=
  (usage_fetch encodeURIComponent Date_getTime parseMemory parseCpu network).
Local Abbreviation complete :=
  (complete encodeURIComponent Date_getTime parseMemory parseCpu network).
Local Abbreviation cycle :=
  (cycle encodeURIComponent Date_getTime parseMemory parseCpu network
     listPods).
Local Abbreviation collectMetrics_log :=
  (collectMetrics_log encodeURIComponent Date_getTime parseMemory parseCpu
     network listPods).

Lemma pool_fill_log fuel c st : log (pool_fill fuel c st) = log st.
Proof.
  revert st. induction fuel as [| fuel IH]; intros st; cbn [pool_fill].
  - reflexivity.
  - destruct (Z.of_nat (length (running st)) <? c)%Z; [| reflexivity].
    unfold promiseProducer.
    destruct (pop (allPods st)) as [[pod |] rest]; [| reflexivity].
    now rewrite IH.
Qed.

Lemma pool_proceed_log c st : log (pool_proceed c st) = log st.
Proof.
  unfold pool_proceed.
  set (st1 := if pool_done st then st
              else pool_fill (S (length (allPods st))) c st).
  assert (H1 : log st1 = log st).
  { subst st1. destruct (pool_done st); [reflexivity | apply pool_fill_log]. }
  destruct (pool_done st1 && (length (running st1) =? 0)%nat); assumption.
Qed.

Lemma complete_log (o : Options Agent) pods st i :
  Sound o pods st ->
  exists ws,
    log (complete o i st) = log st ++ ws
    /\ Forall (fun w =>
                 exists pod,
                   In pod pods /\ oversize_warning parseMemory parseCpu pod w)
         ws.
Proof.
  intros Hs.
  rewrite (complete_unfold Agent encodeURIComponent Date_getTime parseMemory
             parseCpu network o). cbv zeta.
  destruct (nth_error (running st) i) as [[id pod] |] eqn:Hnth.
  2: { exists []. now rewrite app_nil_r. }
  assert (Hpod : In pod pods).
  { apply nth_error_In in Hnth.
    apply (dispatched_in_pods Agent encodeURIComponent Date_getTime
             parseMemory parseCpu network o pods st id pod Hs).
    apply dispatches_In. exact (inv_running Hs _ _ Hnth). }
  destruct (logs_only_fetch Agent encodeURIComponent Date_getTime parseMemory
              parseCpu (network id) (fetch_options o pod) (log st))
    as (ws & Hl & Hws).
  change (fetchPodMemoryAndCpuUsage encodeURIComponent Date_getTime
            parseMemory parseCpu (network id) (fetch_options o pod) (log st))
    with (usage_fetch o id pod (log st)) in Hl.
  exists ws. split.
  - destruct (usage_fetch o id pod (log st)) as [log' [e | ms]];
      cbn [fst] in Hl; subst log';
      match goal with
      | |- context [if active ?s then _ else _] => destruct (active s)
      end; rewrite ?pool_proceed_log; reflexivity.
  - eapply Forall_impl; [| exact Hws]. intros w Hw. exists pod. auto.
Qed.

Lemma reachable_log (o : Options Agent) pods l st :
  (1 <= concurrency o)%Z ->
  reachable o pods l st ->
  exists ws,
    log st = l ++ ws
    /\ Forall (fun w =>
                 exists pod,
                   In pod pods /\ oversize_warning parseMemory parseCpu pod w)
         ws.
Proof.
  intros Hconc Hreach. induction Hreach as [| st i Hreach IH Hi].
  - exists []. rewrite pool_proceed_log, app_nil_r. split; [reflexivity |].
    constructor.
  - destruct IH as (ws & Hl & Hws).
    destruct (reachable_Stable Agent encodeURIComponent Date_getTime
                parseMemory parseCpu network o pods l st Hconc Hreach)
      as [Hs _].
    destruct (complete_log o pods st i Hs) as (ws' & Hl' & Hws').
    exists (ws ++ ws'). rewrite Hl', Hl, app_assoc. split; [reflexivity |].
    apply Forall_app. auto.
Qed.

Lemma pool_fill_completed fuel c st :
  completed (trace (pool_fill fuel c st)) = completed (trace st).
Proof.
  revert st. induction fuel as [| fuel IH]; intros st; cbn [pool_fill].
  - reflexivity.
  - destruct (Z.of_nat (length (running st)) <? c)%Z; [| reflexivity].
    unfold promiseProducer.
    destruct (pop (allPods st)) as [[pod |] rest]; [| reflexivity].
    rewrite IH. cbn [trace]. unfold push. rewrite completed_app. cbn.
    now rewrite app_nil_r.
Qed.

Lemma pool_proceed_completed c st :
  completed (trace (pool_proceed c st)) = completed (trace st).
Proof.
  unfold pool_proceed.
  set (st1 := if pool_done st then st
              else pool_fill (S (length (allPods st))) c st).
  assert (H1 : completed (trace st1) = completed (trace st)).
  { subst st1. destruct (pool_done st);
      [reflexivity | apply pool_fill_completed]. }
  destruct (pool_done st1 && (length (running st1) =? 0)%nat); assumption.
Qed.

(** The log of a state of the cycle: the log the cycle started on and then
    what the fetches that have completed logged, in that order. *)
Lemma complete_logged (o : Options Agent) pods l st i :
  Sound o pods st ->
  log st = l ++ flat_map (warnings_of encodeURIComponent Date_getTime
                            parseMemory parseCpu network o pods)
                  (completed (trace st)) ->
  log (complete o i st)
  = l ++ flat_map (warnings_of encodeURIComponent Date_getTime parseMemory
                     parseCpu network o pods)
           (completed (trace (complete o i st))).
Proof.
  intros Hs Hlog.
  rewrite (complete_unfold Agent encodeURIComponent Date_getTime parseMemory
             parseCpu network o). cbv zeta.
  destruct (nth_error (running st) i) as [[id pod] |] eqn:Hnth;
    [| assumption].
  assert (Hpod : nth_error (rev pods) id = Some pod).
  { apply nth_error_In in Hnth.
    now destruct (dispatched_is_nth Agent encodeURIComponent Date_getTime
                    parseMemory parseCpu network o pods st id pod Hs
                    (inv_running Hs _ _ Hnth)). }
  assert (Hw : warnings_of encodeURIComponent Date_getTime parseMemory
                 parseCpu network o pods id
               = fst (usage_fetch o id pod [])).
  { unfold warnings_of. now rewrite Hpod. }
  pose proof (log_uniform_fetch Agent encodeURIComponent Date_getTime
                parseMemory parseCpu (network id) (fetch_options o pod)
                (log st)) as Hu.
  change (fetchPodMemoryAndCpuUsage encodeURIComponent Date_getTime
            parseMemory parseCpu (network id) (fetch_options o pod))
    with (usage_fetch o id pod) in Hu.
  rewrite Hu, <- Hw, Hlog.
  destruct (snd (usage_fetch o id pod [])) as [e | ms];
    match goal with
    | |- context [if active ?s then _ else _] => destruct (active s)
    end;
    rewrite ?pool_proceed_log, ?pool_proceed_completed;
    cbn [log trace settle]; unfold push;
    rewrite completed_app, flat_map_app; cbn [completed flat_map];
    now rewrite app_nil_r, app_assoc.
Qed.

Lemma reachable_logged (o : Options Agent) pods l st :
  (1 <= concurrency o)%Z ->
  reachable o pods l st ->
  log st = l ++ flat_map (warnings_of encodeURIComponent Date_getTime
                            parseMemory parseCpu network o pods)
                  (completed (trace st)).
Proof.
  intros Hconc Hreach. induction Hreach as [| st i Hreach IH Hi].
  - rewrite pool_proceed_log, pool_proceed_completed. cbn.
    now rewrite app_nil_r.
  - apply complete_logged; [| assumption].
    now destruct (reachable_Stable Agent encodeURIComponent Date_getTime
                    parseMemory parseCpu network o pods l st Hconc Hreach).
Qed.

(** X10: a cycle that fails before the pool starts (the namespaces are
    [null], a listing fails or the pool refuses the concurrency) leaves the
    log as it was.  Otherwise the log after the cycle is the log it was
    given followed by what the usage fetches that completed have logged,
    fetch after fetch in the order of their completion, those that
    completed after a failure included; nothing is dropped, and all of it
    are warnings about a rate above 1 for a pod of the cycle. *)
Theorem cycle_logs_only_oversize_warnings :
  forall o sched l,
    (forall e,
        cycle o sched l = inl e -> collectMetrics_log o sched l = l)
    /\ (forall st,
          cycle o sched l = inr st ->
          exists pods,
            list_all_pods listPods o sched = inr pods
            /\ collectMetrics_log o sched l
               = l ++ flat_map (warnings_of encodeURIComponent Date_getTime
                                  parseMemory parseCpu network o pods)
                        (completed (trace st))
            /\ Forall (fun w =>
                         exists pod,
                           In pod pods
                           /\ oversize_warning parseMemory parseCpu pod w)
                 (flat_map (warnings_of encodeURIComponent Date_getTime
                              parseMemory parseCpu network o pods)
                    (completed (trace st)))).
Proof.
  intros o sched l. unfold collectMetrics_log. split.
  - intros e Hc. now rewrite Hc.
  - intros st Hc. rewrite Hc.
    apply (cycle_inr Agent encodeURIComponent Date_getTime parseMemory
             parseCpu network listPods) in Hc.
    destruct Hc as (pods & Hlist & Hconc & Hreach & _).
    pose proof (reachable_logged o pods l st Hconc Hreach) as Hlog.
    destruct (reachable_log o pods l st Hconc Hreach) as (ws & Hl & Hws).
    exists pods. split; [assumption |]. split; [assumption |].
    rewrite Hlog in Hl. apply app_inv_head in Hl. now rewrite Hl.
Qed.

End CycleLog.

(** *** Every outcome of a cycle and of the route *)

Section OutcomeFacts.

Variable Agent : Type.
Variable encodeURIComponent : string -> string.
Variable Date_getTime : string -> number.
Variable parseMemory : string -> string + number.
Variable parseCpu : string -> string + number.
Variable network : nat -> Request Agent -> string + Response.
Variable listPods : ListPodsOptions Agent -> string + list PodInfo.
Variable serializeMetrics : list PrometheusMetric -> string.

Local Abbreviation Sound :=
  (Sound encodeURIComponent Date_getTime parseMemory parseCpu network).
Local Abbreviation fetch_fails :=
  (fetch_fails encodeURIComponent Date_getTime parseMemory parseCpu network).
Local Abbreviation cycle :=
  (cycle encodeURIComponent Date_getTime parseMemory parseCpu network
     listPods).
Local Abbreviation collectMetrics :=
  (collectMetrics encodeURIComponent Date_getTime parseMemory parseCpu
     network listPods).
Local Abbreviation metrics_handler :=
  (metrics_handler encodeURIComponent Date_getTime parseMemory parseCpu
     network listPods serializeMetrics).

Lemma list_all_pods_inl (o : Options Agent) sched e :
  list_all_pods listPods o sched = inl e ->
  (namespace o = None /\ exists m, e = TypeError m)
  \/ (exists nss ns m,
        namespace o = Some nss /\ In ns nss
        /\ listPods (listing_options o ns) = inl m
        /\ e = ListPodsError m).
Proof.
  unfold list_all_pods. destruct (namespace o) as [nss |].
  - destruct (Promise_all _ _) as [e' | pss] eqn:Hall; [| discriminate].
    intros H. assert (e' = e) by congruence. subst e'.
    apply Promise_all_inl in Hall. apply in_map_iff in Hall.
    destruct Hall as (ns & Hf & Hin). right.
    change {| lp_osApi := osApi o;
              lp_namespace := ns;
              lp_accessToken := accessToken o;
              lp_agent := agent o |} with (listing_options o ns) in Hf.
    destruct (listPods (listing_options o ns)) as [m |] eqn:Hm;
      [| discriminate].
    exists nss, ns, m. repeat split; auto. congruence.
  - intros H. left. split; [reflexivity |]. inversion H. eauto.
Qed.

(** X11: a cycle always settles, and it fails in four ways only: the
    namespaces are [null], the listing of a requested namespace fails, the
    pool refuses a concurrency below 1, or the usage fetch of a listed pod
    fails; the error is then the one of that step. *)
Theorem collect_outcomes :
  forall o sched l,
    (exists ms, collectMetrics o sched l = Some (inr ms))
    \/ exists e,
         collectMetrics o sched l = Some (inl e)
         /\ ((namespace o = None /\ exists m, e = TypeError m)
             \/ (exists nss ns m,
                   namespace o = Some nss /\ In ns nss
                   /\ listPods (listing_options o ns) = inl m
                   /\ e = ListPodsError m)
             \/ ((concurrency o < 1)%Z /\ exists m, e = PoolError m)
             \/ (exists pods id pod,
                   list_all_pods listPods o sched = inr pods
                   /\ nth_error (rev pods) id = Some pod
                   /\ fetch_fails o id pod e)).
Proof.
  intros o sched l. unfold collectMetrics.
  destruct (cycle o sched l) as [e | st] eqn:Hc.
  - right. exists e. split; [reflexivity |]. unfold cycle in Hc.
    destruct (list_all_pods listPods o sched) as [e' | pods] eqn:Hlist.
    + assert (e' = e) by congruence. subst e'.
      destruct (list_all_pods_inl _ _ _ Hlist) as [H | H]; auto.
    + unfold run_pool in Hc.
      destruct (concurrency o <? 1)%Z eqn:Hlt; [| discriminate].
      apply Z.ltb_lt in Hlt. right. right. left.
      split; [assumption |]. inversion Hc. eauto.
  - apply (cycle_inr Agent encodeURIComponent Date_getTime parseMemory
             parseCpu network listPods) in Hc.
    destruct Hc as (pods & Hlist & Hconc & Hreach & [Hs Hact] & Hrun).
    destruct (settled st) as [[e | ms] |] eqn:Hset.
    + right. exists e. split; [reflexivity |]. right. right. right.
      destruct (inv_error Hs Hset) as (id & Hin).
      destruct (inv_rejected Hs _ _ Hin) as (pod & Hd & Hfail).
      exists pods, id, pod. split; [assumption |].
      split; [| assumption].
      now destruct (dispatched_is_nth _ _ _ _ _ _ _ _ _ _ _ Hs Hd).
    + left. eauto.
    + exfalso. now apply Hact.
Qed.

(** X12: the handler of [GET /metrics] always replies: with the
    serialization of the records [collectMetrics] returns, or by throwing
    the error [collectMetrics] fails with. *)
Theorem metrics_handler_always_replies :
  forall (so : ServerOptions Agent) q sched l,
    (exists ms,
        collectMetrics (collect_options so q) sched l = Some (inr ms)
        /\ metrics_handler so q sched l = Some (inr (serializeMetrics ms)))
    \/ (exists e,
          collectMetrics (collect_options so q) sched l = Some (inl e)
          /\ metrics_handler so q sched l = Some (inl e)).
Proof.
  intros so q sched l. unfold metrics_handler.
  destruct (collectMetrics_settles Agent encodeURIComponent Date_getTime
              parseMemory parseCpu network listPods (collect_options so q)
              sched l) as (r & Hr).
  rewrite Hr. destruct r as [e | ms]; eauto.
Qed.

(** X13: for a query the schema of the route accepts, the namespaces
    collected are the default ones exactly when the query names none;
    otherwise they are the names of the query, none of them empty, a
    single name standing for the array that holds it. *)
Theorem query_namespace_overrides_default :
  forall (so : ServerOptions Agent) q,
    querystring_schema q = true ->
    (q_namespace q = None ->
       namespace (collect_options so q) = so_defaultNamespace so)
    /\ (forall n,
          q_namespace q = Some n ->
          namespace (collect_options so q) = Some (namespace_array n)
          /\ Forall (fun ns => ns <> "") (namespace_array n)).
Proof.
  intros so q Hschema. unfold collect_options, request_namespace.
  cbn [namespace]. split.
  - intros ->. reflexivity.
  - intros n Hn. rewrite Hn. unfold querystring_schema in Hschema.
    rewrite Hn in Hschema. apply andb_true_iff in Hschema.
    destruct Hschema as [Hschema _].
    destruct n as [ns | nss]; cbn in Hschema |- *.
    + destruct ns as [| a ns]; [discriminate |].
      split; [reflexivity |]. constructor; [discriminate | constructor].
    + split; [reflexivity |]. apply Forall_forall. intros ns Hin.
      rewrite forallb_forall in Hschema. specialize (Hschema ns Hin).
      intros ->. discriminate.
Qed.

End OutcomeFacts.

(** *** The order of completion *)

Section ScheduleFacts.

Variable Agent : Type.
Variable encodeURIComponent : string -> string.
Variable Date_getTime : string -> number.
Variable parseMemory : string -> string + number.
Variable parseCpu : string -> string + number.
Variable network : nat -> Request Agent -> string + Response.
Variable listPods : ListPodsOptions Agent -> string + list PodInfo.

Local Abbreviation Sound :=
  (Sound encodeURIComponent Date_getTime parseMemory parseCpu network).
Local Abbreviation Tidy :=
  (Tidy encodeURIComponent Date_getTime parseMemory parseCpu network).
Local Abbreviation records_of :=
  (records_of encodeURIComponent Date_getTime parseMemory parseCpu network).
Local Abbreviation usage_fetch :=
  (usage_fetch encodeURIComponent Date_getTime parseMemory parseCpu network).
Local Abbreviation cycle :=
  (cycle encodeURIComponent Date_getTime parseMemory parseCpu network
     listPods).
Local Abbreviation collectMetrics :=
  (collectMetrics encodeURIComponent Date_getTime parseMemory parseCpu
     network listPods).

Lemma list_all_pods_schedule (o : Options Agent) sched sched' pods :
  list_all_pods listPods o sched = inr pods ->
  list_all_pods listPods o sched' = inr pods.
Proof.
  intros H. apply list_all_pods_inr. now apply list_all_pods_inr in H.
Qed.

(** The records of a successful cycle, by the order of completion. *)
Lemma success_records o pods st ms :
  Sound o pods st ->
  Tidy o pods st ->
  running st = [] ->
  settled st = Some (inr ms) ->
  ms = flat_map (records_of o pods) (fulfilled (trace st))
  /\ Permutation (fulfilled (trace st)) (seq 0 (length pods)).
Proof.
  intros Hs Ht Hrun Hset.
  destruct (success_all_fulfilled _ _ _ _ _ _ _ _ _ _ Hs Ht Hrun Hset)
    as (Hstarted & Hall & Hlt).
  split.
  - destruct (inv_success Hs Hset) as (_ & _ & ->).
    rewrite flat_map_concat_map. exact (tidy_metrics Ht).
  - apply NoDup_Permutation.
    + exact (tidy_fulfilled Ht).
    + apply seq_NoDup.
    + intros k. rewrite in_seq. split.
      * intros Hk. apply Hlt in Hk. lia.
      * intros [_ Hk]. cbn in Hk.
        destruct (nth_error (rev pods) k) as [pod |] eqn:Hnth.
        -- now destruct (Hall k pod Hnth).
        -- apply nth_error_None in Hnth. rewrite length_rev in Hnth. lia.
Qed.

(** X14: the order in which the usage fetches complete, and the log the
    cycle runs on, decide neither whether the cycle succeeds nor which
    records it returns: if a cycle succeeds, it succeeds under every other
    order of completion as well, with the same records in a possibly
    different order. *)
Theorem completion_order_only_permutes :
  forall o sched l ms sched' l',
    collectMetrics o sched l = Some (inr ms) ->
    exists ms',
      collectMetrics o sched' l' = Some (inr ms') /\ Permutation ms ms'.
Proof.
  intros o sched l ms sched' l' Hres.
  destruct (collect_inr_cycle _ _ _ _ _ _ _ _ _ _ _ Hres)
    as (st & Hc & Hset).
  pose proof Hc as Hc0.
  apply (cycle_inr Agent encodeURIComponent Date_getTime parseMemory
           parseCpu network listPods) in Hc0.
  destruct Hc0 as (pods0 & Hlist0 & Hconc & _).
  destruct (cycle_final _ _ _ _ _ _ _ _ _ _ _ Hc)
    as (pods & Hlist & Hs & Ht & Hrun & _).
  assert (pods0 = pods) by congruence. subst pods0.
  destruct (success_all_fulfilled _ _ _ _ _ _ _ _ _ _ Hs Ht Hrun Hset)
    as (_ & Hall & _).
  destruct (success_records _ _ _ _ Hs Ht Hrun Hset) as [Hms Hperm].
  pose proof (list_all_pods_schedule o sched sched' pods Hlist) as Hlist'.
  destruct (cycle o sched' l') as [e | st'] eqn:Hc'.
  { exfalso. unfold cycle in Hc'. rewrite Hlist' in Hc'.
    unfold run_pool in Hc'.
    destruct (concurrency o <? 1)%Z eqn:Hlt; [| discriminate].
    apply Z.ltb_lt in Hlt. lia. }
  destruct (cycle_final _ _ _ _ _ _ _ _ _ _ _ Hc')
    as (pods' & Hlist'' & Hs' & Ht' & Hrun' & Hres' & Hsettled).
  assert (pods' = pods) by congruence. subst pods'.
  rewrite Hres'.
  destruct (settled st') as [[e | ms'] |] eqn:Hset'.
  - exfalso. destruct (inv_error Hs' Hset') as (id & Hin).
    destruct (inv_rejected Hs' _ _ Hin) as (pod & Hd & l0 & l1 & Hfail).
    destruct (dispatched_is_nth _ _ _ _ _ _ _ _ _ _ _ Hs' Hd) as [Hnth _].
    destruct (Hall id pod Hnth) as [_ Hok].
    rewrite (usage_fetch_outcome Agent encodeURIComponent Date_getTime
               parseMemory parseCpu network o id pod [] l0), Hfail in Hok.
    discriminate.
  - exists ms'. split; [reflexivity |].
    destruct (success_records _ _ _ _ Hs' Ht' Hrun' Hset') as [Hms' Hperm'].
    rewrite Hms, Hms'. apply Permutation_flat_map.
    rewrite Hperm, Hperm'. reflexivity.
  - now exfalso.
Qed.

End ScheduleFacts.

(** *** The further properties on the small cluster *)

(** In [staging] every fetch succeeds.  When the second fetch in flight
    always completes first, the requests complete in the order 1, 2, 0,
    and the result holds the records of [api], then those of [worker],
    then those of [web]. *)
Lemma success_concatenates_every_pod_witness :
  exists st ms,
    let o := Fixture.options "staging" 2 in
    let sched := {| race := 0; completion := fun _ => 1 |} in
    let pods := [ Fixture.pod "staging" "worker" "Running";
                  Fixture.pod "staging" "api" "Running";
                  Fixture.pod "staging" "web" "Running" ] in
    Fixture.run o sched [] = inr st
    /\ Fixture.collect o sched [] = Some (inr ms)
    /\ fulfilled (trace st) = [1; 2; 0]
    /\ ms = concat
              (map (records_of Fixture.encodeURIComponent
                      Fixture.Date_getTime QuantityParsers.parseMemory
                      QuantityParsers.parseCpu Fixture.network o pods)
                 [1; 2; 0]).
Proof.
  destruct (success_concatenates_every_pod Fixture.Agent
              Fixture.encodeURIComponent Fixture.Date_getTime
              QuantityParsers.parseMemory QuantityParsers.parseCpu
              Fixture.network Fixture.listPods
              (Fixture.options "staging" 2)
              {| race := 0; completion := fun _ => 1 |} [] _ _
              ltac:(vm_compute; reflexivity) ltac:(vm_compute; reflexivity))
    as (pods & Hlist & _ & Hms & _).
  vm_compute in Hlist. injection Hlist as <-.
  eexists _, _. cbv zeta.
  split; [vm_compute; reflexivity |].
  split; [vm_compute; reflexivity |].
  split; [vm_compute; reflexivity |].
  exact Hms.
Defined.

(** The records of [web], listed in [staging], are in the result. *)
Lemma every_listed_pod_reported_witness :
  exists ms k records,
    Fixture.collect (Fixture.options "staging" 2) Fixture.fifo []
    = Some (inr ms)
    /\ snd (Fixture.usage (Fixture.options "staging" 2) k
              (Fixture.pod "staging" "web" "Running") [])
       = inr records
    /\ forall m, In m records -> In m ms.
Proof.
  destruct (every_listed_pod_reported Fixture.Agent
              Fixture.encodeURIComponent Fixture.Date_getTime
              QuantityParsers.parseMemory QuantityParsers.parseCpu
              Fixture.network Fixture.listPods
              (Fixture.options "staging" 2) Fixture.fifo [] _
              ["staging"] "staging" _
              (Fixture.pod "staging" "web" "Running")
              ltac:(vm_compute; reflexivity)
              eq_refl (or_introl eq_refl) eq_refl
              (or_intror (or_intror (or_introl eq_refl)))
              ltac:(discriminate) ltac:(discriminate))
    as (k & records & Hk & Hin).
  eexists _, k, records. split; [vm_compute; reflexivity |]. auto.
Defined.

(** In [staging] the pods are fetched last first. *)
Lemma dispatch_in_reverse_listing_order_witness :
  exists st pods,
    Fixture.run (Fixture.options "staging" 2) Fixture.fifo [] = inr st
    /\ list_all_pods Fixture.listPods (Fixture.options "staging" 2)
         Fixture.fifo = inr pods
    /\ map snd (dispatches (trace st)) ++ rev (allPods st) = rev pods.
Proof.
  destruct (Fixture.run (Fixture.options "staging" 2) Fixture.fifo [])
    as [e | st] eqn:Hc.
  - vm_compute in Hc. discriminate.
  - destruct (dispatch_in_reverse_listing_order Fixture.Agent
                Fixture.encodeURIComponent Fixture.Date_getTime
                QuantityParsers.parseMemory QuantityParsers.parseCpu
                Fixture.network Fixture.listPods
                (Fixture.options "staging" 2) Fixture.fifo [] st Hc)
      as (pods & Hlist & Horder & _).
    exists st, pods. auto.
Defined.

(** In [prod] the cycle fails with the error of the first rejection of its
    trace. *)
Lemma first_rejection_wins_witness :
  exists st e pre id post,
    Fixture.run (Fixture.options "prod" 2) Fixture.fifo [] = inr st
    /\ Fixture.collect (Fixture.options "prod" 2) Fixture.fifo []
       = Some (inl e)
    /\ trace st = pre ++ Reject id e :: post
    /\ no_reject pre.
Proof.
  destruct (Fixture.run (Fixture.options "prod" 2) Fixture.fifo [])
    as [e | st] eqn:Hc.
  - vm_compute in Hc. discriminate.
  - destruct (Fixture.collect (Fixture.options "prod" 2) Fixture.fifo [])
      as [[e | ms] |] eqn:Hr.
    + destruct (proj1 (proj1 (first_rejection_wins Fixture.Agent
                                Fixture.encodeURIComponent
                                Fixture.Date_getTime
                                QuantityParsers.parseMemory
                                QuantityParsers.parseCpu Fixture.network
                                Fixture.listPods (Fixture.options "prod" 2)
                                Fixture.fifo [] st Hc) e) Hr)
        as (pre & id & post & Htrace & Hpre).
      exists st, e, pre, id, post. auto.
    + vm_compute in Hr. discriminate.
    + vm_compute in Hr. discriminate.
Defined.

(** The only pod of [batch] has succeeded: nothing is fetched. *)
Lemma nothing_to_fetch_witness :
  Fixture.collect (Fixture.options "batch" 2) Fixture.fifo [] = Some (inr []).
Proof.
  refine (proj1 (nothing_to_fetch Fixture.Agent Fixture.encodeURIComponent
                   Fixture.Date_getTime QuantityParsers.parseMemory
                   QuantityParsers.parseCpu Fixture.network Fixture.listPods
                   (Fixture.options "batch" 2) Fixture.fifo [] ["batch"]
                   _ eq_refl _)).
  - cbn. lia.
  - intros ns [<- | []]. eexists. split; [reflexivity |].
    intros pod [<- | []]. right. reflexivity.
Defined.

(** No namespace [nowhere] exists. *)
Lemma listing_failure_aborts_cycle_witness :
  exists ns' m',
    Fixture.listPods (listing_options (Fixture.options "nowhere" 2) ns')
    = inl m'
    /\ Fixture.collect (Fixture.options "nowhere" 2) Fixture.fifo []
       = Some (inl (ListPodsError m')).
Proof.
  destruct (listing_failure_aborts_cycle Fixture.Agent
              Fixture.encodeURIComponent Fixture.Date_getTime
              QuantityParsers.parseMemory QuantityParsers.parseCpu
              Fixture.network Fixture.listPods
              (Fixture.options "nowhere" 2) Fixture.fifo [] ["nowhere"]
              "nowhere" "namespaces not found"
              eq_refl (or_introl eq_refl) eq_refl)
    as (ns' & m' & _ & Hfail & _ & Hres & _).
  exists ns', m'. auto.
Defined.

(** The CPU usage [fast] of the second container fails the fetch, which
    drops the records of the first container; an answer without
    [containers] fails it as well. *)
Lemma parse_failure_drops_all_records_witness :
  snd (Garbled.fetch_pod (Fixture.options_for "prod" "web") [])
  = inl (ParseError "Invalid cpu quantity fast")
  /\ exists m,
       fetchPodMemoryAndCpuUsage Fixture.encodeURIComponent
         Fixture.Date_getTime QuantityParsers.parseMemory
         QuantityParsers.parseCpu Garbled.bare
         (Fixture.options_for "prod" "web") []
       = ([], inl (TypeError m)).
Proof.
  split.
  - exact (proj1 (parse_failure_drops_all_records Fixture.Agent
                    Fixture.encodeURIComponent Fixture.Date_getTime
                    QuantityParsers.parseMemory QuantityParsers.parseCpu
                    Garbled.fetch (Fixture.options_for "prod" "web") [] _
                    eq_refl eq_refl) _ eq_refl eq_refl).
  - exact (proj2 (parse_failure_drops_all_records Fixture.Agent
                    Fixture.encodeURIComponent Fixture.Date_getTime
                    QuantityParsers.parseMemory QuantityParsers.parseCpu
                    Garbled.bare (Fixture.options_for "prod" "web") [] _
                    eq_refl eq_refl) _ eq_refl eq_refl).
Defined.


(** A concurrency of 0 is refused and nothing is logged.  In [prod] the
    fetch for [db] is rejected first; the fetch for [api], in flight at
    that time, completes afterwards, and its two warnings are logged. *)
Lemma cycle_logs_only_oversize_warnings_witness :
  collectMetrics_log Fixture.encodeURIComponent Fixture.Date_getTime
    QuantityParsers.parseMemory QuantityParsers.parseCpu Fixture.network
    Fixture.listPods (Fixture.options "staging" 0) Fixture.fifo [] = []
  /\ exists st,
       let o := Fixture.options "prod" 2 in
       Fixture.run o Fixture.fifo [] = inr st
       /\ trace st
          = [ Dispatch 0 (Fixture.pod "prod" "db" "Running");
              Dispatch 1 (Fixture.pod "prod" "api" "Running");
              Reject 0
                (StatusError 503
                   "https://openshift.example/apis/metrics.k8s.io/v1beta1/namespaces/prod/pods/db");
              Fulfil 1 ]
       /\ collectMetrics_log Fixture.encodeURIComponent Fixture.Date_getTime
            QuantityParsers.parseMemory QuantityParsers.parseCpu
            Fixture.network Fixture.listPods o Fixture.fifo []
          = flat_map (warnings_of Fixture.encodeURIComponent
                        Fixture.Date_getTime QuantityParsers.parseMemory
                        QuantityParsers.parseCpu Fixture.network o
                        Fixture.prod_pods)
              [0; 1]
       /\ length
            (collectMetrics_log Fixture.encodeURIComponent
               Fixture.Date_getTime QuantityParsers.parseMemory
               QuantityParsers.parseCpu Fixture.network Fixture.listPods o
               Fixture.fifo [])
          = 2.
Proof.
  split.
  - exact (proj1 (cycle_logs_only_oversize_warnings Fixture.Agent
                    Fixture.encodeURIComponent Fixture.Date_getTime
                    QuantityParsers.parseMemory QuantityParsers.parseCpu
                    Fixture.network Fixture.listPods
                    (Fixture.options "staging" 0) Fixture.fifo []) _
             ltac:(vm_compute; reflexivity)).
  - destruct (proj2 (cycle_logs_only_oversize_warnings Fixture.Agent
                       Fixture.encodeURIComponent Fixture.Date_getTime
                       QuantityParsers.parseMemory QuantityParsers.parseCpu
                       Fixture.network Fixture.listPods
                       (Fixture.options "prod" 2) Fixture.fifo []) _
                ltac:(vm_compute; reflexivity))
      as (pods & Hlist & Hlog & _).
    vm_compute in Hlist. injection Hlist as <-.
    eexists. cbv zeta.
    split; [vm_compute; reflexivity |].
    split; [vm_compute; reflexivity |].
    split; [exact Hlog | vm_compute; reflexivity].
Defined.

(** The two containers of [api] give seven records. *)
Lemma record_count_bounds_witness :
  exists l' ms,
    Fixture.fetch_pod (Fixture.options_for "prod" "api") [] = (l', inr ms)
    /\ 2 * 2 <= length ms <= 6 * 2.
Proof.
  do 2 eexists. split; [vm_compute; reflexivity |].
  exact (proj1 (record_count_bounds Fixture.Agent
                  Fixture.encodeURIComponent Fixture.Date_getTime
                  QuantityParsers.parseMemory QuantityParsers.parseCpu
                  (Fixture.network 0) (Fixture.options_for "prod" "api") []
                  _ _ _ _ eq_refl eq_refl eq_refl)).
Defined.

(** A query for [prod] on a server whose default is [staging]. *)
Lemma query_namespace_overrides_default_witness :
  namespace
    (collect_options Fixture.server_options
       {| q_namespace := Some (One "prod"); q_excitement := None |})
  = Some ["prod"].
Proof.
  exact (proj1 (proj2 (query_namespace_overrides_default Fixture.Agent
                         Fixture.server_options
                         {| q_namespace := Some (One "prod");
                            q_excitement := None |} eq_refl)
                  (One "prod") eq_refl)).
Defined.

(** In [staging] the fetches succeed in whatever order they complete. *)
Lemma completion_order_only_permutes_witness :
  exists ms ms',
    Fixture.collect (Fixture.options "staging" 2) Fixture.fifo []
    = Some (inr ms)
    /\ Fixture.collect (Fixture.options "staging" 2)
         {| race := 0; completion := fun _ => 1 |} []
       = Some (inr ms')
    /\ Permutation ms ms'.
Proof.
  destruct (completion_order_only_permutes Fixture.Agent
              Fixture.encodeURIComponent Fixture.Date_getTime
              QuantityParsers.parseMemory QuantityParsers.parseCpu
              Fixture.network Fixture.listPods
              (Fixture.options "staging" 2) Fixture.fifo [] _
              {| race := 0; completion := fun _ => 1 |} []
              ltac:(vm_compute; reflexivity))
    as (ms' & Hres & Hperm).
  eexists _, ms'. split; [vm_compute; reflexivity |]. auto.
Defined.
